(** * Buddy allocator of [buddy_system.py]: model and verification

    The class [BuddySystem] keeps two Python dictionaries: [memory], from a
    block size to the list of free blocks of that size, and [allocated], from
    the start address of a live block to the pair (requested size, block
    size).  Blocks are tuples [(start, end)].  Python integers are unbounded,
    so they are modelled by [Z]; dictionaries by [gmap]; lists by [list].

    Python [while] loops and the recursion of [_merge_buddies] are modelled
    with an iteration budget: running out of budget is the outcome
    [OutOfFuel].  The budgets of [_find_nearest_power_of_two], [allocate],
    [deallocate] and [deallocate_block] are shown below to be enough for
    every argument and in every state of the allocator, that of
    [_split_block] for every size from 1, the sizes that [allocate] passes.
    The recursion limit of the interpreter is not part of the model:
    [_merge_buddies] recurses once per merge, as deep as the free lists
    allow. *)

From Stdlib Require Import ZArith Lia List.
From stdpp Require Import base option list gmap.

Local Open Scope Z_scope.

(** ** Data model *)

Definition block : Type := Z * Z.

Record BuddySystem : Type := mkBuddySystem {
  total_memory : Z;
  memory : gmap Z (list block);
  allocated : gmap Z (Z * Z)
}.

(** The only exception the allocator code can raise is the [ValueError] of
    [list.remove]. *)
Inductive exn : Type := ValueError.

(** Outcome of a method call on the (mutable) allocator object: the returned
    value and the object afterwards, or an exception and the object as the
    exception left it. *)
Inductive outcome (A : Type) : Type :=
| Returns (a : A) (st : BuddySystem)
| Raises (e : exn) (st : BuddySystem)
| OutOfFuel.
Arguments Returns {A} a st.
Arguments Raises {A} e st.
Arguments OutOfFuel {A}.

(** [BuddySystem.__init__] *)
Definition __init__ (total : Z) : BuddySystem :=
  mkBuddySystem total {[ total := [(0, total)] ]} ∅.

Definition with_memory (st : BuddySystem) (m : gmap Z (list block)) : BuddySystem :=
  mkBuddySystem (total_memory st) m (allocated st).

(** [d.get(size, [])]; the tests [size in d and d[size]] of the code cannot
    tell an absent key from an empty list either. *)
Definition get_list (m : gmap Z (list block)) (size : Z) : list block :=
  default [] (m !! size).

(** [d.setdefault(size, []).append(b)] *)
Definition append_at (size : Z) (b : block) (m : gmap Z (list block))
  : gmap Z (list block) :=
  <[size := get_list m size ++ [b]]> m.

(** [l.remove(x)]: drops the first occurrence, [None] stands for the
    [ValueError] raised when there is none. *)
Fixpoint list_remove (x : block) (l : list block) : option (list block) :=
  match l with
  | [] => None
  | y :: l' => if decide (x = y) then Some l' else (y ::.) <$> list_remove x l'
  end.

(** Number of iterations granted to the loops that double a size up to
    [total_memory]. *)
Definition rounds (st : BuddySystem) : nat :=
  S (S (Z.to_nat (Z.log2_up (total_memory st)))).

(** ** [_find_nearest_power_of_two] *)

Fixpoint find_loop (fuel : nat) (power size : Z) : option Z :=
  match fuel with
  | O => None
  | S fuel' =>
      if power <? size then find_loop fuel' (power * 2) size else Some power
  end.

Definition _find_nearest_power_of_two (size : Z) : option Z :=
  find_loop (S (Z.to_nat (Z.log2_up size))) 1 size.

(** ** [_split_block] *)

(** The body of the [if] of [_split_block]: [block :: rest] is the list found
    at [larger_size]. *)
Definition split_at (st : BuddySystem) (larger_size : Z) (b : block)
    (rest : list block) : BuddySystem :=
  let m1 := <[larger_size := rest]> (memory st) in
  let mid := (fst b + snd b) / 2 in
  let smaller_size := larger_size / 2 in
  let m2 := append_at smaller_size (fst b, mid) m1 in
  let m3 := append_at smaller_size (mid, snd b) m2 in
  with_memory st m3.

Fixpoint split_loop (fuel : nat) (st : BuddySystem) (larger_size : Z)
  : outcome bool :=
  match fuel with
  | O => OutOfFuel
  | S fuel' =>
      if larger_size <=? total_memory st then
        match memory st !! larger_size with
        | Some (b :: rest) => Returns true (split_at st larger_size b rest)
        | _ => split_loop fuel' st (larger_size * 2)
        end
      else Returns false st
  end.

Definition _split_block (st : BuddySystem) (size : Z) : outcome bool :=
  split_loop (rounds st) st (size * 2).

(** ** [allocate] *)

(** The body of the first [if] of [allocate]: pop the head of the list at
    [block_size] and record it in [allocated]. *)
Definition grant (st : BuddySystem) (size block_size : Z) (b : block)
    (rest : list block) : BuddySystem :=
  mkBuddySystem (total_memory st)
    (<[block_size := rest]> (memory st))
    (<[fst b := (size, block_size)]> (allocated st)).

Fixpoint allocate_loop (fuel : nat) (st : BuddySystem) (size block_size : Z)
  : outcome (option block) :=
  match fuel with
  | O => OutOfFuel
  | S fuel' =>
      if block_size <=? total_memory st then
        match memory st !! block_size with
        | Some (b :: rest) => Returns (Some b) (grant st size block_size b rest)
        | _ =>
            match _split_block st block_size with
            | Returns true st' => allocate_loop fuel' st' size block_size
            | Returns false st' => Returns None st'
            | Raises e st' => Raises e st'
            | OutOfFuel => OutOfFuel
            end
        end
      else Returns None st
  end.

(** [allocate] returns the granted block, or [None] when the request cannot
    be served. *)
Definition allocate (st : BuddySystem) (size : Z) : outcome (option block) :=
  match _find_nearest_power_of_two size with
  | Some block_size => allocate_loop (rounds st) st size block_size
  | None => OutOfFuel
  end.

(** ** [_merge_buddies] and [deallocate] *)

Definition buddy_of (size : Z) (b : block) : block :=
  let buddy_address := Z.lxor (fst b) size in
  (buddy_address, buddy_address + size).

Definition merged_of (b buddy : block) : block :=
  (Z.min (fst b) (fst buddy), Z.max (snd b) (snd buddy)).

(** The body of the [if] of [_merge_buddies] up to the recursive call: [l1]
    is the list at [size] once the buddy is removed, [l2] once the block is
    removed too. *)
Definition merge_at (st : BuddySystem) (size : Z) (b buddy : block)
    (l1 l2 : list block) : BuddySystem :=
  let m1 := <[size := l1]> (memory st) in
  let m2 := <[size := l2]> m1 in
  let merged_block := merged_of b buddy in
  with_memory st (append_at (size * 2) merged_block m2).

Fixpoint _merge_buddies (fuel : nat) (st : BuddySystem) (size : Z) (b : block)
  : outcome unit :=
  match fuel with
  | O => OutOfFuel
  | S fuel' =>
      let buddy := buddy_of size b in
      let l := get_list (memory st) size in
      if decide (buddy ∈ l) then
        match list_remove buddy l with
        | None => Raises ValueError st
        | Some l1 =>
            match list_remove b l1 with
            | None => Raises ValueError (with_memory st (<[size := l1]> (memory st)))
            | Some l2 =>
                _merge_buddies fuel' (merge_at st size b buddy l1 l2)
                  (size * 2) (merged_of b buddy)
            end
        end
      else Returns tt st
  end.

(** The state of [deallocate] just before it calls [_merge_buddies]. *)
Definition release (st : BuddySystem) (b : block) : BuddySystem :=
  let size := snd b - fst b in
  mkBuddySystem (total_memory st)
    (append_at size b (memory st))
    (if decide (is_Some (allocated st !! fst b))
     then delete (fst b) (allocated st) else allocated st).

(** Number of free blocks.  A call of [_merge_buddies] that recurses has
    removed two blocks and appended one, so that the recursion is no deeper
    than the number of free blocks. *)
Definition free_count (st : BuddySystem) : nat :=
  map_fold (λ _ (l : list block) n, (length l + n)%nat) 0%nat (memory st).

Definition deallocate (st : BuddySystem) (b : block) : outcome unit :=
  _merge_buddies (S (free_count (release st b))) (release st b)
    (snd b - fst b) b.

(** ** The address-level entry point

    [BuddySystem.deallocate] takes a block and performs no look-up; the
    look-up by address, and the rejection of an address that is not
    allocated, is [deallocate_block], the caller of [deallocate].  The three
    message boxes it can show are the three values of [message]; the address
    is the integer already parsed from the entry field. *)
Inductive message : Type := Success | Failure | Error.

Definition deallocate_block (st : BuddySystem) (address : Z) : outcome message :=
  match allocated st !! address with
  | Some (_, size) =>
      match deallocate st (address, address + size) with
      | Returns _ st' => Returns Success st'
      | Raises ValueError st' => Returns Error st'
      | OutOfFuel => OutOfFuel
      end
  | None => Returns Failure st
  end.

(** ** Sequences of operations *)

Inductive request : Type :=
| Allocate (size : Z)
| Deallocate (address : Z).

Definition state_of {A} (o : outcome A) : option BuddySystem :=
  match o with
  | Returns _ st => Some st
  | Raises _ _ => None
  | OutOfFuel => None
  end.

Definition step (st : BuddySystem) (r : request) : option BuddySystem :=
  match r with
  | Allocate size => state_of (allocate st size)
  | Deallocate address => state_of (deallocate_block st address)
  end.

Fixpoint run (st : BuddySystem) (rs : list request) : option BuddySystem :=
  match rs with
  | [] => Some st
  | r :: rs' =>
      match step st r with
      | Some st' => run st' rs'
      | None => None
      end
  end.


(** ** Specification vocabulary *)

(** Powers of two, with a natural exponent. *)
Definition p2 (j : nat) : Z := 2 ^ Z.of_nat j.

Definition pow2 (s : Z) : Prop := ∃ j : nat, s = p2 j.

Definition inside (x : Z) (b : block) : Prop := fst b ≤ x < snd b.

Definition overlap (b b' : block) : Prop := ∃ x, inside x b ∧ inside x b'.

(** A block of [0, total) whose size is a power of two and whose start is a
    multiple of its size. *)
Definition aligned (total : Z) (b : block) : Prop :=
  ∃ j : nat, snd b = fst b + p2 j ∧ (p2 j | fst b) ∧ 0 ≤ fst b ∧ snd b ≤ total.

(** The free list of a size class. *)
Definition cls (st : BuddySystem) (s : Z) : list block := get_list (memory st) s.

Definition is_free (st : BuddySystem) (b : block) : Prop := ∃ s, b ∈ cls st s.

Definition is_alloc (st : BuddySystem) (b : block) : Prop :=
  ∃ r s, allocated st !! fst b = Some (r, s) ∧ snd b = fst b + s.

Definition is_block (st : BuddySystem) (b : block) : Prop :=
  is_free st b ∨ is_alloc st b.

(** The buddy of a block, by its own size. *)
Definition buddy (b : block) : block := buddy_of (snd b - fst b) b.

(** [lo] and [hi] are the lower and the upper half of the block [p], whose
    size is a power of two that divides its start. *)
Definition halves (p lo hi : block) : Prop :=
  ∃ (j : nat) (a : Z),
    (p2 (S j) | a) ∧ p = (a, a + p2 (S j)) ∧
    lo = (a, a + p2 j) ∧ hi = (a + p2 j, a + p2 (S j)).

(** A set of blocks tiles [0, total). *)
Definition tiling (total : Z) (U : block → Prop) : Prop :=
  (∀ b, U b → aligned total b) ∧
  (∀ b b', U b → U b' → overlap b b' → b = b') ∧
  (∀ x, 0 ≤ x < total → ∃ b, U b ∧ inside x b).

(** The invariant of the allocator between two steps of its loops. *)
Record wf (st : BuddySystem) : Prop := mk_wf {
  wf_total : pow2 (total_memory st);
  wf_key : ∀ s b, b ∈ cls st s → snd b = fst b + s;
  wf_nodup : ∀ s, NoDup (cls st s);
  wf_excl : ∀ b, is_free st b → is_alloc st b → False;
  wf_tiling : tiling (total_memory st) (is_block st)
}.

(** No two free blocks are buddies of each other, except for pairs that
    involve the block [lo]. *)
Definition coalesced_but (st : BuddySystem) (lo : block) : Prop :=
  ∀ b, is_free st b → is_free st (buddy b) → b = lo ∨ buddy b = lo.

Definition coalesced (st : BuddySystem) : Prop :=
  ∀ b, is_free st b → is_free st (buddy b) → False.

(** The invariant between two operations. *)
Definition inv (st : BuddySystem) : Prop := wf st ∧ coalesced st.

(** A place where a block is stored: a position of a free list, or a key of
    [allocated]. *)
Inductive slot : Type :=
| FreeSlot (size : Z) (index : nat)
| AllocSlot (address : Z).

Definition block_at (st : BuddySystem) (o : slot) : option block :=
  match o with
  | FreeSlot s i => cls st s !! i
  | AllocSlot a =>
      match allocated st !! a with
      | Some (_, s) => Some (a, a + s)
      | None => None
      end
  end.

(** The stored blocks partition [0, total_memory): each lies in the range and
    is not empty, no address belongs to the blocks of two slots, and every
    address of the range belongs to a block. *)
Definition partitions (st : BuddySystem) : Prop :=
  (∀ o b, block_at st o = Some b → 0 ≤ fst b ∧ fst b < snd b ∧ snd b ≤ total_memory st) ∧
  (∀ o o' b b' x, block_at st o = Some b → block_at st o' = Some b' →
     inside x b → inside x b' → o = o') ∧
  (∀ x, 0 ≤ x < total_memory st → ∃ o b, block_at st o = Some b ∧ inside x b).




(** What an allocation that finds its donor [k] size classes above
    [block_size] does: [k] splits, each of the head of the first non-empty
    class, then the grant of the head of the class [block_size]. *)
Inductive descends (size block_size : Z)
  : nat → BuddySystem → block → BuddySystem → Prop :=
| descends_grant st b rest :
    memory st !! block_size = Some (b :: rest) →
    descends size block_size 0 st b (grant st size block_size b rest)
| descends_split k st d rest b st' :
    (∀ i : nat, (i ≤ k)%nat → cls st (block_size * p2 i) = []) →
    memory st !! (block_size * p2 (S k)) = Some (d :: rest) →
    descends size block_size k (split_at st (block_size * p2 (S k)) d rest) b st' →
    descends size block_size (S k) st b st'.

(** States reachable from a fresh allocator by [allocate] and
    [deallocate_block]. *)
Inductive reachable (total : Z) : BuddySystem → Prop :=
| reachable_init : reachable total (__init__ total)
| reachable_allocate st size r st' :
    reachable total st → allocate st size = Returns r st' → reachable total st'
| reachable_deallocate st address m st' :
    reachable total st → deallocate_block st address = Returns m st' →
    reachable total st'.

(** Allocating the sizes of a list in turn, all with success; the granted
    blocks are collected in order. *)
Fixpoint allocate_all (st : BuddySystem) (sizes : list Z)
  : option (list block * BuddySystem) :=
  match sizes with
  | [] => Some ([], st)
  | size :: sizes' =>
      match allocate st size with
      | Returns (Some b) st' =>
          match allocate_all st' sizes' with
          | Some (bs, st'') => Some (b :: bs, st'')
          | None => None
          end
      | _ => None
      end
  end.

(** Deallocating the addresses of a list in turn, all with success. *)
Fixpoint deallocate_all (st : BuddySystem) (addresses : list Z)
  : option BuddySystem :=
  match addresses with
  | [] => Some st
  | a :: addresses' =>
      match deallocate_block st a with
      | Returns Success st' => deallocate_all st' addresses'
      | _ => None
      end
  end.

(** ** [_ensure_memory_keys]

    [int.bit_length]: the number of binary digits of the absolute value, 0
    for 0. *)
Definition bit_length (n : Z) : Z :=
  if n =? 0 then 0 else Z.log2 (Z.abs n) + 1.

(** The body of the [for] loop: [if size not in d: d[size] = []]. *)
Definition ensure_key (m : gmap Z (list block)) (size : Z)
  : gmap Z (list block) :=
  match m !! size with
  | Some _ => m
  | None => <[size := []]> m
  end.

(** [sizes = [2**i for i in range(self.total_memory.bit_length())]], then the
    loop over [sizes]. *)
Definition _ensure_memory_keys (st : BuddySystem) : BuddySystem :=
  let sizes := p2 <$> seq 0 (Z.to_nat (bit_length (total_memory st))) in
  with_memory st (foldl ensure_key (memory st) sizes).

(** The state in which the program starts its event loop: a fresh allocator
    on which [_ensure_memory_keys] has been called. *)
Definition start (total : Z) : BuddySystem :=
  _ensure_memory_keys (__init__ total).

(** Two allocators that the code cannot tell apart: the same total, the
    same [allocated], and the same free list at every size, a key bound to
    the empty list counting as an absent key. *)
Definition similar (st1 st2 : BuddySystem) : Prop :=
  total_memory st1 = total_memory st2 ∧
  allocated st1 = allocated st2 ∧
  ∀ s, cls st1 s = cls st2 s.

(** Two outcomes with the same result and similar allocators. *)
Definition similar_outcome {A} (o1 o2 : outcome A) : Prop :=
  match o1, o2 with
  | Returns a1 st1, Returns a2 st2 => a1 = a2 ∧ similar st1 st2
  | Raises e1 st1, Raises e2 st2 => e1 = e2 ∧ similar st1 st2
  | OutOfFuel, OutOfFuel => True
  | _, _ => False
  end.

(** The keys of [memory] are exactly the powers of two up to the total. *)
Definition seeded (st : BuddySystem) : Prop :=
  ∀ s, is_Some (memory st !! s) ↔ ∃ i : nat, s = p2 i ∧ s ≤ total_memory st.

(** * Powers of two *)

Lemma p2_0 : p2 0 = 1.
Proof. reflexivity. Qed.

Lemma p2_S j : p2 (S j) = 2 * p2 j.
Proof. unfold p2. rewrite Nat2Z.inj_succ, Z.pow_succ_r by lia. reflexivity. Qed.

Lemma p2_pos j : 0 < p2 j.
Proof. unfold p2. apply Z.pow_pos_nonneg; lia. Qed.

Lemma p2_add i j : p2 (i + j) = p2 i * p2 j.
Proof. unfold p2. rewrite Nat2Z.inj_add, Z.pow_add_r by lia. reflexivity. Qed.

Lemma p2_le_mono i j : (i ≤ j)%nat → p2 i ≤ p2 j.
Proof. intros Hij. unfold p2. apply Z.pow_le_mono_r; lia. Qed.

Lemma p2_lt_mono i j : (i < j)%nat → p2 i < p2 j.
Proof. intros Hij. unfold p2. apply Z.pow_lt_mono_r; lia. Qed.

Lemma p2_lt_inv i j : p2 i < p2 j → (i < j)%nat.
Proof.
  intros Hlt. destruct (Nat.lt_ge_cases i j) as [|Hge]; [done|].
  apply p2_le_mono in Hge. lia.
Qed.

Lemma p2_le_inv i j : p2 i ≤ p2 j → (i ≤ j)%nat.
Proof.
  intros Hle. destruct (Nat.le_gt_cases i j) as [|Hgt]; [done|].
  apply p2_lt_mono in Hgt. lia.
Qed.

Lemma p2_inj i j : p2 i = p2 j → i = j.
Proof.
  intros Heq. apply Nat.le_antisymm; apply p2_le_inv; lia.
Qed.

Lemma p2_divide i j : (i ≤ j)%nat → (p2 i | p2 j).
Proof.
  intros Hij. exists (p2 (j - i)). rewrite <- p2_add. f_equal. lia.
Qed.

Lemma p2_log2_up x : x ≤ p2 (Z.to_nat (Z.log2_up x)).
Proof.
  unfold p2. rewrite Z2Nat.id by apply Z.log2_up_nonneg.
  destruct (Z_le_gt_dec x 1) as [Hx|Hx].
  - rewrite Z.log2_up_eqn0 by done. simpl. lia.
  - apply Z.log2_up_spec. lia.
Qed.

Lemma p2_ge_1 j : 1 ≤ p2 j.
Proof. pose proof (p2_pos j). lia. Qed.

(** A size that is doubled [S (Z.to_nat (Z.log2_up total))] times exceeds
    [total]. *)
Lemma p2_rounds total s :
  1 ≤ s → total < s * p2 (S (Z.to_nat (Z.log2_up total))).
Proof.
  intros Hs. rewrite p2_S. pose proof (p2_log2_up total) as Hle.
  pose proof (p2_pos (Z.to_nat (Z.log2_up total))). nia.
Qed.

(** * [_find_nearest_power_of_two] *)

Lemma find_loop_spec size f i :
  size ≤ p2 (i + f) →
  p2 i = 1 ∨ p2 i < 2 * size →
  ∃ j, find_loop (S f) (p2 i) size = Some (p2 j) ∧
       size ≤ p2 j ∧ (p2 j = 1 ∨ p2 j < 2 * size).
Proof.
  revert i. induction f as [|f IH]; intros i Hfuel Htight.
  - rewrite Nat.add_0_r in Hfuel. simpl.
    destruct (Z.ltb_spec (p2 i) size); [lia|]. eauto.
  - cbn [find_loop]. destruct (Z.ltb_spec (p2 i) size) as [Hlt|Hge].
    + replace (p2 i * 2) with (p2 (S i)) by (rewrite p2_S; lia).
      apply IH.
      * replace (S i + f)%nat with (i + S f)%nat by lia. done.
      * right. rewrite p2_S. lia.
    + eauto.
Qed.

Lemma find_nearest_spec size :
  ∃ j, _find_nearest_power_of_two size = Some (p2 j) ∧
       size ≤ p2 j ∧ (p2 j = 1 ∨ p2 j < 2 * size).
Proof.
  unfold _find_nearest_power_of_two.
  change 1 with (p2 0) at 1. apply find_loop_spec.
  - apply p2_log2_up.
  - left. reflexivity.
Qed.

(** * Arithmetic of aligned blocks *)

Lemma lxor_p2_even q j : Z.lxor (2 * q * p2 j) (p2 j) = 2 * q * p2 j + p2 j.
Proof.
  symmetry. apply Z.add_nocarry_lxor. apply Z.bits_inj'. intros n Hn.
  rewrite Z.land_spec, Z.bits_0. unfold p2.
  rewrite Z.pow2_bits_eqb by lia.
  destruct (Z.eqb_spec (Z.of_nat j) n) as [<-|]; [|apply andb_false_r].
  rewrite Z.mul_pow2_bits, Z.sub_diag, Z.bit0_odd, Z.odd_even by lia.
  reflexivity.
Qed.

Lemma lxor_p2_odd q j : Z.lxor ((2 * q + 1) * p2 j) (p2 j) = 2 * q * p2 j.
Proof.
  replace ((2 * q + 1) * p2 j) with (2 * q * p2 j + p2 j) by lia.
  rewrite <- lxor_p2_even, Z.lxor_assoc, Z.lxor_nilpotent, Z.lxor_0_r.
  reflexivity.
Qed.

Lemma halves_buddy_lo p lo hi : halves p lo hi → buddy lo = hi.
Proof.
  intros (j & a & [q ->] & _ & -> & ->). unfold buddy, buddy_of. cbn [fst snd].
  replace (q * p2 (S j) + p2 j - q * p2 (S j)) with (p2 j) by lia.
  rewrite p2_S. replace (q * (2 * p2 j)) with (2 * q * p2 j) by lia.
  rewrite lxor_p2_even. f_equal. lia.
Qed.

Lemma halves_buddy_hi p lo hi : halves p lo hi → buddy hi = lo.
Proof.
  intros (j & a & [q ->] & _ & -> & ->). unfold buddy, buddy_of. cbn [fst snd].
  rewrite p2_S.
  replace (q * (2 * p2 j) + 2 * p2 j - (q * (2 * p2 j) + p2 j)) with (p2 j) by lia.
  replace (q * (2 * p2 j) + p2 j) with ((2 * q + 1) * p2 j) by lia.
  rewrite lxor_p2_odd. f_equal; lia.
Qed.

Lemma halves_merged p lo hi :
  halves p lo hi → merged_of lo hi = p ∧ merged_of hi lo = p.
Proof.
  intros (j & a & _ & -> & -> & ->). unfold merged_of. cbn [fst snd].
  pose proof (p2_pos j). rewrite p2_S. split; f_equal; lia.
Qed.

Lemma halves_inside p lo hi x :
  halves p lo hi → inside x p ↔ inside x lo ∨ inside x hi.
Proof.
  intros (j & a & _ & -> & -> & ->). unfold inside. cbn [fst snd].
  pose proof (p2_pos j). rewrite p2_S. lia.
Qed.

Lemma halves_distinct p lo hi :
  halves p lo hi → lo ≠ hi ∧ lo ≠ p ∧ hi ≠ p ∧ ¬ overlap lo hi.
Proof.
  intros (j & a & _ & -> & -> & ->). pose proof (p2_pos j).
  rewrite p2_S. repeat split; try (intros [=]; lia).
  intros (x & Hlo & Hhi). unfold inside in *. cbn [fst snd] in *. lia.
Qed.

Lemma halves_aligned total p lo hi :
  halves p lo hi → aligned total p ↔ aligned total lo ∧ aligned total hi.
Proof.
  intros (j & a & [q Hq] & -> & -> & ->). pose proof (p2_pos j) as Hpos.
  rewrite p2_S in *. unfold aligned. cbn [fst snd]. split.
  - intros (i & Hsz & _ & Hlo & Hhi). split; exists j.
    + repeat split; try lia. exists (2 * q). lia.
    + repeat split; try lia. exists (2 * q + 1). lia.
  - intros [(_ & _ & _ & Hlo & _) (_ & _ & _ & _ & Hhi)]. exists (S j).
    rewrite p2_S. repeat split; try lia. exists q. lia.
Qed.

(** The way [_split_block] computes the halves of a donor. *)
Lemma halves_of_split total (d : block) (L : Z) :
  aligned total d → snd d = fst d + L → 2 ≤ L →
  halves d (fst d, (fst d + snd d) / 2) ((fst d + snd d) / 2, snd d) ∧
  snd d - (fst d + snd d) / 2 = L / 2 ∧ (fst d + snd d) / 2 - fst d = L / 2 ∧
  L = 2 * (L / 2).
Proof.
  destruct d as [a e]. cbn [fst snd]. intros (j & Hsz & Hdiv & _) -> HL.
  cbn [fst snd] in *. assert (L = p2 j) as -> by lia.
  destruct j as [|j]; [rewrite p2_0 in HL; lia|].
  pose proof (p2_pos j). rewrite p2_S in *.
  replace (a + (a + 2 * p2 j)) with ((a + p2 j) * 2) by lia.
  replace (2 * p2 j) with (p2 j * 2) by lia.
  rewrite !Z.div_mul by lia. repeat split; try lia.
  exists j, a. rewrite p2_S. repeat split; try done; f_equal; lia.
Qed.

(** An aligned block and its buddy are the two halves of an aligned block of
    twice the size. *)
Lemma aligned_buddy total b :
  aligned total b → ∃ p, halves p b (buddy b) ∨ halves p (buddy b) b.
Proof.
  destruct b as [a e]. intros (j & Hsz & [q Hq] & _). cbn [fst snd] in *.
  unfold buddy, buddy_of. cbn [fst snd]. subst e.
  replace (a + p2 j - a) with (p2 j) by lia. subst a.
  destruct (Z.Even_or_Odd q) as [[h ->]|[h ->]].
  - rewrite lxor_p2_even. exists (2 * h * p2 j, 2 * h * p2 j + p2 (S j)).
    left. exists j, (2 * h * p2 j). rewrite p2_S.
    repeat split; try (exists h; lia); f_equal; lia.
  - rewrite lxor_p2_odd. exists (2 * h * p2 j, 2 * h * p2 j + p2 (S j)).
    right. exists j, (2 * h * p2 j). rewrite p2_S.
    repeat split; try (exists h; lia); f_equal; lia.
Qed.

Lemma buddy_involutive total b : aligned total b → buddy (buddy b) = b.
Proof.
  intros Hb. destruct (aligned_buddy total b Hb) as [p [Hh|Hh]].
  - apply (halves_buddy_hi _ _ _ Hh).
  - apply (halves_buddy_lo _ _ _ Hh).
Qed.

(** Two aligned blocks that share an address are nested. *)
Lemma aligned_nested total b c :
  aligned total b → aligned total c → overlap b c →
  snd b - fst b ≤ snd c - fst c → fst c ≤ fst b ∧ snd b ≤ snd c.
Proof.
  destruct b as [a e], c as [a' e']. unfold aligned, overlap, inside.
  cbn [fst snd].
  intros (i & He & [q Hq] & _) (j & He' & [q' Hq'] & _) (x & Hx & Hx') Hle.
  subst e e' a a'.
  assert (i ≤ j)%nat as Hij by (apply p2_le_inv; lia).
  destruct (p2_divide i j Hij) as [c Hc]. pose proof (p2_pos i).
  pose proof (p2_pos j). rewrite Hc in *.
  assert (q' * c < q + 1) by nia. assert (q < q' * c + c) by nia.
  split; nia.
Qed.

Lemma aligned_same_size total b c :
  aligned total b → aligned total c → overlap b c →
  snd b - fst b = snd c - fst c → b = c.
Proof.
  intros Hb Hc Hov Hsz.
  destruct (aligned_nested total b c Hb Hc Hov) as [? ?]; [lia|].
  destruct b, c. cbn [fst snd] in *. f_equal; lia.
Qed.

(** * Tilings of the address range *)

Lemma overlap_sym b c : overlap b c → overlap c b.
Proof. intros (x & ? & ?). exists x. done. Qed.

Lemma overlap_halves p lo hi c :
  halves p lo hi → overlap c p ↔ overlap c lo ∨ overlap c hi.
Proof.
  intros Hh. split.
  - intros (x & Hc & Hp). apply (halves_inside _ _ _ x Hh) in Hp as [?|?];
      [left|right]; exists x; done.
  - intros [(x & Hc & Hx)|(x & Hc & Hx)]; exists x; split; try done;
      apply (halves_inside _ _ _ x Hh); auto.
Qed.

Lemma aligned_overlap_self total b : aligned total b → overlap b b.
Proof.
  intros (j & Hsz & _). exists (fst b). pose proof (p2_pos j).
  unfold inside. lia.
Qed.

Lemma tiling_iff total (U V : block → Prop) :
  (∀ b, U b ↔ V b) → tiling total U → tiling total V.
Proof.
  intros Hiff (Hal & Hdis & Hcov). split; [|split].
  - intros b Hb. apply Hal, Hiff, Hb.
  - intros b b' Hb Hb'. apply Hdis; apply Hiff; done.
  - intros x Hx. destruct (Hcov x Hx) as (b & Hb & Hin).
    exists b. split; [apply Hiff|]; done.
Qed.

(** Replacing a block by its two halves keeps a tiling. *)
Lemma tiling_split total (U : block → Prop) p lo hi :
  tiling total U → U p → halves p lo hi →
  tiling total (λ x, (U x ∧ x ≠ p) ∨ x = lo ∨ x = hi).
Proof.
  intros (Hal & Hdis & Hcov) Hp Hh.
  destruct (halves_distinct _ _ _ Hh) as (Hne & _ & _ & Hnov).
  pose proof (proj1 (halves_aligned total _ _ _ Hh) (Hal p Hp)) as [Hlo Hhi].
  assert (∀ c, U c → c ≠ p → ¬ overlap c lo ∧ ¬ overlap c hi) as Hfar.
  { intros c Hc Hcp. split; intros Hov; apply Hcp, Hdis; try done;
      apply (overlap_halves _ _ _ c Hh); auto. }
  split; [|split].
  - intros b [[Hb _]|[->| ->]]; auto.
  - intros b b' [[Hb Hbp]|[->| ->]] [[Hb' Hbp']|[->| ->]] Hov; try done.
    + apply Hdis; done.
    + destruct (Hfar b Hb Hbp) as [H1 _]. done.
    + destruct (Hfar b Hb Hbp) as [_ H2]. done.
    + destruct (Hfar b' Hb' Hbp') as [H1 _]. apply overlap_sym in Hov. done.
    + destruct (Hfar b' Hb' Hbp') as [_ H2]. apply overlap_sym in Hov. done.
    + apply overlap_sym in Hov. done.
  - intros x Hx. destruct (Hcov x Hx) as (b & Hb & Hin).
    destruct (decide (b = p)) as [->|Hbp].
    + apply (halves_inside _ _ _ x Hh) in Hin as [?|?]; [exists lo|exists hi]; auto.
    + exists b. auto.
Qed.

(** Replacing two halves by the block they form keeps a tiling. *)
Lemma tiling_merge total (U : block → Prop) p lo hi :
  tiling total U → U lo → U hi → halves p lo hi →
  tiling total (λ x, (U x ∧ x ≠ lo ∧ x ≠ hi) ∨ x = p).
Proof.
  intros (Hal & Hdis & Hcov) Hlo Hhi Hh.
  assert (aligned total p) as Hp.
  { apply (halves_aligned total _ _ _ Hh). auto. }
  assert (∀ c, U c → c ≠ lo → c ≠ hi → ¬ overlap c p) as Hfar.
  { intros c Hc Hcl Hch Hov.
    apply (overlap_halves _ _ _ c Hh) in Hov as [Hov|Hov].
    - apply Hcl, Hdis; done.
    - apply Hch, Hdis; done. }
  split; [|split].
  - intros b [[Hb _]| ->]; auto.
  - intros b b' [(Hb & Hbl & Hbh)| ->] [(Hb' & Hbl' & Hbh')| ->] Hov; try done.
    + apply Hdis; done.
    + destruct (Hfar b Hb Hbl Hbh). done.
    + destruct (Hfar b' Hb' Hbl' Hbh'). apply overlap_sym. done.
  - intros x Hx. destruct (Hcov x Hx) as (b & Hb & Hin).
    destruct (decide (b = lo)) as [->|Hbl]; [|destruct (decide (b = hi)) as [->|Hbh]].
    + exists p. split; [auto|]. apply (halves_inside _ _ _ x Hh). auto.
    + exists p. split; [auto|]. apply (halves_inside _ _ _ x Hh). auto.
    + exists b. auto.
Qed.

(** The block formed by two halves of a tiling of [0, total) does not exceed
    [total]. *)
Lemma tiling_halves_size total (U : block → Prop) p lo hi :
  tiling total U → U lo → U hi → halves p lo hi →
  2 * (snd lo - fst lo) ≤ total.
Proof.
  intros (Hal & _ & _) Hlo Hhi Hh.
  destruct (Hal lo Hlo) as (_ & _ & _ & H0 & _).
  destruct (Hal hi Hhi) as (_ & _ & _ & _ & HT).
  destruct Hh as (j & a & _ & -> & -> & ->). cbn [fst snd] in *.
  rewrite p2_S in HT. lia.
Qed.

(** * Free lists after the updates of the code *)

Lemma get_list_insert (m : gmap Z (list block)) k l s :
  get_list (<[k := l]> m) s = if decide (k = s) then l else get_list m s.
Proof.
  unfold get_list. rewrite lookup_insert. destruct (decide (k = s)); done.
Qed.

Lemma get_list_append_at (m : gmap Z (list block)) k b s :
  get_list (append_at k b m) s =
  if decide (k = s) then get_list m k ++ [b] else get_list m s.
Proof. unfold append_at. apply get_list_insert. Qed.

Lemma get_list_Some (m : gmap Z (list block)) s l :
  m !! s = Some l → get_list m s = l.
Proof. unfold get_list. intros ->. done. Qed.

Lemma get_list_nil (m : gmap Z (list block)) s :
  get_list m s = [] ↔ m !! s = None ∨ m !! s = Some [].
Proof.
  unfold get_list. destruct (m !! s) as [l|]; cbn; split; auto.
  - intros ->. auto.
  - intros [[=]|[= ->]]. done.
Qed.

Lemma cls_grant st size bs b rest s :
  cls (grant st size bs b rest) s = if decide (bs = s) then rest else cls st s.
Proof. unfold cls, grant. cbn. apply get_list_insert. Qed.

Lemma cls_split_at st L d rest s :
  L / 2 ≠ L →
  cls (split_at st L d rest) s =
  if decide (L = s) then rest
  else if decide (L / 2 = s)
       then cls st s ++ [(fst d, (fst d + snd d) / 2); ((fst d + snd d) / 2, snd d)]
       else cls st s.
Proof.
  intros Hne. unfold cls, split_at. cbn.
  rewrite !get_list_append_at, !get_list_insert.
  repeat case_decide; subst; try done; try lia.
  rewrite <- app_assoc. done.
Qed.

Lemma cls_release st b s :
  cls (release st b) s =
  if decide (snd b - fst b = s) then cls st s ++ [b] else cls st s.
Proof.
  unfold cls, release. cbn. rewrite get_list_append_at.
  case_decide; subst; done.
Qed.

Lemma cls_merge_at st s b bud l1 l2 s' :
  s * 2 ≠ s →
  cls (merge_at st s b bud l1 l2) s' =
  if decide (s = s') then l2
  else if decide (s * 2 = s') then cls st s' ++ [merged_of b bud] else cls st s'.
Proof.
  intros Hne. unfold cls, merge_at. cbn.
  rewrite get_list_append_at, !get_list_insert.
  repeat case_decide; subst; try done; try lia.
Qed.

(** [list.remove] on a list without duplicates. *)
Lemma list_remove_elem x l :
  x ∈ l → ∃ l', list_remove x l = Some l'.
Proof.
  induction l as [|y l IH]; [by intros ?%elem_of_nil|].
  intros Hin. cbn. destruct (decide (x = y)); [eauto|].
  apply elem_of_cons in Hin as [?|Hin]; [done|].
  destruct (IH Hin) as [l' ->]. cbn. eauto.
Qed.

Lemma list_remove_nodup x l l' :
  NoDup l → list_remove x l = Some l' →
  NoDup l' ∧ ∀ y, y ∈ l' ↔ y ∈ l ∧ y ≠ x.
Proof.
  revert l'. induction l as [|z l IH]; intros l' Hnd; [done|].
  apply NoDup_cons in Hnd as [Hz Hnd]. cbn.
  destruct (decide (x = z)) as [->|Hxz].
  - intros [= <-]. split; [done|]. intros y. rewrite elem_of_cons.
    split; [|intros [[?|?] ?]; done].
    intros Hy. split; [auto|]. intros ->. done.
  - destruct (list_remove x l) as [l0|] eqn:Hrem; [|done]. cbn.
    intros [= <-]. destruct (IH l0 Hnd eq_refl) as [Hnd0 Hiff]. split.
    + apply NoDup_cons. split; [|done]. intros Hin. apply Hiff in Hin as [? _]. done.
    + intros y. rewrite !elem_of_cons, Hiff. split.
      * intros [->|[? ?]]; auto.
      * intros [[->|?] ?]; auto.
Qed.

(** * The invariant is kept by each update *)

Lemma wf_free_aligned st s b :
  wf st → b ∈ cls st s → aligned (total_memory st) b ∧ snd b = fst b + s.
Proof.
  intros Hwf Hb. split; [|by apply (wf_key _ Hwf)].
  apply (wf_tiling _ Hwf). left. exists s. done.
Qed.

Lemma aligned_nonempty total b : aligned total b → fst b < snd b.
Proof. intros (j & Hsz & _). pose proof (p2_pos j). lia. Qed.

Lemma overlap_same_start b c :
  fst b < snd b → fst c < snd c → fst b = fst c → overlap b c.
Proof. intros Hb Hc Heq. exists (fst b). unfold inside. lia. Qed.

(** A block that overlaps a block of a tiling, and is not that block, is not
    in the tiling. *)
Lemma tiling_fresh total (U : block → Prop) d x :
  tiling total U → U d → overlap x d → x ≠ d → ¬ U x.
Proof. intros (_ & Hdis & _) Hd Hov Hne Hx. apply Hne, Hdis; done. Qed.

Lemma wf_alloc_not_free st b :
  wf st → is_free st b → ∀ x, is_alloc st x → fst x ≠ fst b.
Proof.
  intros Hwf Hb x Hx Heq.
  assert (x = b) as ->.
  { apply (wf_tiling _ Hwf); [by right|by left|].
    apply overlap_same_start; [| |done];
      eapply aligned_nonempty, (wf_tiling _ Hwf); [by right|by left]. }
  apply (wf_excl _ Hwf b); done.
Qed.

Lemma grant_blocks st size bs b rest :
  wf st → memory st !! bs = Some (b :: rest) →
  (∀ x, is_free (grant st size bs b rest) x ↔ is_free st x ∧ x ≠ b) ∧
  (∀ x, is_alloc (grant st size bs b rest) x ↔ is_alloc st x ∨ x = b).
Proof.
  intros Hwf Hm.
  assert (cls st bs = b :: rest) as Hcls by (by apply get_list_Some).
  assert (b ∈ cls st bs) as Hb by (rewrite Hcls; left).
  pose proof (wf_key _ Hwf _ _ Hb) as Hkey.
  pose proof (wf_nodup _ Hwf bs) as Hnd. rewrite Hcls in Hnd.
  apply NoDup_cons in Hnd as [Hnotin Hnd].
  split; intros x.
  - unfold is_free. split.
    + intros [s Hs]. rewrite cls_grant in Hs. case_decide as Hbs.
      * subst s. split; [exists bs; rewrite Hcls; by right|]. by intros ->.
      * split; [eauto|]. intros ->.
        pose proof (wf_key _ Hwf _ _ Hs). lia.
    + intros [[s Hs] Hne]. exists s. rewrite cls_grant. case_decide; [|done].
      subst s. rewrite Hcls in Hs. apply elem_of_cons in Hs as [?|?]; done.
  - unfold is_alloc at 1. cbn. split.
    + intros (r & s & Hl & Hsz). rewrite lookup_insert in Hl.
      case_decide as Heq.
      * injection Hl as <- <-. right. destruct x, b. cbn in *. f_equal; lia.
      * left. exists r, s. done.
    + intros [Hx| ->].
      * pose proof (wf_alloc_not_free st b Hwf (ex_intro _ bs Hb) x Hx) as Hne.
        destruct Hx as (r & s & Hl & Hsz). exists r, s.
        rewrite lookup_insert_ne by done. done.
      * exists size, bs. rewrite lookup_insert_eq. done.
Qed.

Lemma wf_grant st size bs b rest :
  wf st → memory st !! bs = Some (b :: rest) → wf (grant st size bs b rest).
Proof.
  intros Hwf Hm. destruct (grant_blocks st size bs b rest Hwf Hm) as [Hfree Halloc].
  assert (cls st bs = b :: rest) as Hcls by (by apply get_list_Some).
  assert (is_free st b) as Hb by (exists bs; rewrite Hcls; left).
  split.
  - apply (wf_total _ Hwf).
  - intros s x Hx. apply (wf_key _ Hwf).
    assert (is_free (grant st size bs b rest) x) as Hfx by (by exists s).
    rewrite cls_grant in Hx. case_decide; [|done].
    subst s. rewrite Hcls. by right.
  - intros s. rewrite cls_grant. case_decide; [|apply (wf_nodup _ Hwf)].
    subst s. pose proof (wf_nodup _ Hwf bs) as Hnd. rewrite Hcls in Hnd.
    by apply NoDup_cons in Hnd as [_ ?].
  - intros x [Hx Hne]%Hfree [Hax|?]%Halloc; [|done].
    apply (wf_excl _ Hwf x); done.
  - apply (tiling_iff _ (is_block st)); [|apply (wf_tiling _ Hwf)].
    intros x. unfold is_block. rewrite Hfree, Halloc.
    destruct (decide (x = b)) as [->|]; tauto.
Qed.

Lemma coalesced_grant st size bs b rest :
  wf st → memory st !! bs = Some (b :: rest) →
  coalesced_but st b → coalesced (grant st size bs b rest).
Proof.
  intros Hwf Hm Hco x.
  destruct (grant_blocks st size bs b rest Hwf Hm) as [Hfree _].
  intros [Hx Hne]%Hfree [Hy Hne']%Hfree.
  destruct (Hco x Hx Hy); done.
Qed.

Lemma split_blocks st L d rest :
  wf st → memory st !! L = Some (d :: rest) → 2 ≤ L →
  let lo := (fst d, (fst d + snd d) / 2) in
  let hi := ((fst d + snd d) / 2, snd d) in
  halves d lo hi ∧ L / 2 ≠ L ∧ L = 2 * (L / 2) ∧
  snd lo = fst lo + L / 2 ∧ snd hi = fst hi + L / 2 ∧
  (∀ x, is_free (split_at st L d rest) x ↔ (is_free st x ∧ x ≠ d) ∨ x = lo ∨ x = hi) ∧
  (∀ x, is_alloc (split_at st L d rest) x ↔ is_alloc st x).
Proof.
  intros Hwf Hm HL lo hi.
  assert (cls st L = d :: rest) as Hcls by (by apply get_list_Some).
  assert (d ∈ cls st L) as Hd by (rewrite Hcls; left).
  destruct (wf_free_aligned st L d Hwf Hd) as [Hal Hkey].
  destruct (halves_of_split _ d L Hal Hkey HL) as (Hh & Hhi & Hlo & Heven).
  pose proof (wf_nodup _ Hwf L) as Hnd. rewrite Hcls in Hnd.
  apply NoDup_cons in Hnd as [Hnotin Hnd].
  assert (L / 2 ≠ L) as Hne by lia.
  repeat split; try done; try (subst lo hi; cbn [fst snd]; lia).
  - intros [s Hs]. rewrite cls_split_at in Hs by done. case_decide as HLs.
    + subst s. left. split; [exists L; rewrite Hcls; by right|]. by intros ->.
    + assert (x ∈ cls st s → is_free st x ∧ x ≠ d) as Hold.
      { intros Hx. split; [by exists s|]. intros ->.
        pose proof (wf_key _ Hwf _ _ Hx). lia. }
      case_decide; [|auto].
      apply elem_of_app in Hs as [Hs|Hs]; [auto|]. right.
      apply elem_of_cons in Hs as [?|Hs]; [auto|].
      apply elem_of_cons in Hs as [?|Hs]; [auto|]. by apply elem_of_nil in Hs.
  - intros [[[s Hs] Hxd]|[->| ->]].
    + exists s. rewrite cls_split_at by done. case_decide as HLs.
      * subst s. rewrite Hcls in Hs. apply elem_of_cons in Hs as [?|?]; done.
      * case_decide; [|done]. apply elem_of_app. by left.
    + exists (L / 2). rewrite cls_split_at by done.
      case_decide; [lia|]. case_decide; [|done].
      apply elem_of_app. right. left.
    + exists (L / 2). rewrite cls_split_at by done.
      case_decide; [lia|]. case_decide; [|done].
      apply elem_of_app. right. right. left.
Qed.

Lemma wf_split_at st L d rest :
  wf st → memory st !! L = Some (d :: rest) → 2 ≤ L →
  wf (split_at st L d rest).
Proof.
  intros Hwf Hm HL.
  destruct (split_blocks st L d rest Hwf Hm HL)
    as (Hh & Hne & Heven & Hklo & Hkhi & Hfree & Halloc).
  set (lo := (fst d, (fst d + snd d) / 2)) in *.
  set (hi := ((fst d + snd d) / 2, snd d)) in *.
  assert (cls st L = d :: rest) as Hcls by (by apply get_list_Some).
  assert (is_free st d) as Hd by (exists L; rewrite Hcls; left).
  destruct (halves_distinct _ _ _ Hh) as (Hlh & Hlod & Hhid & _).
  assert (aligned (total_memory st) d) as Hald by (apply (wf_tiling _ Hwf); by left).
  pose proof (proj1 (halves_aligned _ _ _ _ Hh) Hald) as [Hallo Halhi].
  assert (¬ is_block st lo) as Hlo_new.
  { apply (tiling_fresh (total_memory st) (is_block st) d);
      [apply (wf_tiling _ Hwf)|by left| |done].
    apply (overlap_halves _ _ _ lo Hh). left. by eapply aligned_overlap_self. }
  assert (¬ is_block st hi) as Hhi_new.
  { apply (tiling_fresh (total_memory st) (is_block st) d);
      [apply (wf_tiling _ Hwf)|by left| |done].
    apply (overlap_halves _ _ _ hi Hh). right. by eapply aligned_overlap_self. }
  split.
  - apply (wf_total _ Hwf).
  - intros s x Hx. rewrite cls_split_at in Hx by done. case_decide as HLs.
    + subst s. apply (wf_key _ Hwf). rewrite Hcls. by right.
    + case_decide as Hs; [|by apply (wf_key _ Hwf)].
      apply elem_of_app in Hx as [Hx|Hx]; [by apply (wf_key _ Hwf)|].
      subst s. apply elem_of_cons in Hx as [->|Hx]; [done|].
      apply elem_of_cons in Hx as [->|Hx]; [done|]. by apply elem_of_nil in Hx.
  - intros s. rewrite cls_split_at by done. case_decide as HLs.
    + subst s. pose proof (wf_nodup _ Hwf L) as Hnd. rewrite Hcls in Hnd.
      by apply NoDup_cons in Hnd as [_ ?].
    + case_decide; [|apply (wf_nodup _ Hwf)].
      apply NoDup_app. split; [apply (wf_nodup _ Hwf)|]. split.
      * intros x Hx Hx'. apply elem_of_cons in Hx' as [->|Hx'].
        { apply Hlo_new. left. by exists s. }
        apply elem_of_cons in Hx' as [->|Hx']; [|by apply elem_of_nil in Hx'].
        apply Hhi_new. left. by exists s.
      * apply NoDup_cons. split; [|apply NoDup_singleton].
        intros Hin. apply list_elem_of_singleton in Hin. done.
  - intros x [[Hx _]|[->| ->]]%Hfree Hax%Halloc.
    + apply (wf_excl _ Hwf x); done.
    + apply Hlo_new. by right.
    + apply Hhi_new. by right.
  - apply (tiling_iff _ (λ x, (is_block st x ∧ x ≠ d) ∨ x = lo ∨ x = hi)).
    + intros x. split.
      * intros [[[Hf|Ha] Hxd]|Hnew].
        -- left. apply Hfree. by left.
        -- right. by apply Halloc.
        -- left. apply Hfree. by right.
      * intros [[[? ?]|?]%Hfree|Ha%Halloc].
        -- left. split; [by left|done].
        -- by right.
        -- left. split; [by right|]. intros ->. apply (wf_excl _ Hwf d); done.
    + apply tiling_split; [apply (wf_tiling _ Hwf)|by left|done].
Qed.

Lemma coalesced_split_at st L d rest :
  wf st → memory st !! L = Some (d :: rest) → 2 ≤ L →
  coalesced_but st d →
  coalesced_but (split_at st L d rest) (fst d, (fst d + snd d) / 2).
Proof.
  intros Hwf Hm HL Hco x.
  destruct (split_blocks st L d rest Hwf Hm HL)
    as (Hh & _ & _ & _ & _ & Hfree & _).
  intros [[Hx Hxd]|[->| ->]]%Hfree Hy; [|auto|].
  - apply Hfree in Hy as [[Hy Hyd]|[Hy|Hy]]; [|auto|].
    + destruct (Hco x Hx Hy); done.
    + left. rewrite <- (buddy_involutive (total_memory st) x).
      * rewrite Hy. apply (halves_buddy_hi _ _ _ Hh).
      * apply (wf_tiling _ Hwf). by left.
  - right. apply (halves_buddy_hi _ _ _ Hh).
Qed.

Lemma release_blocks st a r s :
  wf st → allocated st !! a = Some (r, s) →
  (∀ x, is_free (release st (a, a + s)) x ↔ is_free st x ∨ x = (a, a + s)) ∧
  (∀ x, is_alloc (release st (a, a + s)) x ↔ is_alloc st x ∧ x ≠ (a, a + s)).
Proof.
  intros Hwf Ha. split; intros x.
  - unfold is_free. split.
    + intros [s' Hs]. rewrite cls_release in Hs. case_decide; [|eauto].
      apply elem_of_app in Hs as [?|Hs]; [eauto|].
      apply list_elem_of_singleton in Hs. auto.
    + intros [[s' Hs]| ->].
      * exists s'. rewrite cls_release. case_decide; [|done].
        apply elem_of_app. by left.
      * exists s. rewrite cls_release. cbn [fst snd].
        case_decide; [|lia]. apply elem_of_app. right. left.
  - unfold is_alloc, release. cbn [allocated fst snd].
    rewrite decide_True by (rewrite Ha; eauto). split.
    + intros (r' & s' & Hl & Hsz). rewrite lookup_delete in Hl.
      case_decide; [done|]. split; [eauto|]. intros ->. done.
    + intros [(r' & s' & Hl & Hsz) Hne]. exists r', s'. split; [|done].
      rewrite lookup_delete. case_decide as Heq; [|done].
      exfalso. apply Hne. rewrite <- Heq in Hl. rewrite Ha in Hl.
      injection Hl as <- <-. destruct x. cbn in *. f_equal; lia.
Qed.

Lemma wf_release st a r s :
  wf st → allocated st !! a = Some (r, s) → wf (release st (a, a + s)).
Proof.
  intros Hwf Ha. destruct (release_blocks st a r s Hwf Ha) as [Hfree Halloc].
  assert (is_alloc st (a, a + s)) as Hb by (exists r, s; done).
  split.
  - apply (wf_total _ Hwf).
  - intros s' x Hx. rewrite cls_release in Hx. cbn [fst snd] in Hx.
    case_decide; [|by apply (wf_key _ Hwf)].
    apply elem_of_app in Hx as [?|Hx]; [by apply (wf_key _ Hwf)|].
    apply list_elem_of_singleton in Hx as ->. cbn. lia.
  - intros s'. rewrite cls_release. case_decide; [|apply (wf_nodup _ Hwf)].
    apply NoDup_app. split; [apply (wf_nodup _ Hwf)|].
    split; [|apply NoDup_singleton].
    intros x Hx ->%list_elem_of_singleton.
    apply (wf_excl _ Hwf (a, a + s)); [by exists s'|done].
  - intros x [Hx| ->]%Hfree [Hax Hne]%Halloc; [|done].
    apply (wf_excl _ Hwf x); done.
  - apply (tiling_iff _ (is_block st)); [|apply (wf_tiling _ Hwf)].
    intros x. unfold is_block. rewrite Hfree, Halloc.
    destruct (decide (x = (a, a + s))) as [->|]; tauto.
Qed.

Lemma coalesced_release st a r s :
  wf st → allocated st !! a = Some (r, s) →
  coalesced st → coalesced_but (release st (a, a + s)) (a, a + s).
Proof.
  intros Hwf Ha Hco x.
  destruct (release_blocks st a r s Hwf Ha) as [Hfree _].
  intros [Hx|?]%Hfree [Hy|?]%Hfree; auto.
  destruct (Hco x Hx Hy).
Qed.

Lemma merge_blocks st s b l1 l2 :
  wf st → b ∈ cls st s → buddy_of s b ∈ cls st s →
  list_remove (buddy_of s b) (cls st s) = Some l1 →
  list_remove b l1 = Some l2 →
  let p := merged_of b (buddy_of s b) in
  let st' := merge_at st s b (buddy_of s b) l1 l2 in
  buddy_of s b = buddy b ∧ s * 2 ≠ s ∧
  (∃ lo hi, halves p lo hi ∧
     (lo = b ∧ hi = buddy b ∨ lo = buddy b ∧ hi = b)) ∧
  snd p = fst p + s * 2 ∧
  (∀ x, is_free st' x ↔ (is_free st x ∧ x ≠ b ∧ x ≠ buddy b) ∨ x = p) ∧
  (∀ x, is_alloc st' x ↔ is_alloc st x).
Proof.
  intros Hwf Hb Hbud Hl1 Hl2. cbv zeta.
  destruct (wf_free_aligned st s b Hwf Hb) as [Hal Hkey].
  assert (buddy_of s b = buddy b) as Hbb by (unfold buddy; f_equal; lia).
  rewrite Hbb in *. set (p := merged_of b (buddy b)).
  destruct (wf_free_aligned st s _ Hwf Hbud) as [Halb Hkeyb].
  assert (1 ≤ s) as Hs.
  { destruct Hal as (j & Hsz & _). pose proof (p2_pos j). lia. }
  assert (s * 2 ≠ s) as Hne by lia.
  destruct (list_remove_nodup _ _ _ (wf_nodup _ Hwf s) Hl1) as [Hnd1 Hin1].
  destruct (list_remove_nodup _ _ _ Hnd1 Hl2) as [Hnd2 Hin2].
  assert (∃ lo hi, halves p lo hi ∧
            (lo = b ∧ hi = buddy b ∨ lo = buddy b ∧ hi = b)) as Hhalves.
  { destruct (aligned_buddy _ b Hal) as [q [Hh|Hh]].
    - exists b, (buddy b). split; [|auto]. subst p.
      destruct (halves_merged _ _ _ Hh) as [-> _]. done.
    - exists (buddy b), b. split; [|auto]. subst p.
      destruct (halves_merged _ _ _ Hh) as [_ ->]. done. }
  assert (snd p = fst p + s * 2) as Hkeyp.
  { destruct Hhalves as (lo & hi & (j & a0 & _ & Hp & Hlo & Hhi) & Hcase).
    rewrite Hp. cbn [fst snd]. rewrite p2_S.
    assert (snd lo = fst lo + s) by (destruct Hcase as [[-> _]|[-> _]]; done).
    subst lo. cbn [fst snd] in *. lia. }
  repeat split; try done.
  - intros [s' Hx]. rewrite cls_merge_at in Hx by done.
    case_decide as Hss.
    + subst s'. left. apply Hin2 in Hx as [Hx ?]. apply Hin1 in Hx as [Hx ?].
      split; [by exists s|done].
    + assert (x ∈ cls st s' → is_free st x ∧ x ≠ b ∧ x ≠ buddy b) as Hold.
      { intros Hx'. split; [by exists s'|].
        pose proof (wf_key _ Hwf _ _ Hx'). split; intros ->; lia. }
      case_decide; [|auto].
      apply elem_of_app in Hx as [?|Hx]; [auto|].
      apply list_elem_of_singleton in Hx. auto.
  - intros [[[s' Hx] [Hxb Hxbud]]| ->].
    + exists s'. rewrite cls_merge_at by done. case_decide as Hss.
      * subst s'. apply Hin2. split; [|done]. apply Hin1. done.
      * case_decide; [|done]. apply elem_of_app. by left.
    + exists (s * 2). rewrite cls_merge_at by done.
      case_decide; [lia|]. case_decide; [|done].
      apply elem_of_app. right. left.
Qed.

Lemma wf_merge_at st s b l1 l2 :
  wf st → b ∈ cls st s → buddy_of s b ∈ cls st s →
  list_remove (buddy_of s b) (cls st s) = Some l1 →
  list_remove b l1 = Some l2 →
  wf (merge_at st s b (buddy_of s b) l1 l2).
Proof.
  intros Hwf Hb Hbud Hl1 Hl2.
  destruct (merge_blocks st s b l1 l2 Hwf Hb Hbud Hl1 Hl2)
    as (Hbb & Hne & (lo & hi & Hh & Hcase) & Hkeyp & Hfree & Halloc).
  rewrite Hbb in *. set (p := merged_of b (buddy b)) in *.
  destruct (list_remove_nodup _ _ _ (wf_nodup _ Hwf s) Hl1) as [Hnd1 Hin1].
  destruct (list_remove_nodup _ _ _ Hnd1 Hl2) as [Hnd2 Hin2].
  destruct (halves_distinct _ _ _ Hh) as (Hlh & Hlop & Hhip & _).
  assert (is_block st lo ∧ is_block st hi) as [Hlo Hhi].
  { destruct Hcase as [[-> ->]|[-> ->]]; split; left; by exists s. }
  assert (¬ is_block st p) as Hp_new.
  { apply (tiling_fresh (total_memory st) (is_block st) lo);
      [apply (wf_tiling _ Hwf)|done| |done].
    apply overlap_sym, (overlap_halves _ _ _ lo Hh). left.
    eapply aligned_overlap_self, (wf_tiling _ Hwf), Hlo. }
  split.
  - apply (wf_total _ Hwf).
  - intros s' x Hx. rewrite cls_merge_at in Hx by done. case_decide as Hss.
    + subst s'. apply (wf_key _ Hwf). apply Hin2 in Hx as [Hx _].
      by apply Hin1 in Hx as [Hx _].
    + case_decide as Hs2; [|by apply (wf_key _ Hwf)].
      apply elem_of_app in Hx as [?|Hx]; [by apply (wf_key _ Hwf)|].
      apply list_elem_of_singleton in Hx as ->. subst s'. done.
  - intros s'. rewrite cls_merge_at by done. case_decide; [done|].
    case_decide; [|apply (wf_nodup _ Hwf)].
    apply NoDup_app. split; [apply (wf_nodup _ Hwf)|].
    split; [|apply NoDup_singleton].
    intros x Hx ->%list_elem_of_singleton. apply Hp_new. left. by exists s'.
  - intros x [[Hx _]| ->]%Hfree Hax%Halloc.
    + apply (wf_excl _ Hwf x); done.
    + apply Hp_new. by right.
  - apply (tiling_iff _ (λ x, (is_block st x ∧ x ≠ lo ∧ x ≠ hi) ∨ x = p)).
    + assert (∀ x, x ≠ lo ∧ x ≠ hi ↔ x ≠ b ∧ x ≠ buddy b) as Hsame.
      { intros x. destruct Hcase as [[-> ->]|[-> ->]]; tauto. }
      intros x. split.
      * intros [[[Hf|Ha] Hx]|Hnew].
        -- left. apply Hfree. left. split; [done|]. by apply Hsame.
        -- right. by apply Halloc.
        -- left. apply Hfree. by right.
      * intros [[[? ?]|?]%Hfree|Ha%Halloc].
        -- left. split; [by left|]. by apply Hsame.
        -- by right.
        -- left. split; [by right|]. apply Hsame.
           split; intros ->;
             [apply (wf_excl _ Hwf b)|apply (wf_excl _ Hwf (buddy b))];
             try done; by exists s.
    + apply tiling_merge; [apply (wf_tiling _ Hwf)|done|done|done].
Qed.

Lemma coalesced_merge_at st s b l1 l2 :
  wf st → b ∈ cls st s → buddy_of s b ∈ cls st s →
  list_remove (buddy_of s b) (cls st s) = Some l1 →
  list_remove b l1 = Some l2 →
  coalesced_but st b →
  coalesced_but (merge_at st s b (buddy_of s b) l1 l2)
    (merged_of b (buddy_of s b)).
Proof.
  intros Hwf Hb Hbud Hl1 Hl2 Hco x.
  destruct (merge_blocks st s b l1 l2 Hwf Hb Hbud Hl1 Hl2)
    as (Hbb & _ & _ & _ & Hfree & _).
  rewrite Hbb in *.
  intros [(Hx & Hxb & Hxbud)|?]%Hfree [(Hy & Hyb & Hybud)|?]%Hfree; auto.
  destruct (Hco x Hx Hy); done.
Qed.

(** When the buddy of [b] is not free, nothing is left to merge. *)
Lemma coalesced_no_buddy st s b :
  wf st → b ∈ cls st s → buddy_of s b ∉ cls st s →
  coalesced_but st b → coalesced st.
Proof.
  intros Hwf Hb Hbud Hco x Hx Hy.
  destruct (wf_free_aligned st s b Hwf Hb) as [Hal Hkey].
  assert (buddy_of s b = buddy b) as Hbb by (unfold buddy; f_equal; lia).
  rewrite Hbb in Hbud.
  assert (is_free st (buddy b) → False) as Hno.
  { intros [s' Hs']. pose proof (wf_key _ Hwf _ _ Hs') as Hk.
    rewrite <- Hbb in Hk at 1 2. unfold buddy_of in Hk. cbn [fst snd] in Hk.
    assert (s' = s) as -> by lia. done. }
  destruct (Hco x Hx Hy) as [->| Heq]; [done|].
  apply Hno. rewrite <- Heq.
  rewrite (buddy_involutive (total_memory st)); [done|].
  apply (wf_tiling _ Hwf). by left.
Qed.

(** * [_merge_buddies] and [deallocate_block] keep the invariant *)

Lemma merge_buddies_spec fuel : ∀ st s b,
  wf st → b ∈ cls st s → coalesced_but st b →
  total_memory st < s * p2 fuel →
  ∃ st', _merge_buddies fuel st s b = Returns tt st' ∧ inv st' ∧
         allocated st' = allocated st ∧ total_memory st' = total_memory st.
Proof.
  induction fuel as [|fuel IH]; intros st s b Hwf Hb Hco Hfuel.
  - exfalso. destruct (wf_free_aligned st s b Hwf Hb) as [(j & _ & _ & ? & ?) ?].
    rewrite p2_0 in Hfuel. lia.
  - cbn [_merge_buddies]. fold (cls st s).
    destruct (decide (buddy_of s b ∈ cls st s)) as [Hbud|Hbud].
    + destruct (list_remove_elem _ _ Hbud) as [l1 Hl1]. rewrite Hl1.
      destruct (list_remove_nodup _ _ _ (wf_nodup _ Hwf s) Hl1) as [Hnd1 Hin1].
      assert (b ≠ buddy_of s b) as Hne.
      { destruct (wf_free_aligned st s b Hwf Hb) as [Hal Hkey].
        assert (buddy_of s b = buddy b) as -> by (unfold buddy; f_equal; lia).
        destruct (aligned_buddy _ b Hal) as [q [Hh|Hh]];
          destruct (halves_distinct _ _ _ Hh) as (? & _); done. }
      assert (b ∈ l1) as Hb1 by (by apply Hin1).
      destruct (list_remove_elem _ _ Hb1) as [l2 Hl2]. rewrite Hl2.
      destruct (merge_blocks st s b l1 l2 Hwf Hb Hbud Hl1 Hl2)
        as (Hbb & Hs2 & (lo & hi & Hh & Hcase) & Hkeyp & Hfree & _).
      destruct (IH (merge_at st s b (buddy_of s b) l1 l2) (s * 2)
                  (merged_of b (buddy_of s b))) as (st' & Hrun & Hinv & Hal' & HT').
      * by apply wf_merge_at.
      * rewrite cls_merge_at by done. case_decide; [lia|].
        case_decide; [|done]. apply elem_of_app. right. left.
      * by apply coalesced_merge_at.
      * cbn. rewrite p2_S in Hfuel. lia.
      * exists st'. done.
    + exists st. split; [done|]. split; [|done].
      split; [done|]. by eapply coalesced_no_buddy.
Qed.

Lemma rounds_enough st s : 1 ≤ s → total_memory st < s * p2 (rounds st).
Proof.
  intros Hs. unfold rounds.
  pose proof (p2_rounds (total_memory st) s Hs) as H1.
  rewrite (p2_S (S _)).
  pose proof (p2_pos (S (Z.to_nat (Z.log2_up (total_memory st))))). nia.
Qed.

(** ** The budget of [deallocate] is enough in every state *)

(** One unfolding of the recursion. *)
Lemma merge_buddies_S fuel st size b :
  _merge_buddies (S fuel) st size b =
  if decide (buddy_of size b ∈ get_list (memory st) size) then
    match list_remove (buddy_of size b) (get_list (memory st) size) with
    | None => Raises ValueError st
    | Some l1 =>
        match list_remove b l1 with
        | None => Raises ValueError (with_memory st (<[size := l1]> (memory st)))
        | Some l2 =>
            _merge_buddies fuel (merge_at st size b (buddy_of size b) l1 l2)
              (size * 2) (merged_of b (buddy_of size b))
        end
    end
  else Returns tt st.
Proof. reflexivity. Qed.

Lemma list_remove_length x l l' :
  list_remove x l = Some l' → length l = S (length l').
Proof.
  revert l'. induction l as [|y l IH]; intros l'; cbn; [done|].
  destruct (decide (x = y)); [by intros [= <-]|].
  destruct (list_remove x l) as [l0|]; [|done]. cbn. intros [= <-].
  cbn. f_equal. by apply IH.
Qed.

Lemma free_count_insert st k l :
  (free_count (with_memory st (<[k := l]> (memory st)))
   + length (get_list (memory st) k))%nat
  = (free_count st + length l)%nat.
Proof.
  unfold free_count. cbn [memory with_memory].
  rewrite <- insert_delete_eq.
  rewrite map_fold_insert_L; [|intros; lia|apply lookup_delete_eq].
  unfold get_list. destruct (memory st !! k) as [l0|] eqn:Hk; cbn.
  - rewrite (map_fold_delete_L _ _ k l0 (memory st)); [lia| |done].
    intros. lia.
  - rewrite delete_id by done. lia.
Qed.

Lemma free_count_merge_at st s b l1 l2 :
  list_remove (buddy_of s b) (get_list (memory st) s) = Some l1 →
  list_remove b l1 = Some l2 →
  S (free_count (merge_at st s b (buddy_of s b) l1 l2)) = free_count st.
Proof.
  intros Hl1 Hl2. apply list_remove_length in Hl1, Hl2.
  pose proof (free_count_insert st s l1) as H1.
  pose proof (free_count_insert (with_memory st (<[s := l1]> (memory st))) s l2)
    as H2.
  cbn [memory with_memory] in H2. rewrite get_list_insert, decide_True in H2 by done.
  pose proof (free_count_insert
                (with_memory st (<[s := l2]> (<[s := l1]> (memory st)))) (s * 2)
                (get_list (<[s := l2]> (<[s := l1]> (memory st))) (s * 2)
                 ++ [merged_of b (buddy_of s b)])) as H3.
  cbn [memory with_memory] in H3. rewrite length_app in H3. cbn [length] in H3.
  unfold merge_at, append_at. cbn zeta.
  change (with_memory (with_memory st ?m) ?m') with (with_memory st m') in *.
  lia.
Qed.

(** The recursion of [_merge_buddies] ends in every state: a budget above
    the number of free blocks is never exhausted. *)
Lemma merge_buddies_terminates fuel : ∀ st s b,
  (free_count st < fuel)%nat → _merge_buddies fuel st s b ≠ OutOfFuel.
Proof.
  induction fuel as [|fuel IH]; intros st s b Hlt; [lia|].
  cbn [_merge_buddies].
  destruct (decide (buddy_of s b ∈ get_list (memory st) s)); [|done].
  destruct (list_remove (buddy_of s b) (get_list (memory st) s)) as [l1|] eqn:Hl1;
    [|done].
  destruct (list_remove b l1) as [l2|] eqn:Hl2; [|done].
  apply IH. pose proof (free_count_merge_at st s b l1 l2 Hl1 Hl2). lia.
Qed.

(** A larger budget does not change a result. *)
Lemma merge_buddies_fuel_mono fuel : ∀ fuel' st s b,
  (fuel ≤ fuel')%nat → _merge_buddies fuel st s b ≠ OutOfFuel →
  _merge_buddies fuel' st s b = _merge_buddies fuel st s b.
Proof.
  induction fuel as [|fuel IH]; intros fuel' st s b Hle; [done|].
  destruct fuel' as [|fuel']; [lia|]. cbn [_merge_buddies].
  destruct (decide (buddy_of s b ∈ get_list (memory st) s)); [|done].
  destruct (list_remove (buddy_of s b) (get_list (memory st) s)) as [l1|]; [|done].
  destruct (list_remove b l1) as [l2|]; [|done].
  apply IH. lia.
Qed.

(** A result obtained with any budget is the result of the budget of
    [deallocate]. *)
Lemma merge_buddies_budget fuel st s b :
  _merge_buddies fuel st s b ≠ OutOfFuel →
  _merge_buddies (S (free_count st)) st s b = _merge_buddies fuel st s b.
Proof.
  intros Hrun.
  pose proof (merge_buddies_terminates (S (free_count st)) st s b ltac:(lia))
    as Hend.
  rewrite <- (merge_buddies_fuel_mono fuel (Nat.max fuel (S (free_count st)))
                st s b (Nat.le_max_l _ _) Hrun).
  symmetry. apply merge_buddies_fuel_mono; [apply Nat.le_max_r|done].
Qed.

Lemma deallocate_block_inv st a r s :
  inv st → allocated st !! a = Some (r, s) →
  ∃ st', deallocate_block st a = Returns Success st' ∧ inv st' ∧
         allocated st' = delete a (allocated st) ∧
         total_memory st' = total_memory st.
Proof.
  intros [Hwf Hco] Ha. unfold deallocate_block, deallocate. rewrite Ha.
  cbn [fst snd]. replace (a + s - a) with s by lia.
  assert (aligned (total_memory st) (a, a + s)) as Hal.
  { apply (wf_tiling _ Hwf). right. exists r, s. done. }
  assert (1 ≤ s) as Hs.
  { destruct Hal as (j & Hsz & _). pose proof (p2_pos j). cbn in Hsz. lia. }
  destruct (merge_buddies_spec (rounds st) (release st (a, a + s)) s (a, a + s))
    as (st' & Hrun & Hinv & Hal' & HT').
  - by eapply wf_release.
  - rewrite cls_release. cbn [fst snd]. case_decide; [|lia].
    apply elem_of_app. right. left.
  - by eapply coalesced_release.
  - cbn. by apply rounds_enough.
  - rewrite (merge_buddies_budget (rounds st)), Hrun by (by rewrite Hrun).
    exists st'. split; [done|]. split; [done|]. split; [|done].
    rewrite Hal'. cbn. rewrite decide_True by (rewrite Ha; eauto). done.
Qed.

(** * [_split_block]: which donor is split, and where the halves go *)

Lemma cls_lookup_empty st s :
  match memory st !! s with Some (_ :: _) => False | _ => True end →
  cls st s = [].
Proof. unfold cls, get_list. destruct (memory st !! s) as [[|? ?]|]; done. Qed.

Lemma split_loop_spec f : ∀ st L,
  0 < L → total_memory st < L * p2 f →
  (split_loop (S f) st L = Returns false st ∧
   ∀ i : nat, L * p2 i ≤ total_memory st → cls st (L * p2 i) = [])
  ∨
  (∃ (i : nat) d rest,
     L * p2 i ≤ total_memory st ∧
     (∀ i' : nat, (i' < i)%nat → cls st (L * p2 i') = []) ∧
     memory st !! (L * p2 i) = Some (d :: rest) ∧
     split_loop (S f) st L = Returns true (split_at st (L * p2 i) d rest)).
Proof.
  induction f as [|f IH]; intros st L HL Hfuel; cbn [split_loop];
    destruct (Z.leb_spec L (total_memory st)) as [Hle|Hgt].
  - rewrite p2_0 in Hfuel. lia.
  - left. split; [done|]. intros i Hi. pose proof (p2_ge_1 i). nia.
  - destruct (memory st !! L) as [[|d rest]|] eqn:Hm.
    2:{ right. exists 0%nat, d, rest. rewrite p2_0, Z.mul_1_r.
        repeat split; try done. intros i' ?. lia. }
    all: assert (cls st L = []) as Hnil by (apply cls_lookup_empty; by rewrite Hm).
    all: destruct (IH st (L * 2)) as [[Hrun Hall]|(i & d & rest & Hi & Hlow & Hd & Hrun)];
      [lia|rewrite p2_S in Hfuel; lia| |].
    all: try (left; split; [done|]; intros [|i] Hi;
              [by rewrite p2_0, Z.mul_1_r|];
              replace (L * p2 (S i)) with (L * 2 * p2 i) in * by (rewrite p2_S; lia);
              by apply Hall).
    all: right; exists (S i), d, rest;
      replace (L * p2 (S i)) with (L * 2 * p2 i) by (rewrite p2_S; lia);
      repeat split; try done;
      intros [|i'] Hi'; [by rewrite p2_0, Z.mul_1_r|];
      replace (L * p2 (S i')) with (L * 2 * p2 i') by (rewrite p2_S; lia);
      apply Hlow; lia.
  - left. split; [done|]. intros i Hi. pose proof (p2_ge_1 i). nia.
Qed.

Lemma split_block_spec st bs :
  1 ≤ bs →
  (_split_block st bs = Returns false st ∧
   ∀ i : nat, (1 ≤ i)%nat → bs * p2 i ≤ total_memory st → cls st (bs * p2 i) = [])
  ∨
  (∃ (k : nat) d rest,
     bs * p2 (S k) ≤ total_memory st ∧
     (∀ i : nat, (1 ≤ i ≤ k)%nat → cls st (bs * p2 i) = []) ∧
     memory st !! (bs * p2 (S k)) = Some (d :: rest) ∧
     _split_block st bs = Returns true (split_at st (bs * p2 (S k)) d rest)).
Proof.
  intros Hbs. unfold _split_block, rounds.
  assert (∀ i, bs * 2 * p2 i = bs * p2 (S i)) as Hshift
    by (intros i; rewrite p2_S; lia).
  destruct (split_loop_spec (S (Z.to_nat (Z.log2_up (total_memory st)))) st (bs * 2))
    as [[Hrun Hall]|(i & d & rest & Hi & Hlow & Hd & Hrun)].
  - lia.
  - apply p2_rounds. lia.
  - left. split; [done|]. intros [|i] Hi Hle; [lia|].
    rewrite <- Hshift in *. by apply Hall.
  - right. exists i, d, rest. rewrite <- Hshift. repeat split; try done.
    intros [|i'] Hi'; [lia|]. rewrite <- Hshift. apply Hlow. lia.
Qed.

(** * [allocate]: the loop follows [descends] *)

Lemma chain_inj bs i j : 1 ≤ bs → bs * p2 i = bs * p2 j → i = j.
Proof. intros Hbs Heq. apply p2_inj. nia. Qed.

Lemma chain_half bs k :
  bs * p2 (S k) / 2 = bs * p2 k.
Proof.
  rewrite p2_S. replace (bs * (2 * p2 k)) with (bs * p2 k * 2) by lia.
  apply Z.div_mul. lia.
Qed.

Lemma cls_nonempty st s :
  cls st s ≠ [] → ∃ b rest, memory st !! s = Some (b :: rest).
Proof.
  unfold cls, get_list. destruct (memory st !! s) as [[|b rest]|]; try done.
  eauto.
Qed.

Lemma allocate_loop_descends size bs k : ∀ fuel st,
  1 ≤ bs → bs * p2 k ≤ total_memory st →
  (∀ i : nat, (i < k)%nat → cls st (bs * p2 i) = []) →
  cls st (bs * p2 k) ≠ [] → (k < fuel)%nat →
  ∃ b st', allocate_loop fuel st size bs = Returns (Some b) st' ∧
           descends size bs k st b st'.
Proof.
  induction k as [|k IH]; intros fuel st Hbs Hle Hlow Hne Hfuel;
    (destruct fuel as [|fuel]; [lia|]); cbn [allocate_loop].
  - rewrite p2_0, Z.mul_1_r in Hne, Hle.
    destruct (Z.leb_spec bs (total_memory st)); [|lia].
    destruct (cls_nonempty _ _ Hne) as (b & rest & Hm). rewrite Hm.
    exists b, (grant st size bs b rest). split; [done|]. by constructor.
  - pose proof (p2_ge_1 (S k)) as HSk.
    destruct (Z.leb_spec bs (total_memory st)); [|nia].
    assert (cls st bs = []) as Hnil.
    { rewrite <- (Z.mul_1_r bs), <- p2_0. apply Hlow. lia. }
    destruct (split_block_spec st bs Hbs)
      as [[_ Hall]|(k0 & d & rest & Hk0 & Hlow0 & Hd & Hrun)].
    { exfalso. apply Hne, Hall; [lia|done]. }
    assert (k0 = k) as ->.
    { destruct (Nat.lt_trichotomy k0 k) as [Hlt|[?|Hgt]]; [|done|].
      - pose proof (Hlow (S k0) ltac:(lia)) as Hempty.
        unfold cls in Hempty. rewrite (get_list_Some _ _ _ Hd) in Hempty. done.
      - exfalso. apply Hne, Hlow0. lia. }
    assert (memory st !! bs = None ∨ memory st !! bs = Some []) as Hbs_empty
      by (by apply get_list_nil).
    assert (∃ b st', allocate_loop fuel (split_at st (bs * p2 (S k)) d rest) size bs
                     = Returns (Some b) st' ∧
                     descends size bs k (split_at st (bs * p2 (S k)) d rest) b st')
      as (b & st' & Hloop & Hdesc).
    { pose proof (p2_ge_1 k) as Hk1.
      assert (bs * p2 (S k) / 2 ≠ bs * p2 (S k)) as Hhalf
        by (rewrite chain_half, p2_S; nia).
      apply IH; try done.
      - cbn. rewrite p2_S in Hle. nia.
      - intros i Hi. rewrite cls_split_at by done.
        case_decide as H1; [apply chain_inj in H1; lia|].
        rewrite chain_half. case_decide as H2; [apply chain_inj in H2; lia|].
        apply Hlow. lia.
      - rewrite cls_split_at by done.
        case_decide as H1; [apply chain_inj in H1; lia|].
        rewrite chain_half. case_decide; [|done].
        intros Happ. apply app_eq_nil in Happ as [_ ?]. done.
      - lia. }
    exists b, st'. split.
    + destruct Hbs_empty as [-> | ->]; rewrite Hrun; done.
    + apply (descends_split size bs k st d rest); try done.
      intros i Hi. apply Hlow. lia.
Qed.

Lemma allocate_loop_none size st bs :
  1 ≤ bs →
  (∀ i : nat, bs * p2 i ≤ total_memory st → cls st (bs * p2 i) = []) →
  allocate_loop (rounds st) st size bs = Returns None st.
Proof.
  intros Hbs Hall. unfold rounds. cbn [allocate_loop].
  destruct (Z.leb_spec bs (total_memory st)) as [Hle|]; [|done].
  assert (cls st bs = []) as Hnil.
  { rewrite <- (Z.mul_1_r bs), <- p2_0. apply Hall. rewrite p2_0. lia. }
  destruct (split_block_spec st bs Hbs)
    as [[Hrun _]|(k0 & d & rest & Hk0 & _ & Hd & _)].
  - apply get_list_nil in Hnil as [-> | ->]; rewrite Hrun; done.
  - specialize (Hall (S k0) Hk0). unfold cls in Hall.
    rewrite (get_list_Some _ _ _ Hd) in Hall. done.
Qed.

Lemma first_class st bs :
  1 ≤ bs →
  (∀ i : nat, bs * p2 i ≤ total_memory st → cls st (bs * p2 i) = [])
  ∨
  (∃ k : nat, bs * p2 k ≤ total_memory st ∧
     (∀ i : nat, (i < k)%nat → cls st (bs * p2 i) = []) ∧
     cls st (bs * p2 k) ≠ []).
Proof.
  intros Hbs. destruct (decide (bs ≤ total_memory st)) as [Hle|Hgt].
  2:{ left. intros i Hi. pose proof (p2_ge_1 i). nia. }
  destruct (decide (cls st bs = [])) as [Hnil|Hne].
  2:{ right. exists 0%nat. rewrite p2_0, Z.mul_1_r. repeat split; try done.
      intros i ?. lia. }
  destruct (split_block_spec st bs Hbs)
    as [[_ Hall]|(k0 & d & rest & Hk0 & Hlow & Hd & _)].
  - left. intros [|i] Hi; [by rewrite p2_0, Z.mul_1_r|]. apply Hall; [lia|done].
  - right. exists (S k0). repeat split; try done.
    + intros [|i] Hi; [by rewrite p2_0, Z.mul_1_r|]. apply Hlow. lia.
    + unfold cls. rewrite (get_list_Some _ _ _ Hd). done.
Qed.

Lemma chain_lt_rounds st bs k :
  1 ≤ bs → bs * p2 k ≤ total_memory st → (k < rounds st)%nat.
Proof.
  intros Hbs Hle. apply p2_lt_inv.
  pose proof (rounds_enough st 1 ltac:(lia)). pose proof (p2_ge_1 k). nia.
Qed.

(** [allocate] either finds every size class from the rounded size upwards
    empty and changes nothing, or grants a block along [descends]. *)
Lemma allocate_cases st size :
  ∃ j : nat,
    _find_nearest_power_of_two size = Some (p2 j) ∧
    size ≤ p2 j ∧ (p2 j = 1 ∨ p2 j < 2 * size) ∧
    ((allocate st size = Returns None st ∧
      ∀ i : nat, p2 j * p2 i ≤ total_memory st → cls st (p2 j * p2 i) = [])
     ∨
     (∃ (k : nat) b st',
        p2 j * p2 k ≤ total_memory st ∧
        (∀ i : nat, (i < k)%nat → cls st (p2 j * p2 i) = []) ∧
        cls st (p2 j * p2 k) ≠ [] ∧
        allocate st size = Returns (Some b) st' ∧
        descends size (p2 j) k st b st')).
Proof.
  destruct (find_nearest_spec size) as (j & Hfind & Hge & Htight).
  exists j. repeat split; try done. unfold allocate. rewrite Hfind.
  pose proof (p2_ge_1 j) as Hbs.
  destruct (first_class st (p2 j) Hbs) as [Hall|(k & Hk & Hlow & Hne)].
  - left. split; [|done]. by apply allocate_loop_none.
  - right.
    destruct (allocate_loop_descends size (p2 j) k (rounds st) st)
      as (b & st' & Hrun & Hdesc); try done.
    { by eapply chain_lt_rounds. }
    exists k, b, st'. done.
Qed.

(** * [allocate] keeps the invariant *)

Lemma descends_inv size bs k st b st' :
  descends size bs k st b st' → 1 ≤ bs → wf st →
  (∀ lo rest, memory st !! (bs * p2 k) = Some (lo :: rest) → coalesced_but st lo) →
  inv st' ∧ total_memory st' = total_memory st ∧
  allocated st !! fst b = None ∧
  allocated st' = <[fst b := (size, bs)]> (allocated st) ∧
  snd b = fst b + bs.
Proof.
  induction 1 as [st b rest Hm|k st d rest b st' Hlow Hd Hdesc IH];
    intros Hbs Hwf Hco.
  - assert (b ∈ cls st bs) as Hb.
    { unfold cls. rewrite (get_list_Some _ _ _ Hm). left. }
    rewrite p2_0, Z.mul_1_r in Hco.
    split; [split|]; [by apply wf_grant|by eapply coalesced_grant; eauto|].
    repeat split; try done; [|by apply (wf_key _ Hwf)].
    destruct (allocated st !! fst b) as [[r s]|] eqn:Ha; [|done].
    exfalso.
    apply (wf_alloc_not_free st b Hwf (ex_intro _ bs Hb) (fst b, fst b + s));
      [|done].
    exists r, s. done.
  - pose proof (p2_ge_1 k) as Hk1.
    assert (2 ≤ bs * p2 (S k)) as HL by (rewrite p2_S; nia).
    assert (bs * p2 (S k) / 2 ≠ bs * p2 (S k)) as Hhalf
      by (rewrite chain_half, p2_S; nia).
    destruct IH as (Hinv & HT & Hnone & Hal & Hkey); try done.
    + by apply wf_split_at.
    + intros lo rest' Hlo.
      assert (lo = (fst d, (fst d + snd d) / 2)) as ->.
      { apply get_list_Some in Hlo. fold (cls (split_at st (bs * p2 (S k)) d rest)
                                               (bs * p2 k)) in Hlo.
        rewrite cls_split_at in Hlo by done.
        case_decide as H1; [apply chain_inj in H1; lia|].
        rewrite chain_half in Hlo. case_decide; [|done].
        rewrite (Hlow k) in Hlo by lia. by injection Hlo as <- _. }
      apply coalesced_split_at; eauto.
Qed.

Lemma allocate_inv st size r st' :
  inv st → allocate st size = Returns r st' →
  inv st' ∧ total_memory st' = total_memory st ∧
  match r with
  | None => st' = st
  | Some b =>
      ∃ j : nat, _find_nearest_power_of_two size = Some (p2 j) ∧
        snd b = fst b + p2 j ∧
        allocated st !! fst b = None ∧
        allocated st' = <[fst b := (size, p2 j)]> (allocated st)
  end.
Proof.
  intros [Hwf Hco] Hrun.
  destruct (allocate_cases st size)
    as (j & Hfind & _ & _ & [[Hnone _]|(k & b & st1 & _ & _ & _ & Hsome & Hdesc)]).
  - rewrite Hnone in Hrun. injection Hrun as <- <-. done.
  - rewrite Hsome in Hrun. injection Hrun as <- <-.
    destruct (descends_inv _ _ _ _ _ _ Hdesc (p2_ge_1 j) Hwf)
      as (Hinv & HT & Hfresh & Hal & Hkey).
    { intros lo rest _ x Hx Hy. destruct (Hco x Hx Hy). }
    repeat split; try apply Hinv; try done. exists j. done.
Qed.

Lemma cls_init total s :
  cls (__init__ total) s = if decide (total = s) then [(0, total)] else [].
Proof.
  unfold cls, __init__, get_list. cbn. rewrite lookup_singleton.
  case_decide; done.
Qed.

Lemma inv_init total : pow2 total → inv (__init__ total).
Proof.
  intros [n ->]. pose proof (p2_pos n) as Hpos.
  assert (∀ x, is_free (__init__ (p2 n)) x ↔ x = (0, p2 n)) as Hfree.
  { intros x. split.
    - intros [s Hs]. rewrite cls_init in Hs. case_decide; [|by apply elem_of_nil in Hs].
      by apply list_elem_of_singleton in Hs.
    - intros ->. exists (p2 n). rewrite cls_init. case_decide; [|done]. left. }
  assert (∀ x, ¬ is_alloc (__init__ (p2 n)) x) as Halloc.
  { intros x (r & s & Hl & _). cbn in Hl. by rewrite lookup_empty in Hl. }
  split; [split|].
  - by exists n.
  - intros s x Hx. rewrite cls_init in Hx.
    case_decide; [|by apply elem_of_nil in Hx].
    apply list_elem_of_singleton in Hx as ->. cbn. lia.
  - intros s. rewrite cls_init. case_decide; [apply NoDup_singleton|apply NoDup_nil_2].
  - intros x _ Hx. by apply (Halloc x).
  - split; [|split].
    + intros x [->%Hfree|Hx]; [|by apply Halloc in Hx].
      exists n. cbn. repeat split; try lia. apply Z.divide_0_r.
    + intros x y [->%Hfree|Hx] [->%Hfree|Hy] _; try done;
        exfalso; eapply Halloc; eauto.
    + intros x Hx. exists (0, p2 n). split; [|done]. left. by apply Hfree.
  - intros x ->%Hfree Hy%Hfree. unfold buddy, buddy_of in Hy. cbn in Hy.
    rewrite Z.sub_0_r, Z.lxor_0_l in Hy. injection Hy as Hy _. lia.
Qed.

Lemma reachable_inv total st :
  pow2 total → reachable total st → inv st ∧ total_memory st = total.
Proof.
  intros Hpow. induction 1 as [|st size r st' _ [Hinv HT] Hrun
                                |st a m st' _ [Hinv HT] Hrun].
  - split; [by apply inv_init|done].
  - destruct (allocate_inv _ _ _ _ Hinv Hrun) as (? & ? & _). split; [done|lia].
  - unfold deallocate_block in Hrun.
    destruct (allocated st !! a) as [[r s]|] eqn:Ha.
    + destruct (deallocate_block_inv st a r s Hinv Ha) as (st1 & Hrun1 & ? & _ & ?).
      unfold deallocate_block in Hrun1. rewrite Ha in Hrun1.
      rewrite Hrun1 in Hrun. injection Hrun as <- <-. split; [done|lia].
    + injection Hrun as <- <-. done.
Qed.

(** * Consequences of the invariant *)

Lemma wf_partitions st : wf st → partitions st.
Proof.
  intros Hwf.
  assert (∀ o b, block_at st o = Some b → is_block st b) as Hblock.
  { intros [s i|a] b Hb; cbn in Hb.
    - left. exists s. by eapply list_elem_of_lookup_2.
    - destruct (allocated st !! a) as [[r s]|] eqn:Ha; [|done].
      injection Hb as <-. right. exists r, s. done. }
  split; [|split].
  - intros o b Hb. apply Hblock, (wf_tiling _ Hwf) in Hb.
    pose proof (aligned_nonempty _ _ Hb). destruct Hb as (j & _ & _ & ? & ?). lia.
  - intros o o' b b' x Hb Hb' Hx Hx'.
    assert (b = b') as <-.
    { apply (wf_tiling _ Hwf); [by eapply Hblock|by eapply Hblock|].
      exists x. done. }
    destruct o as [s i|a], o' as [s' i'|a']; cbn in Hb, Hb'.
    + pose proof (wf_key _ Hwf s b ltac:(by eapply list_elem_of_lookup_2)).
      pose proof (wf_key _ Hwf s' b ltac:(by eapply list_elem_of_lookup_2)).
      assert (s' = s) as -> by lia. f_equal.
      eapply NoDup_lookup; [apply (wf_nodup _ Hwf s)|done|done].
    + exfalso. apply (wf_excl _ Hwf b).
      * exists s. by eapply list_elem_of_lookup_2.
      * destruct (allocated st !! a') as [[r s']|] eqn:Ha; [|done].
        injection Hb' as <-. exists r, s'. done.
    + exfalso. apply (wf_excl _ Hwf b).
      * exists s'. by eapply list_elem_of_lookup_2.
      * destruct (allocated st !! a) as [[r s]|] eqn:Ha; [|done].
        injection Hb as <-. exists r, s. done.
    + destruct (allocated st !! a) as [[r s]|]; [|done].
      destruct (allocated st !! a') as [[r' s']|]; [|done].
      injection Hb as <-. injection Hb' as -> _. done.
  - intros x Hx. destruct (proj2 (proj2 (wf_tiling _ Hwf)) x Hx) as (b & [[s Hb]|Hb] & Hin).
    + apply list_elem_of_lookup_1 in Hb as [i Hi].
      exists (FreeSlot s i), b. done.
    + destruct Hb as (r & s & Ha & Hsz). exists (AllocSlot (fst b)), b.
      split; [|done]. cbn. rewrite Ha. destruct b. cbn in *. by subst.
Qed.

(** With nothing allocated, a coalesced tiling is the single block
    [0, total). *)
Lemma all_free_whole st :
  inv st → allocated st = ∅ →
  ∀ (j : nat) b, is_free st b → snd b = fst b + p2 j → b = (0, total_memory st).
Proof.
  intros [Hwf Hco] Hempty.
  assert (∀ c, is_block st c → is_free st c) as Hfree_only.
  { intros c [?|(r & s & Ha & _)]; [done|]. rewrite Hempty in Ha.
    by rewrite lookup_empty in Ha. }
  destruct (wf_total _ Hwf) as [n HT].
  induction j as [j IH] using lt_wf_ind. intros b Hb Hsz.
  assert (aligned (total_memory st) b) as Hal by (apply (wf_tiling _ Hwf); by left).
  destruct (decide (total_memory st ≤ p2 j)) as [Hbig|Hsmall].
  { destruct Hal as (_ & _ & _ & ? & ?). destruct b. cbn in *. f_equal; lia. }
  exfalso. assert (j < n)%nat as Hjn by (apply p2_lt_inv; lia).
  destruct (aligned_buddy _ b Hal) as [p Hh0].
  assert (∃ lo hi, halves p lo hi ∧ (lo = b ∧ hi = buddy b ∨ lo = buddy b ∧ hi = b))
    as (lo & hi & Hh & Hcase) by (destruct Hh0; eauto 6).
  assert (aligned (total_memory st) p) as Halp.
  { destruct Hh as (j' & a0 & [q Hq] & Hp & Hlo & Hhi).
    assert (snd lo = fst lo + p2 j) as Hlosz.
    { destruct Hcase as [[-> _]|[_ Hb']]; [done|].
      subst lo hi. cbn [fst snd]. rewrite <- Hb' in Hsz. cbn in Hsz.
      rewrite p2_S in Hsz. lia. }
    assert (j' = j) as -> by (subst lo; cbn in Hlosz; apply p2_inj; lia).
    destruct (p2_divide (S j) n ltac:(lia)) as [t Ht]. rewrite <- HT in Ht.
    destruct Hal as (_ & _ & _ & H0 & H1).
    pose proof (p2_pos j) as Hpj. pose proof (p2_pos (S j)) as HpSj.
    assert (fst b = a0 ∨ fst b = a0 + p2 j) as Hstart
      by (destruct Hcase as [[<- _]|[_ <-]]; subst; cbn; auto).
    exists (S j). subst p. cbn [fst snd]. rewrite p2_S in *.
    repeat split; try done.
    - exists q. done.
    - destruct Hstart; [lia|]. assert (0 ≤ q) by nia. nia.
    - assert (q < t) by (destruct Hstart; nia). nia. }
  pose proof (proj1 (halves_aligned _ _ _ _ Hh) Halp) as [Hallo Halhi].
  assert (aligned (total_memory st) (buddy b)) as Halbud
    by (destruct Hcase as [[_ <-]|[<- _]]; done).
  assert (snd (buddy b) = fst (buddy b) + p2 j) as Hbudsz.
  { unfold buddy, buddy_of. cbn. lia. }
  pose proof (aligned_nonempty _ _ Halbud) as Hbudne.
  assert (0 ≤ fst (buddy b) < total_memory st) as Hx.
  { destruct Halbud as (_ & _ & _ & ? & ?). lia. }
  destruct (proj2 (proj2 (wf_tiling _ Hwf)) _ Hx) as (c & Hc & Hin).
  assert (aligned (total_memory st) c) as Halc by (by apply (wf_tiling _ Hwf)).
  apply Hfree_only in Hc.
  assert (overlap c (buddy b)) as Hov.
  { exists (fst (buddy b)). split; [done|]. unfold inside. lia. }
  destruct Halc as (i & Hci & Hrest).
  assert (aligned (total_memory st) c) as Halc by (exists i; done).
  destruct (Nat.lt_trichotomy i j) as [Hlt|[->|Hgt]].
  - pose proof (IH i Hlt c Hc Hci) as ->. cbn in Hci.
    apply p2_lt_mono in Hlt. lia.
  - assert (c = buddy b) as -> by (eapply aligned_same_size; eauto; lia).
    apply (Hco b); done.
  - assert (overlap p c) as Hpc.
    { apply overlap_sym, (overlap_halves _ _ _ c Hh).
      destruct Hcase as [[_ ->]|[-> _]]; auto. }
    assert (snd p - fst p ≤ snd c - fst c) as Hsize.
    { destruct Hh as (j' & a0 & _ & Hp & Hlo & Hhi).
      assert (snd lo = fst lo + p2 j) as Hlosz.
      { destruct Hcase as [[-> _]|[-> _]]; done. }
      assert (j' = j) as -> by (subst lo; cbn in Hlosz; apply p2_inj; lia).
      subst p. cbn [fst snd]. apply p2_le_mono in Hgt. lia. }
    destruct (aligned_nested _ p c Halp Halc Hpc Hsize) as [Hlow Hhigh].
    assert (overlap b c) as Hbc.
    { exists (fst b). pose proof (aligned_nonempty _ _ Hal).
      assert (inside (fst b) p) as Hbp.
      { apply (halves_inside _ _ _ _ Hh).
        destruct Hcase as [[-> _]|[_ ->]]; [left|right]; unfold inside; lia. }
      unfold inside in *. lia. }
    assert (b = c) as <-.
    { apply (wf_tiling _ Hwf); [by left|by left|done]. }
    apply p2_lt_mono in Hgt. lia.
Qed.

Lemma all_free_single st :
  inv st → allocated st = ∅ →
  memory st !! total_memory st = Some [(0, total_memory st)] ∧
  ∀ s, s ≠ total_memory st → cls st s = [].
Proof.
  intros Hinv Hempty. pose proof (all_free_whole st Hinv Hempty) as Hwhole.
  destruct Hinv as [Hwf Hco].
  assert (∀ s b, b ∈ cls st s → b = (0, total_memory st) ∧ s = total_memory st)
    as Hcls.
  { intros s b Hb. destruct (wf_free_aligned st s b Hwf Hb) as [(j & Hj & _) Hkey].
    pose proof (Hwhole j b ltac:(by exists s) Hj) as ->. cbn in Hkey.
    split; [done|lia]. }
  split.
  - destruct (wf_total _ Hwf) as [n HT]. pose proof (p2_pos n).
    destruct (proj2 (proj2 (wf_tiling _ Hwf)) 0 ltac:(lia)) as (b & [[s Hb]|Hb] & _).
    2:{ destruct Hb as (r & s & Ha & _). rewrite Hempty in Ha.
        by rewrite lookup_empty in Ha. }
    destruct (Hcls s b Hb) as [-> ->].
    pose proof (wf_nodup _ Hwf (total_memory st)) as Hnd.
    unfold cls, get_list in Hb, Hnd, Hcls.
    specialize (Hcls (total_memory st)).
    destruct (memory st !! total_memory st) as [l|]; [|by apply elem_of_nil in Hb].
    cbn in *. f_equal. destruct l as [|x [|y l]].
    + by apply elem_of_nil in Hb.
    + destruct (Hcls x ltac:(left)) as [-> _]. done.
    + destruct (Hcls x ltac:(left)) as [-> _].
      destruct (Hcls y ltac:(right; left)) as [-> _].
      apply NoDup_cons in Hnd as [Hnotin _]. exfalso. apply Hnotin. left.
  - intros s Hs. apply elem_of_nil_inv. intros b Hb.
    destruct (Hcls s b Hb) as [_ ?]. done.
Qed.

(** * Sequences of operations *)

Lemma step_inv st r :
  inv st →
  ∃ st', step st r = Some st' ∧ inv st' ∧ total_memory st' = total_memory st.
Proof.
  intros Hinv. destruct r as [size|a]; cbn [step].
  - destruct (allocate_cases st size)
      as (j & _ & _ & _ & [[Hrun _]|(k & b & st' & _ & _ & _ & Hrun & _)]).
    + rewrite Hrun. exists st. done.
    + destruct (allocate_inv _ _ _ _ Hinv Hrun) as (? & ? & _).
      rewrite Hrun. exists st'. done.
  - destruct (allocated st !! a) as [[r s]|] eqn:Ha.
    + destruct (deallocate_block_inv st a r s Hinv Ha) as (st' & -> & ? & _ & ?).
      exists st'. done.
    + unfold deallocate_block. rewrite Ha. exists st. done.
Qed.

Lemma run_inv rs : ∀ st,
  inv st →
  ∃ st', run st rs = Some st' ∧ inv st' ∧ total_memory st' = total_memory st.
Proof.
  induction rs as [|r rs IH]; intros st Hinv; cbn [run].
  - exists st. done.
  - destruct (step_inv st r Hinv) as (st1 & -> & Hinv1 & HT1).
    destruct (IH st1 Hinv1) as (st' & Hrun & Hinv' & HT').
    exists st'. rewrite HT', HT1. done.
Qed.

Lemma allocate_all_inv sizes : ∀ st blocks st1,
  inv st → allocate_all st sizes = Some (blocks, st1) →
  inv st1 ∧ total_memory st1 = total_memory st ∧
  NoDup (fst <$> blocks) ∧
  (∀ a, a ∈ fst <$> blocks → allocated st !! a = None) ∧
  (∀ a, is_Some (allocated st1 !! a) ↔
        is_Some (allocated st !! a) ∨ a ∈ fst <$> blocks).
Proof.
  induction sizes as [|size sizes IH]; intros st blocks st1 Hinv Hall;
    cbn [allocate_all] in Hall.
  - injection Hall as <- <-. cbn. split; [done|]. split; [done|].
    split; [apply NoDup_nil_2|]. split.
    + intros a Ha. by apply elem_of_nil in Ha.
    + intros a. split; [auto|]. intros [?|Ha]; [done|]. by apply elem_of_nil in Ha.
  - destruct (allocate st size) as [[b|] st'| |] eqn:Hrun; try done.
    destruct (allocate_all st' sizes) as [[bs st'']|] eqn:Hrest; [|done].
    injection Hall as <- <-.
    destruct (allocate_inv _ _ _ _ Hinv Hrun)
      as (Hinv' & HT' & j & _ & _ & Hfresh & Hal).
    destruct (IH st' bs st'' Hinv' Hrest) as (Hinv1 & HT1 & Hnd & Hnew & Hdom).
    assert (∀ a, a ∈ fst <$> bs → a ≠ fst b) as Hne.
    { intros a Ha ->. apply Hnew in Ha. rewrite Hal, lookup_insert_eq in Ha. done. }
    split; [done|]. split; [lia|]. cbn [fmap list_fmap]. repeat split.
    + apply NoDup_cons. split; [|done]. intros Hin. by apply (Hne _ Hin).
    + intros a [->|Ha]%elem_of_cons; [done|].
      pose proof (Hnew a Ha) as Hnone. rewrite Hal in Hnone.
      rewrite lookup_insert_ne in Hnone; [done|]. intros Heq. by apply (Hne a).
    + intros Ha. apply Hdom in Ha as [Ha|Ha].
      * rewrite Hal, lookup_insert in Ha. case_decide as Heq.
        -- right. apply elem_of_cons. by left.
        -- by left.
      * right. apply elem_of_cons. by right.
    + intros [Ha|[->|Ha]%elem_of_cons]; apply Hdom.
      * left. rewrite Hal, lookup_insert. case_decide; [eauto|done].
      * left. rewrite Hal, lookup_insert_eq. eauto.
      * by right.
Qed.

Lemma deallocate_all_inv addresses : ∀ st,
  inv st → NoDup addresses →
  (∀ a, is_Some (allocated st !! a) ↔ a ∈ addresses) →
  ∃ st', deallocate_all st addresses = Some st' ∧ inv st' ∧
         allocated st' = ∅ ∧ total_memory st' = total_memory st.
Proof.
  induction addresses as [|a addresses IH]; intros st Hinv Hnd Hdom;
    cbn [deallocate_all].
  - exists st. split; [done|]. split; [done|]. split; [|done].
    apply map_empty. intros a. destruct (allocated st !! a) eqn:Ha; [|done].
    assert (a ∈ @nil Z) as Hin by (apply Hdom; rewrite Ha; eauto).
    by apply elem_of_nil in Hin.
  - apply NoDup_cons in Hnd as [Hnotin Hnd].
    destruct (proj2 (Hdom a) ltac:(left)) as [[r s] Ha].
    destruct (deallocate_block_inv st a r s Hinv Ha) as (st1 & -> & Hinv1 & Hal & HT1).
    destruct (IH st1 Hinv1 Hnd) as (st' & Hrun & Hinv' & Hempty & HT').
    + intros a'. rewrite Hal, lookup_delete. case_decide as Heq.
      * subst a'. split; [by intros [? ?]|done].
      * rewrite Hdom, elem_of_cons. split; [intros [?|?]; done|auto].
    + exists st'. rewrite HT', HT1. done.
Qed.

(** * [allocate] and the requested size *)

Lemma split_loop_allocated fuel : ∀ st L r st',
  split_loop fuel st L = Returns r st' →
  allocated st' = allocated st ∧ total_memory st' = total_memory st.
Proof.
  induction fuel as [|fuel IH]; intros st L r st'; cbn [split_loop]; [done|].
  destruct (L <=? total_memory st); [|by intros [= <- <-]].
  destruct (memory st !! L) as [[|d rest]|]; try apply IH.
  by intros [= <- <-].
Qed.

(** The requested size is only recorded: the block granted, and the free
    lists left, do not depend on it; the block granted is the head of the
    list at [bs] in the state [s0] that the splits produced. *)
Lemma allocate_loop_size size' fuel : ∀ st size bs,
  match allocate_loop fuel st size bs with
  | Returns (Some b) s1 =>
      ∃ s0 rest, memory s0 !! bs = Some (b :: rest) ∧
        allocated s0 = allocated st ∧ total_memory s0 = total_memory st ∧
        s1 = grant s0 size bs b rest ∧
        allocate_loop fuel st size' bs = Returns (Some b) (grant s0 size' bs b rest)
  | Returns None s1 => allocate_loop fuel st size' bs = Returns None s1
  | Raises e s1 => allocate_loop fuel st size' bs = Raises e s1
  | OutOfFuel => allocate_loop fuel st size' bs = OutOfFuel
  end.
Proof.
  induction fuel as [|fuel IH]; intros st size bs; cbn [allocate_loop]; [done|].
  destruct (bs <=? total_memory st); [|done].
  destruct (memory st !! bs) as [[|b rest]|] eqn:Hm.
  2:{ exists st, rest. done. }
  all: destruct (_split_block st bs) as [[|] st'| |] eqn:Hsplit; try done.
  all: apply split_loop_allocated in Hsplit as [Hal HT].
  all: specialize (IH st' size bs).
  all: destruct (allocate_loop fuel st' size bs) as [[b'|] s1| |]; try done.
  all: destruct IH as (s0 & rest' & ? & ? & ? & ? & ?).
  all: exists s0, rest'; repeat split; try done; congruence.
Qed.

(** The free lists after [split_at] on the class [bs * 2^(k+1)]. *)
Lemma split_at_classes st bs (k : nat) d rest :
  1 ≤ bs →
  bs * p2 (S k) / 2 = bs * p2 k ∧
  cls (split_at st (bs * p2 (S k)) d rest) (bs * p2 (S k)) = rest ∧
  cls (split_at st (bs * p2 (S k)) d rest) (bs * p2 k) =
    cls st (bs * p2 k) ++
    [(fst d, (fst d + snd d) / 2); ((fst d + snd d) / 2, snd d)] ∧
  (∀ s, s ≠ bs * p2 (S k) → s ≠ bs * p2 k →
        cls (split_at st (bs * p2 (S k)) d rest) s = cls st s).
Proof.
  intros Hbs. pose proof (p2_ge_1 k) as Hk1.
  assert (bs * p2 (S k) / 2 ≠ bs * p2 (S k)) as Hhalf
    by (rewrite chain_half, p2_S; nia).
  split; [apply chain_half|]. split; [|split].
  - rewrite cls_split_at by done. by rewrite decide_True.
  - rewrite cls_split_at by done. rewrite chain_half.
    rewrite decide_False by (intros H1; apply chain_inj in H1; lia).
    by rewrite decide_True.
  - intros s Hs1 Hs2. rewrite cls_split_at by done. rewrite chain_half.
    rewrite decide_False by done. by rewrite decide_False.
Qed.

(** * Allocators with the same free lists

    The code reads [memory] through [size in d and d[size]] and
    [d.get(size, [])] only, and writes it through [setdefault]: what it does
    depends on the free list of each size, not on which empty lists are
    keys. *)

Lemma similar_refl st : similar st st.
Proof. done. Qed.

Lemma similar_lookup st1 st2 s :
  similar st1 st2 →
  match memory st1 !! s, memory st2 !! s with
  | Some (b1 :: r1), Some (b2 :: r2) => b1 = b2 ∧ r1 = r2
  | Some (_ :: _), _ | _, Some (_ :: _) => False
  | _, _ => True
  end.
Proof.
  intros (_ & _ & Hcls). specialize (Hcls s). unfold cls, get_list in Hcls.
  destruct (memory st1 !! s) as [[|b1 r1]|], (memory st2 !! s) as [[|b2 r2]|];
    cbn in Hcls; try done.
  by injection Hcls as -> ->.
Qed.

Lemma similar_update st1 st2 (f : gmap Z (list block) → gmap Z (list block)) al :
  similar st1 st2 →
  (∀ m1 m2, (∀ s, get_list m1 s = get_list m2 s) →
            ∀ s, get_list (f m1) s = get_list (f m2) s) →
  similar (mkBuddySystem (total_memory st1) (f (memory st1)) al)
          (mkBuddySystem (total_memory st2) (f (memory st2)) al).
Proof.
  intros (HT & _ & Hcls) Hf. split; [done|]. split; [done|].
  intros s. unfold cls. cbn [memory]. by apply Hf.
Qed.

Lemma get_list_insert_ext (m1 m2 : gmap Z (list block)) k l :
  (∀ s, get_list m1 s = get_list m2 s) →
  ∀ s, get_list (<[k := l]> m1) s = get_list (<[k := l]> m2) s.
Proof. intros Hm s. rewrite !get_list_insert. case_decide; done. Qed.

Lemma get_list_append_at_ext (m1 m2 : gmap Z (list block)) k b :
  (∀ s, get_list m1 s = get_list m2 s) →
  ∀ s, get_list (append_at k b m1) s = get_list (append_at k b m2) s.
Proof.
  intros Hm s. rewrite !get_list_append_at. case_decide; [|done]. by rewrite Hm.
Qed.

Lemma similar_split_at st1 st2 L d rest :
  similar st1 st2 → similar (split_at st1 L d rest) (split_at st2 L d rest).
Proof.
  intros Hsim. pose proof Hsim as (_ & Hal & _).
  unfold split_at, with_memory. rewrite Hal.
  apply (similar_update st1 st2
           (λ m, append_at (L / 2) ((fst d + snd d) / 2, snd d)
                   (append_at (L / 2) (fst d, (fst d + snd d) / 2)
                      (<[L := rest]> m)))); [done|].
  intros m1 m2 Hm.
  by apply get_list_append_at_ext, get_list_append_at_ext, get_list_insert_ext.
Qed.

Lemma similar_grant st1 st2 size bs b rest :
  similar st1 st2 → similar (grant st1 size bs b rest) (grant st2 size bs b rest).
Proof.
  intros Hsim. pose proof Hsim as (_ & Hal & _). unfold grant. rewrite Hal.
  apply (similar_update st1 st2 (λ m, <[bs := rest]> m)); [done|].
  intros m1 m2 Hm. by apply get_list_insert_ext.
Qed.

Lemma similar_split_loop fuel : ∀ st1 st2 L,
  similar st1 st2 →
  similar_outcome (split_loop fuel st1 L) (split_loop fuel st2 L).
Proof.
  induction fuel as [|fuel IH]; intros st1 st2 L Hsim; cbn [split_loop]; [done|].
  pose proof Hsim as (HT & _ & _). rewrite HT.
  destruct (L <=? total_memory st2); [|done].
  pose proof (similar_lookup st1 st2 L Hsim) as Hlook.
  destruct (memory st1 !! L) as [[|b1 r1]|], (memory st2 !! L) as [[|b2 r2]|];
    try done; try by apply IH.
  destruct Hlook as [-> ->]. split; [done|]. by apply similar_split_at.
Qed.

Lemma similar_allocate_loop fuel : ∀ st1 st2 size bs,
  similar st1 st2 →
  similar_outcome (allocate_loop fuel st1 size bs) (allocate_loop fuel st2 size bs).
Proof.
  induction fuel as [|fuel IH]; intros st1 st2 size bs Hsim;
    cbn [allocate_loop]; [done|].
  pose proof Hsim as (HT & _ & _). rewrite HT.
  destruct (bs <=? total_memory st2); [|done].
  pose proof (similar_lookup st1 st2 bs Hsim) as Hlook.
  assert (similar_outcome (_split_block st1 bs) (_split_block st2 bs)) as Hsplit.
  { unfold _split_block, rounds. rewrite HT. by apply similar_split_loop. }
  assert (similar_outcome
            match _split_block st1 bs with
            | Returns true st' => allocate_loop fuel st' size bs
            | Returns false st' => Returns None st'
            | Raises e st' => Raises e st'
            | OutOfFuel => OutOfFuel
            end
            match _split_block st2 bs with
            | Returns true st' => allocate_loop fuel st' size bs
            | Returns false st' => Returns None st'
            | Raises e st' => Raises e st'
            | OutOfFuel => OutOfFuel
            end) as Hrest.
  { destruct (_split_block st1 bs) as [[|] s1|e1 s1|],
      (_split_block st2 bs) as [[|] s2|e2 s2|]; try done;
      destruct Hsplit as [? ?]; try done. by apply IH. }
  destruct (memory st1 !! bs) as [[|b1 r1]|], (memory st2 !! bs) as [[|b2 r2]|];
    try done.
  destruct Hlook as [-> ->]. split; [done|]. by apply similar_grant.
Qed.

Lemma similar_merge_buddies fuel : ∀ st1 st2 s b,
  similar st1 st2 →
  similar_outcome (_merge_buddies fuel st1 s b) (_merge_buddies fuel st2 s b).
Proof.
  induction fuel as [|fuel IH]; intros st1 st2 s b Hsim; [done|].
  rewrite !merge_buddies_S. pose proof Hsim as (HT & Hal & Hcls).
  pose proof (Hcls s) as Hs. unfold cls in Hs. rewrite Hs.
  destruct (decide (buddy_of s b ∈ get_list (memory st2) s)); [|done].
  destruct (list_remove (buddy_of s b) (get_list (memory st2) s)) as [l1|]; [|done].
  destruct (list_remove b l1) as [l2|].
  - apply IH. unfold merge_at, with_memory. rewrite Hal.
    apply (similar_update st1 st2
             (λ m, append_at (s * 2) (merged_of b (buddy_of s b))
                     (<[s := l2]> (<[s := l1]> m)))); [done|].
    intros m1 m2 Hm.
    by apply get_list_append_at_ext, get_list_insert_ext, get_list_insert_ext.
  - split; [done|]. unfold with_memory. rewrite Hal.
    apply (similar_update st1 st2 (λ m, <[s := l1]> m)); [done|].
    intros m1 m2 Hm. by apply get_list_insert_ext.
Qed.

Lemma similar_allocate st1 st2 n :
  similar st1 st2 → similar_outcome (allocate st1 n) (allocate st2 n).
Proof.
  intros Hsim. pose proof Hsim as (HT & _ & _). unfold allocate, rounds.
  rewrite HT. destruct (_find_nearest_power_of_two n); [|done].
  by apply similar_allocate_loop.
Qed.

Lemma similar_deallocate_block st1 st2 a :
  similar st1 st2 →
  similar_outcome (deallocate_block st1 a) (deallocate_block st2 a).
Proof.
  intros Hsim. pose proof Hsim as (HT & Hal & Hcls).
  unfold deallocate_block, deallocate. rewrite Hal.
  destruct (allocated st2 !! a) as [[r s]|]; [|done].
  assert (similar (release st1 (a, a + s)) (release st2 (a, a + s))) as Hrel.
  { unfold release. rewrite Hal.
    apply (similar_update st1 st2 (λ m, append_at (a + s - a) (a, a + s) m));
      [done|].
    intros m1 m2 Hm. by apply get_list_append_at_ext. }
  set (r1 := release st1 (a, a + s)) in *.
  set (r2 := release st2 (a, a + s)) in *.
  set (fuel := Nat.max (S (free_count r1)) (S (free_count r2))).
  rewrite (merge_buddies_budget fuel r1), (merge_buddies_budget fuel r2)
    by (apply merge_buddies_terminates; lia).
  pose proof (similar_merge_buddies fuel r1 r2
                (snd (a, a + s) - fst (a, a + s)) (a, a + s) Hrel) as Hm.
  destruct (_merge_buddies _ r1 _ _) as [u1 s1|[] s1|],
    (_merge_buddies _ r2 _ _) as [u2 s2|[] s2|]; try done;
    destruct Hm as [_ ?]; done.
Qed.

Lemma allocate_returns st n : ∃ r st', allocate st n = Returns r st'.
Proof.
  destruct (allocate_cases st n)
    as (j & _ & _ & _ & [[Hrun _]|(k & b & st' & _ & _ & _ & Hrun & _)]); eauto.
Qed.

Lemma deallocate_block_returns st a :
  ∃ m st', deallocate_block st a = Returns m st'.
Proof.
  unfold deallocate_block, deallocate.
  destruct (allocated st !! a) as [[r s]|]; [|eauto].
  pose proof (merge_buddies_terminates
                (S (free_count (release st (a, a + s))))
                (release st (a, a + s))
                (snd (a, a + s) - fst (a, a + s)) (a, a + s)
                (Nat.lt_succ_diag_r _)) as Hend.
  destruct (_merge_buddies _ _ _ _) as [u st'|[] st'|]; [eauto|eauto|done].
Qed.

Lemma similar_outcome_returns {A} (o1 o2 : outcome A) r st1' :
  similar_outcome o1 o2 → o1 = Returns r st1' →
  ∃ st2', o2 = Returns r st2' ∧ similar st1' st2'.
Proof.
  intros Hsim ->. destruct o2 as [r2 st2'| |]; try done.
  destruct Hsim as [-> ?]. eauto.
Qed.

(** * The properties of the specification *)

(** ** C6: rounding *)

(** C6.  For every integer [n ≥ 1], [_find_nearest_power_of_two n] returns a
    value [p] that is a power of two, is at least [n], and whose half is
    below [n]; it is the smallest power of two that is at least [n]. *)
Theorem find_nearest_power_of_two_correct n :
  1 ≤ n →
  ∃ p, _find_nearest_power_of_two n = Some p ∧
       pow2 p ∧ n ≤ p ∧ p / 2 < n ∧ p < 2 * n ∧
       ∀ q, pow2 q → n ≤ q → p ≤ q.
Proof.
  intros Hn. destruct (find_nearest_spec n) as (j & Hfind & Hge & Htight).
  exists (p2 j). split; [done|]. split; [by exists j|]. split; [done|].
  destruct j as [|j].
  - rewrite p2_0. change (1 / 2) with 0. split; [lia|]. split; [lia|].
    intros q [i ->] _. apply p2_ge_1.
  - pose proof (p2_pos j) as Hpos. rewrite p2_S in Htight.
    assert (p2 j < n) as Hhalf by lia.
    rewrite p2_S. replace (2 * p2 j) with (p2 j * 2) by lia.
    rewrite Z.div_mul by lia. split; [done|]. split; [lia|].
    intros q [i ->] Hq.
    assert (j < i)%nat as Hji by (apply p2_lt_inv; lia).
    replace (p2 j * 2) with (p2 (S j)) by (rewrite p2_S; lia).
    apply p2_le_mono. lia.
Qed.

Lemma find_nearest_power_of_two_correct_witness :
  1 ≤ 20 ∧
  ∃ p, _find_nearest_power_of_two 20 = Some p ∧
       pow2 p ∧ 20 ≤ p ∧ p / 2 < 20 ∧ p < 2 * 20 ∧
       ∀ q, pow2 q → 20 ≤ q → p ≤ q.
Proof.
  split; [lia|]. apply (find_nearest_power_of_two_correct 20). lia.
Defined.

(** ** C1: the partition invariant *)

(** C1.  For an allocator created with a power-of-two total capacity, every
    sequence of [allocate] and [deallocate_block] requests runs to
    completion, and afterwards the blocks of the free lists (of all size
    classes) together with the allocated blocks partition [0, total): no
    address lies in two of them and every address lies in one.  The sequence
    being arbitrary, this is the state between any two operations. *)
Theorem partition_invariant total rs :
  pow2 total →
  ∃ st, run (__init__ total) rs = Some st ∧
        total_memory st = total ∧ partitions st.
Proof.
  intros Hpow.
  destruct (run_inv rs (__init__ total) (inv_init total Hpow))
    as (st & Hrun & [Hwf _] & HT).
  exists st. split; [done|]. split; [done|]. by apply wf_partitions.
Qed.

Lemma partition_invariant_witness :
  pow2 1024 ∧
  ∃ st, run (__init__ 1024) [Allocate 100; Allocate 512; Deallocate 0; Allocate 0]
        = Some st ∧
        total_memory st = 1024 ∧ partitions st.
Proof.
  assert (pow2 1024) as Hpow by (exists 10%nat; reflexivity).
  split; [exact Hpow|].
  apply (partition_invariant 1024
           [Allocate 100; Allocate 512; Deallocate 0; Allocate 0] Hpow).
Defined.

(** ** C8: alignment *)

(** C8.  In every state reachable from an allocator created with a
    power-of-two total capacity: a block returned by a successful [allocate]
    has the rounded size and a start address that is a multiple of it; every
    block of a free list has the size of its class, a power of two, and a
    start that is a multiple of it; and so has every allocated block. *)
Theorem alignment_invariant total st :
  pow2 total → reachable total st →
  (∀ n b st', allocate st n = Returns (Some b) st' →
     ∃ bs, _find_nearest_power_of_two n = Some bs ∧
           snd b = fst b + bs ∧ fst b mod bs = 0 ∧
           allocated st' !! fst b = Some (n, bs)) ∧
  (∀ s l b, memory st !! s = Some l → b ∈ l →
     pow2 s ∧ snd b = fst b + s ∧ fst b mod s = 0) ∧
  (∀ a r s, allocated st !! a = Some (r, s) → pow2 s ∧ a mod s = 0).
Proof.
  intros Hpow Hreach. destruct (reachable_inv total st Hpow Hreach) as [Hinv HT].
  assert (∀ st0 b s, wf st0 → is_block st0 b → snd b = fst b + s →
                     pow2 s ∧ fst b mod s = 0) as Hmod.
  { intros st0 b s Hwf Hb Hsz.
    destruct (proj1 (wf_tiling _ Hwf) b Hb) as (j & Hj & Hdiv & _).
    assert (s = p2 j) as -> by lia. pose proof (p2_pos j).
    split; [by exists j|]. apply Z.mod_divide; [lia|done]. }
  split; [|split].
  - intros n b st' Hrun.
    destruct (allocate_inv _ _ _ _ Hinv Hrun) as ([Hwf' _] & _ & j & Hfind & Hsz & _ & Hal).
    exists (p2 j). split; [done|]. split; [done|].
    assert (allocated st' !! fst b = Some (n, p2 j)) as Hlook
      by (rewrite Hal; apply lookup_insert_eq).
    split; [|done]. apply (Hmod st' b (p2 j) Hwf'); [|done].
    right. exists n, (p2 j). done.
  - intros s l b Hl Hb. destruct Hinv as [Hwf _].
    assert (b ∈ cls st s) as Hcls by (unfold cls; by rewrite (get_list_Some _ _ _ Hl)).
    pose proof (wf_key _ Hwf _ _ Hcls) as Hkey.
    destruct (Hmod st b s Hwf) as [? ?]; [left; by exists s|done|done].
  - intros a r s Ha. destruct Hinv as [Hwf _].
    apply (Hmod st (a, a + s) s Hwf); [|done]. right. exists r, s. done.
Qed.

Lemma alignment_invariant_witness :
  pow2 1024 ∧ reachable 1024 (__init__ 1024) ∧
  ∀ n b st', allocate (__init__ 1024) n = Returns (Some b) st' →
     ∃ bs, _find_nearest_power_of_two n = Some bs ∧
           snd b = fst b + bs ∧ fst b mod bs = 0 ∧
           allocated st' !! fst b = Some (n, bs).
Proof.
  assert (pow2 1024) as Hpow by (exists 10%nat; reflexivity).
  split; [exact Hpow|]. split; [apply reachable_init|].
  apply (alignment_invariant 1024 (__init__ 1024) Hpow (reachable_init 1024)).
Defined.

(** ** C2: deallocating an address that is not allocated *)

(** C2.  For every allocator state and every address that is not a key of
    [allocated], the deallocation of that address, [deallocate_block], fails
    (the warning "Invalid address or block not allocated") and leaves the
    allocator, hence both tables, unchanged. *)
Theorem deallocate_unknown_address st address :
  allocated st !! address = None →
  deallocate_block st address = Returns Failure st.
Proof. intros Hnone. unfold deallocate_block. rewrite Hnone. reflexivity. Qed.

Lemma deallocate_unknown_address_witness :
  allocated (__init__ 1024) !! 512 = None ∧
  deallocate_block (__init__ 1024) 512 = Returns Failure (__init__ 1024).
Proof.
  split; [reflexivity|].
  apply (deallocate_unknown_address (__init__ 1024) 512). reflexivity.
Defined.

(** An address that has just been deallocated is unknown again. *)
Lemma deallocate_twice total st address st' :
  pow2 total → reachable total st →
  deallocate_block st address = Returns Success st' →
  deallocate_block st' address = Returns Failure st'.
Proof.
  intros Hpow Hreach Hrun.
  destruct (reachable_inv total st Hpow Hreach) as [Hinv _].
  destruct (allocated st !! address) as [[r s]|] eqn:Ha.
  - destruct (deallocate_block_inv st address r s Hinv Ha) as (st1 & Hrun1 & _ & Hal & _).
    rewrite Hrun1 in Hrun. injection Hrun as <-.
    unfold deallocate_block. rewrite Hal, lookup_delete_eq. done.
  - unfold deallocate_block in Hrun. rewrite Ha in Hrun. done.
Qed.

(** The method [BuddySystem.deallocate] itself takes a block and looks
    nothing up: called on a block that is not allocated it appends it to the
    free list all the same.  The check that C2 is about is the one of its
    caller [deallocate_block]. *)
Remark deallocate_is_unchecked :
  match deallocate (__init__ 1024) (0, 512) with
  | Returns _ st' => cls st' 512 = [(0, 512)] ∧ cls st' 1024 = [(0, 1024)]
  | _ => False
  end.
Proof. vm_compute. split; reflexivity. Qed.

(** ** C9: a failing [allocate] changes nothing *)

(** C9.  For every allocator state and every requested size, if [allocate]
    fails (returns [None]) then the allocator, hence both tables, is exactly
    as before the call: no split has been performed. *)
Theorem allocate_failure_unchanged st n st' :
  allocate st n = Returns None st' → st' = st.
Proof.
  intros Hrun.
  destruct (allocate_cases st n)
    as (j & _ & _ & _ & [[Hnone _]|(k & b & st1 & _ & _ & _ & Hsome & _)]).
  - rewrite Hnone in Hrun. by injection Hrun as <-.
  - rewrite Hsome in Hrun. done.
Qed.

Lemma allocate_failure_unchanged_witness :
  allocate (grant (__init__ 16) 16 16 (0, 16) []) 1
  = Returns None (grant (__init__ 16) 16 16 (0, 16) []) ∧
  grant (__init__ 16) 16 16 (0, 16) [] = grant (__init__ 16) 16 16 (0, 16) [].
Proof.
  assert (allocate (grant (__init__ 16) 16 16 (0, 16) []) 1
          = Returns None (grant (__init__ 16) 16 16 (0, 16) [])) as Hrun
    by (vm_compute; reflexivity).
  split; [exact Hrun|].
  apply (allocate_failure_unchanged _ 1 _ Hrun).
Defined.

(** ** C7: when [allocate] fails *)

(** In a well-formed state the size classes that hold a block are powers of
    two, so that the classes [bs * 2^i] scanned by the code are all the
    classes from [bs] to the total capacity that can hold one. *)
Lemma chain_all_sizes st (j : nat) :
  wf st →
  (∀ i : nat, p2 j * p2 i ≤ total_memory st → cls st (p2 j * p2 i) = []) ↔
  (∀ s, p2 j ≤ s ≤ total_memory st → cls st s = []).
Proof.
  intros Hwf. split.
  - intros Hchain s Hs. apply elem_of_nil_inv. intros b Hb.
    destruct (wf_free_aligned st s b Hwf Hb) as [(i & Hi & _) Hkey].
    assert (s = p2 i) as -> by lia.
    assert (j ≤ i)%nat as Hji by (apply p2_le_inv; lia).
    assert (p2 i = p2 j * p2 (i - j)) as Heq
      by (rewrite <- p2_add; f_equal; lia).
    rewrite Heq in Hb, Hs. rewrite Hchain in Hb by lia.
    by apply elem_of_nil in Hb.
  - intros Hall i Hi. apply Hall. pose proof (p2_ge_1 i). pose proof (p2_ge_1 j).
    nia.
Qed.

(** C7.  For every allocator state and every requested size [n ≥ 1],
    [allocate] returns (a block or [None]), and it fails, returning [None],
    exactly when the rounded size [bs] exceeds the total capacity, or the
    free list at [bs] is empty and so is the free list of every larger size
    [bs * 2^i] up to the total capacity, the sizes at which a donor is looked
    for.  In a well-formed state these are all the sizes from [bs] to the
    total capacity that can hold a block. *)
Theorem allocate_out_of_memory_iff st n :
  1 ≤ n →
  ∃ bs, _find_nearest_power_of_two n = Some bs ∧
    (∃ r st', allocate st n = Returns r st') ∧
    ((∃ st', allocate st n = Returns None st') ↔
       total_memory st < bs ∨
       (cls st bs = [] ∧
        ∀ i : nat, (1 ≤ i)%nat → bs * p2 i ≤ total_memory st →
                   cls st (bs * p2 i) = [])) ∧
    (wf st →
     ((∃ st', allocate st n = Returns None st') ↔
        total_memory st < bs ∨
        ∀ s, bs ≤ s ≤ total_memory st → cls st s = [])).
Proof.
  intros Hn.
  destruct (allocate_cases st n) as (j & Hfind & _ & _ & Hcases).
  exists (p2 j). split; [done|]. pose proof (p2_ge_1 j) as Hbs.
  assert ((∃ st', allocate st n = Returns None st') ↔
          ∀ i : nat, p2 j * p2 i ≤ total_memory st → cls st (p2 j * p2 i) = [])
    as Hiff.
  { destruct Hcases as [[Hnone Hall]|(k & b & st1 & Hk & _ & Hne & Hsome & _)].
    - split; [done|]. intros _. by exists st.
    - split.
      + intros [st' Hrun]. rewrite Hsome in Hrun. done.
      + intros Hall. exfalso. by apply Hne, Hall. }
  split; [|split].
  - destruct Hcases as [[Hnone _]|(k & b & st1 & _ & _ & _ & Hsome & _)]; eauto.
  - rewrite Hiff. split.
    + intros Hall.
      destruct (decide (p2 j ≤ total_memory st)) as [Hle|Hgt]; [|left; lia].
      right. split.
      * specialize (Hall 0%nat). rewrite p2_0, Z.mul_1_r in Hall. by apply Hall.
      * intros i _ Hi. by apply Hall.
    + intros [HT|[H0 Hchain]] i Hi.
      * pose proof (p2_ge_1 i). nia.
      * destruct i as [|i]; [by rewrite p2_0, Z.mul_1_r|].
        apply Hchain; [lia|done].
  - intros Hwf. rewrite Hiff, (chain_all_sizes st j Hwf). split; [auto|].
    intros [HT|Hall]; [|done]. intros s Hs. lia.
Qed.

Lemma allocate_out_of_memory_iff_witness :
  1 ≤ 20 ∧
  ∃ bs, _find_nearest_power_of_two 20 = Some bs ∧
    (∃ r st', allocate (__init__ 16) 20 = Returns r st') ∧
    ((∃ st', allocate (__init__ 16) 20 = Returns None st') ↔
       total_memory (__init__ 16) < bs ∨
       (cls (__init__ 16) bs = [] ∧
        ∀ i : nat, (1 ≤ i)%nat → bs * p2 i ≤ total_memory (__init__ 16) →
                   cls (__init__ 16) (bs * p2 i) = [])) ∧
    (wf (__init__ 16) →
     ((∃ st', allocate (__init__ 16) 20 = Returns None st') ↔
        total_memory (__init__ 16) < bs ∨
        ∀ s, bs ≤ s ≤ total_memory (__init__ 16) → cls (__init__ 16) s = [])).
Proof.
  split; [lia|]. apply (allocate_out_of_memory_iff (__init__ 16) 20). lia.
Defined.

(** The example of C7: with a total capacity of 16, [allocate 20] fails,
    the rounded size 32 being above the capacity. *)
Example allocate_20_of_16 :
  _find_nearest_power_of_two 20 = Some 32 ∧
  allocate (__init__ 16) 20 = Returns None (__init__ 16).
Proof. split; vm_compute; reflexivity. Qed.

(** ** C4: where a split puts the halves *)

(** C4 as stated fails: on a fresh allocator of 1024 units, the split asked
    for by a request of block size 128 finds its donor at 1024 and puts the
    halves in the class 512; the class 128 stays empty. *)
Lemma split_not_at_block_size :
  match _split_block (__init__ 1024) 128 with
  | Returns true st' =>
      cls st' 128 = [] ∧ cls st' 256 = [] ∧
      cls st' 512 = [(0, 512); (512, 1024)] ∧ cls st' 1024 = []
  | _ => False
  end.
Proof. vm_compute. repeat split; reflexivity. Qed.

(** C4, amended.  When the classes [bs * 2^i] for [1 ≤ i ≤ k] are empty and
    the class [d = bs * 2^(k+1)], within the total capacity, holds
    [donor :: rest], a single [_split_block st bs] removes [donor], the head
    of that list, and appends its lower and upper halves to the class
    [d / 2 = bs * 2^k], one size class below the donor, whatever the distance
    from [bs]; no other class changes.  The halves reach the class [bs] in
    one split only when [k = 0]. *)
Theorem split_block_halves st bs (k : nat) donor rest :
  1 ≤ bs →
  (∀ i : nat, (1 ≤ i ≤ k)%nat → cls st (bs * p2 i) = []) →
  bs * p2 (S k) ≤ total_memory st →
  memory st !! (bs * p2 (S k)) = Some (donor :: rest) →
  ∃ st', _split_block st bs = Returns true st' ∧
    bs * p2 (S k) / 2 = bs * p2 k ∧
    cls st' (bs * p2 (S k)) = rest ∧
    cls st' (bs * p2 k) =
      cls st (bs * p2 k) ++
      [(fst donor, (fst donor + snd donor) / 2);
       ((fst donor + snd donor) / 2, snd donor)] ∧
    (∀ s, s ≠ bs * p2 (S k) → s ≠ bs * p2 k → cls st' s = cls st s) ∧
    allocated st' = allocated st ∧ total_memory st' = total_memory st.
Proof.
  intros Hbs Hlow Hle Hd.
  destruct (split_block_spec st bs Hbs)
    as [[_ Hall]|(k0 & d & rest0 & Hk0 & Hlow0 & Hd0 & Hrun)].
  { specialize (Hall (S k) ltac:(lia) Hle). unfold cls in Hall.
    rewrite (get_list_Some _ _ _ Hd) in Hall. done. }
  assert (k0 = k) as ->.
  { destruct (Nat.lt_trichotomy k0 k) as [Hlt|[?|Hgt]]; [|done|].
    - specialize (Hlow (S k0) ltac:(lia)). unfold cls in Hlow.
      rewrite (get_list_Some _ _ _ Hd0) in Hlow. done.
    - specialize (Hlow0 (S k) ltac:(lia)). unfold cls in Hlow0.
      rewrite (get_list_Some _ _ _ Hd) in Hlow0. done. }
  rewrite Hd in Hd0. injection Hd0 as <- <-.
  destruct (split_at_classes st bs k donor rest Hbs)
    as (Hhalf & Hrest & Hhalves & Hother).
  exists (split_at st (bs * p2 (S k)) donor rest). done.
Qed.

Lemma split_block_halves_witness :
  ∃ st', _split_block (__init__ 1024) 128 = Returns true st' ∧
    128 * p2 3 / 2 = 128 * p2 2 ∧
    cls st' (128 * p2 3) = [] ∧
    cls st' (128 * p2 2) =
      cls (__init__ 1024) (128 * p2 2) ++
      [(fst (0, 1024), (fst (0, 1024) + snd (0, 1024)) / 2);
       ((fst (0, 1024) + snd (0, 1024)) / 2, snd (0, 1024))] ∧
    (∀ s, s ≠ 128 * p2 3 → s ≠ 128 * p2 2 → cls st' s = cls (__init__ 1024) s) ∧
    allocated st' = allocated (__init__ 1024) ∧
    total_memory st' = total_memory (__init__ 1024).
Proof.
  apply (split_block_halves (__init__ 1024) 128 2 (0, 1024) []).
  - lia.
  - intros i Hi. rewrite cls_init. apply decide_False.
    assert (i = 1 ∨ i = 2)%nat as [-> | ->] by lia; vm_compute; discriminate.
  - vm_compute. discriminate.
  - reflexivity.
Defined.

(** ** C10: first-in first-out selection, determinism *)





(** ** C3: requests of a non-positive size *)

(** C3 as stated fails: on a fresh allocator of 1024 units, [allocate 0]
    raises nothing and grants the one-unit block [0, 1), recorded with the
    requested size 0. *)
Lemma allocate_zero_granted :
  match allocate (__init__ 1024) 0 with
  | Returns (Some b) st' => b = (0, 1) ∧ allocated st' !! 0 = Some (0, 1)
  | _ => False
  end.
Proof. vm_compute. split; reflexivity. Qed.

(** C3, amended.  For every requested size [n ≤ 0] and every allocator
    state, [allocate n] has no invalid-size outcome: the size is rounded to 1
    and the request is served as [allocate 1] is, with the same block granted
    or the same failure and the same free lists left; a granted block is
    recorded with the requested size [n] and the block size 1. *)
Theorem allocate_nonpositive_as_one st n :
  n ≤ 0 →
  _find_nearest_power_of_two n = Some 1 ∧
  ∃ r st1 stn,
    allocate st 1 = Returns r st1 ∧ allocate st n = Returns r stn ∧
    memory stn = memory st1 ∧ total_memory stn = total_memory st1 ∧
    match r with
    | Some b => allocated stn !! fst b = Some (n, 1)
    | None => stn = st
    end.
Proof.
  intros Hn.
  destruct (allocate_cases st n) as (j & Hfind & _ & Htight & Hcases).
  assert (p2 j = 1) as Hone by (pose proof (p2_pos j); lia).
  rewrite Hone in Hfind. split; [done|].
  assert (_find_nearest_power_of_two 1 = Some 1) as Hfind1 by reflexivity.
  unfold allocate in *. rewrite Hfind in *. rewrite Hfind1.
  pose proof (allocate_loop_size 1 (rounds st) st n 1) as Hloop.
  destruct Hcases as [[Hnone _]|(k & b & st' & _ & _ & _ & Hsome & _)].
  - rewrite Hnone in Hloop. exists None, st, st. done.
  - rewrite Hsome in Hloop.
    destruct Hloop as (s0 & rest & Hm & _ & _ & -> & Hrun1).
    exists (Some b), (grant s0 1 1 b rest), (grant s0 n 1 b rest).
    repeat split; try done. unfold grant. cbn [allocated].
    apply lookup_insert_eq.
Qed.

Lemma allocate_nonpositive_as_one_witness :
  -3 ≤ 0 ∧
  _find_nearest_power_of_two (-3) = Some 1 ∧
  ∃ r st1 stn,
    allocate (__init__ 1024) 1 = Returns r st1 ∧
    allocate (__init__ 1024) (-3) = Returns r stn ∧
    memory stn = memory st1 ∧ total_memory stn = total_memory st1 ∧
    match r with
    | Some b => allocated stn !! fst b = Some (-3, 1)
    | None => stn = __init__ 1024
    end.
Proof.
  split; [lia|]. apply (allocate_nonpositive_as_one (__init__ 1024) (-3)). lia.
Defined.

(** ** C5: allocating, then deallocating everything *)

(** C5 as stated fails: after [allocate 512] and the deallocation of the
    block on a fresh allocator of 1024 units, the free table is not the
    one-entry dictionary of the start: the size class 512 that the split
    created is still a key, with the empty list. *)
Lemma roundtrip_keeps_empty_class :
  match allocate_all (__init__ 1024) [512] with
  | Some (blocks, st1) =>
      match deallocate_all st1 (fst <$> blocks) with
      | Some st2 =>
          memory st2 ≠ {[ 1024 := [(0, 1024)] ]} ∧
          memory st2 !! 512 = Some [] ∧
          memory st2 !! 1024 = Some [(0, 1024)]
      | None => False
      end
  | None => False
  end.
Proof.
  vm_compute. split; [|split; reflexivity].
  intros Heq. discriminate Heq.
Qed.

(** C5, amended.  For an allocator created with a power-of-two total
    capacity, every sequence of successful allocations and every permutation
    of the granted blocks as a deallocation order: after the allocations and
    then the deallocations in that order, [allocated] is empty and the only
    free block is [0, total), the single element of the class [total]; every
    other size class is absent or holds the empty list. *)
Theorem roundtrip_restores total sizes blocks st1 order :
  pow2 total →
  allocate_all (__init__ total) sizes = Some (blocks, st1) →
  order ≡ₚ blocks →
  ∃ st2, deallocate_all st1 (fst <$> order) = Some st2 ∧
    allocated st2 = ∅ ∧
    memory st2 !! total = Some [(0, total)] ∧
    (∀ s, s ≠ total → memory st2 !! s = None ∨ memory st2 !! s = Some []) ∧
    total_memory st2 = total.
Proof.
  intros Hpow Hall Hperm.
  destruct (allocate_all_inv sizes (__init__ total) blocks st1
              (inv_init total Hpow) Hall) as (Hinv1 & HT1 & Hnd & _ & Hdom).
  assert (fst <$> order ≡ₚ fst <$> blocks) as Hperm' by (by rewrite Hperm).
  destruct (deallocate_all_inv (fst <$> order) st1 Hinv1)
    as (st2 & Hrun & Hinv2 & Hempty & HT2).
  - by rewrite Hperm'.
  - intros a. rewrite Hdom, Hperm'. cbn [allocated __init__].
    rewrite lookup_empty. split; [intros [[? ?]|?]; done|auto].
  - exists st2. split; [done|]. split; [done|].
    destruct (all_free_single st2 Hinv2 Hempty) as [Hwhole Hrest].
    assert (total_memory st2 = total) as HT by (rewrite HT2, HT1; done).
    rewrite HT in *. split; [done|]. split; [|done].
    intros s Hs. apply get_list_nil, Hrest, Hs.
Qed.

Lemma roundtrip_restores_witness :
  pow2 1024 ∧
  allocate_all (__init__ 1024) [512; 512]
  = Some ([(0, 512); (512, 1024)],
          grant (grant (split_at (__init__ 1024) 1024 (0, 1024) [])
                   512 512 (0, 512) [(512, 1024)])
            512 512 (512, 1024) []) ∧
  [(512, 1024); (0, 512)] ≡ₚ [(0, 512); (512, 1024)] ∧
  ∃ st2,
    deallocate_all
      (grant (grant (split_at (__init__ 1024) 1024 (0, 1024) [])
                512 512 (0, 512) [(512, 1024)])
         512 512 (512, 1024) [])
      (fst <$> [(512, 1024); (0, 512)]) = Some st2 ∧
    allocated st2 = ∅ ∧
    memory st2 !! 1024 = Some [(0, 1024)] ∧
    (∀ s, s ≠ 1024 → memory st2 !! s = None ∨ memory st2 !! s = Some []) ∧
    total_memory st2 = 1024.
Proof.
  assert (pow2 1024) as Hpow by (exists 10%nat; reflexivity).
  assert (allocate_all (__init__ 1024) [512; 512]
          = Some ([(0, 512); (512, 1024)],
                  grant (grant (split_at (__init__ 1024) 1024 (0, 1024) [])
                           512 512 (0, 512) [(512, 1024)])
                    512 512 (512, 1024) [])) as Hall
    by (vm_compute; reflexivity).
  assert ([(512, 1024); (0, 512)] ≡ₚ [(0, 512); (512, 1024)]) as Hperm
    by apply perm_swap.
  split; [exact Hpow|]. split; [exact Hall|]. split; [exact Hperm|].
  apply (roundtrip_restores 1024 [512; 512] _ _ _ Hpow Hall Hperm).
Defined.

(** * Further properties of the code *)

(** ** Rounding *)

Lemma find_nearest_p2 j : _find_nearest_power_of_two (p2 j) = Some (p2 j).
Proof.
  destruct (find_nearest_spec (p2 j)) as (i & Hfind & Hge & Htight).
  rewrite Hfind. do 2 f_equal. apply Nat.le_antisymm.
  - destruct Htight as [Hone|Hlt].
    + assert (i = 0)%nat as -> by (apply p2_inj; by rewrite p2_0). lia.
    + rewrite <- p2_S in Hlt. apply p2_lt_inv in Hlt. lia.
  - by apply p2_le_inv.
Qed.

(** A size that is a power of two is not rounded up, and rounding twice is
    rounding once; this holds for every integer, the non-positive ones being
    rounded to 1. *)
Theorem find_nearest_idempotent n :
  (∀ j : nat, _find_nearest_power_of_two (p2 j) = Some (p2 j)) ∧
  ∃ p, _find_nearest_power_of_two n = Some p ∧
       _find_nearest_power_of_two p = Some p ∧ 1 ≤ p.
Proof.
  split; [apply find_nearest_p2|].
  destruct (find_nearest_spec n) as (j & Hfind & _).
  exists (p2 j). split; [done|]. split; [apply find_nearest_p2|apply p2_ge_1].
Qed.

(** Rounding is monotone. *)
Theorem find_nearest_monotone n m :
  n ≤ m →
  ∃ p q, _find_nearest_power_of_two n = Some p ∧
         _find_nearest_power_of_two m = Some q ∧ p ≤ q.
Proof.
  intros Hnm.
  destruct (find_nearest_spec n) as (j & Hn & _ & Htight).
  destruct (find_nearest_spec m) as (i & Hm & Hge & _).
  exists (p2 j), (p2 i). split; [done|]. split; [done|].
  destruct Htight as [-> |Hlt]; [apply p2_ge_1|].
  apply p2_le_mono. assert (p2 j < p2 (S i)) as H by (rewrite p2_S; lia).
  apply p2_lt_inv in H. lia.
Qed.

Lemma find_nearest_monotone_witness :
  100 ≤ 129 ∧
  ∃ p q, _find_nearest_power_of_two 100 = Some p ∧
         _find_nearest_power_of_two 129 = Some q ∧ p ≤ q.
Proof. split; [lia|]. apply (find_nearest_monotone 100 129). lia. Defined.

(** ** [_split_block] on its own *)

(** For a size of at least 1, [_split_block] returns in every state; it
    never touches [allocated] nor [total_memory]; it returns [False] exactly
    when every class [size * 2^i], [i ≥ 1], within the total is empty, and
    then it has changed nothing. *)
Theorem split_block_returns st size :
  1 ≤ size →
  ∃ r st', _split_block st size = Returns r st' ∧
    allocated st' = allocated st ∧ total_memory st' = total_memory st ∧
    (r = false → st' = st) ∧
    (r = false ↔
     ∀ i : nat, (1 ≤ i)%nat → size * p2 i ≤ total_memory st →
                cls st (size * p2 i) = []).
Proof.
  intros Hsize.
  destruct (split_block_spec st size Hsize)
    as [[Hrun Hall]|(k & d & rest & Hk & Hlow & Hd & Hrun)].
  - exists false, st. repeat split; done.
  - exists true, (split_at st (size * p2 (S k)) d rest).
    split; [done|]. split; [done|]. split; [done|]. split; [done|].
    split; [done|]. intros Hall. specialize (Hall (S k) ltac:(lia) Hk).
    unfold cls in Hall. rewrite (get_list_Some _ _ _ Hd) in Hall. done.
Qed.

Lemma split_block_returns_witness :
  1 ≤ 4 ∧
  ∃ r st', _split_block (__init__ 16) 4 = Returns r st' ∧
    allocated st' = allocated (__init__ 16) ∧
    total_memory st' = total_memory (__init__ 16) ∧
    (r = false → st' = __init__ 16) ∧
    (r = false ↔
     ∀ i : nat, (1 ≤ i)%nat → 4 * p2 i ≤ total_memory (__init__ 16) →
                cls (__init__ 16) (4 * p2 i) = []).
Proof. split; [lia|]. apply (split_block_returns (__init__ 16) 4). lia. Defined.

(** For a size of at most 0 whose double is within the total, and with no
    free block at the sizes it visits, the loop of [_split_block] never
    ends: no iteration budget lets it return.  ([allocate] only calls it with
    a rounded size, which is at least 1.) *)
Theorem split_block_nonpositive_diverges fuel st size :
  size ≤ 0 → size * 2 ≤ total_memory st →
  (∀ i : nat, cls st (size * p2 i) = []) →
  split_loop fuel st (size * 2) = OutOfFuel.
Proof.
  intros Hsize Hle Hempty.
  assert (∀ i : nat, split_loop fuel st (size * p2 (S i)) = OutOfFuel) as Hloop.
  { induction fuel as [|fuel IH]; intros i; cbn [split_loop]; [done|].
    pose proof (p2_ge_1 i) as Hi.
    assert (size * p2 (S i) ≤ size * 2) as Hdown by (rewrite p2_S; nia).
    destruct (Z.leb_spec (size * p2 (S i)) (total_memory st)); [|lia].
    specialize (Hempty (S i)). apply get_list_nil in Hempty.
    replace (size * p2 (S i) * 2) with (size * p2 (S (S i)))
      by (rewrite (p2_S (S i)); lia).
    destruct Hempty as [-> | ->]; apply IH. }
  specialize (Hloop 0%nat). rewrite p2_S, p2_0 in Hloop.
  by replace (size * (2 * 1)) with (size * 2) in Hloop by lia.
Qed.

Lemma split_block_nonpositive_diverges_witness :
  0 ≤ 0 ∧ 0 * 2 ≤ total_memory (__init__ 16) ∧
  (∀ i : nat, cls (__init__ 16) (0 * p2 i) = []) ∧
  split_loop 1000 (__init__ 16) (0 * 2) = OutOfFuel.
Proof.
  assert (∀ i : nat, cls (__init__ 16) (0 * p2 i) = []) as Hempty
    by (intros i; reflexivity).
  split; [lia|]. split; [cbn; lia|]. split; [exact Hempty|].
  apply (split_block_nonpositive_diverges 1000 (__init__ 16) 0);
    [lia|cbn; lia|exact Hempty].
Defined.

(** ** What [allocate] does to the tables *)

(** In every state, a successful [allocate] changes [allocated] only by
    binding the start of the granted block to the pair of the requested size
    and the rounded size; [total_memory] is not changed. *)
Theorem allocate_records st n b st' :
  allocate st n = Returns (Some b) st' →
  ∃ bs, _find_nearest_power_of_two n = Some bs ∧
        allocated st' = <[fst b := (n, bs)]> (allocated st) ∧
        total_memory st' = total_memory st.
Proof.
  unfold allocate. destruct (_find_nearest_power_of_two n) as [bs|]; [|done].
  intros Hrun. pose proof (allocate_loop_size n (rounds st) st n bs) as Hloop.
  rewrite Hrun in Hloop. destruct Hloop as (s0 & rest & _ & Hal & HT & -> & _).
  exists bs. split; [done|]. unfold grant. cbn [allocated total_memory].
  by rewrite Hal, HT.
Qed.

Lemma allocate_records_witness :
  allocate (__init__ 1024) 100
  = Returns (Some (0, 128))
      (grant (split_at (split_at (split_at (__init__ 1024) 1024 (0, 1024) [])
                          512 (0, 512) [(512, 1024)])
                256 (0, 256) [(256, 512)])
         100 128 (0, 128) [(128, 256)]) ∧
  ∃ bs, _find_nearest_power_of_two 100 = Some bs ∧
        allocated
          (grant (split_at (split_at (split_at (__init__ 1024) 1024 (0, 1024) [])
                              512 (0, 512) [(512, 1024)])
                    256 (0, 256) [(256, 512)])
             100 128 (0, 128) [(128, 256)])
        = <[fst (0, 128) := (100, bs)]> (allocated (__init__ 1024)) ∧
        total_memory
          (grant (split_at (split_at (split_at (__init__ 1024) 1024 (0, 1024) [])
                              512 (0, 512) [(512, 1024)])
                    256 (0, 256) [(256, 512)])
             100 128 (0, 128) [(128, 256)])
        = total_memory (__init__ 1024).
Proof.
  assert (allocate (__init__ 1024) 100
          = Returns (Some (0, 128))
              (grant (split_at (split_at (split_at (__init__ 1024) 1024 (0, 1024) [])
                                  512 (0, 512) [(512, 1024)])
                        256 (0, 256) [(256, 512)])
                 100 128 (0, 128) [(128, 256)])) as Hrun
    by (vm_compute; reflexivity).
  split; [exact Hrun|].
  apply (allocate_records (__init__ 1024) 100 (0, 128) _ Hrun).
Defined.

Lemma not_overlap_apart b c :
  fst b < snd b → fst c < snd c → ¬ overlap b c →
  snd b ≤ fst c ∨ snd c ≤ fst b.
Proof.
  intros Hb Hc Hno.
  destruct (decide (snd b ≤ fst c)) as [|Hn1]; [by left|].
  destruct (decide (snd c ≤ fst b)) as [|Hn2]; [by right|].
  exfalso. apply Hno. exists (Z.max (fst b) (fst c)). unfold inside. lia.
Qed.

(** In every reachable state, a block granted for a request of [n ≥ 1] lies
    in [0, total), is at least [n] and less than [2 n] long, starts at an
    address that was not allocated, and is apart from every block that was
    allocated: [allocate] never hands out memory twice. *)
Theorem allocate_grants_fresh_memory total st n b st' :
  pow2 total → reachable total st → 1 ≤ n →
  allocate st n = Returns (Some b) st' →
  0 ≤ fst b ∧ snd b ≤ total ∧
  n ≤ snd b - fst b ∧ snd b - fst b < 2 * n ∧
  allocated st !! fst b = None ∧
  ∀ a r s, allocated st !! a = Some (r, s) → a + s ≤ fst b ∨ snd b ≤ a.
Proof.
  intros Hpow Hreach Hn Hrun.
  destruct (reachable_inv total st Hpow Hreach) as [Hinv HT].
  destruct (allocate_inv _ _ _ _ Hinv Hrun)
    as ([Hwf' _] & HT' & j & Hfind & Hsz & Hfresh & Hal).
  destruct (find_nearest_spec n) as (j' & Hfind' & Hge & Htight).
  rewrite Hfind in Hfind'. injection Hfind' as Hjj.
  assert (is_alloc st' b) as Hb.
  { exists n, (p2 j). split; [|done]. rewrite Hal. apply lookup_insert_eq. }
  destruct (proj1 (wf_tiling _ Hwf') b (or_intror Hb)) as (_ & _ & _ & H0 & H1).
  split; [done|]. split; [lia|]. split; [lia|]. split; [lia|]. split; [done|].
  intros a r s Ha.
  assert (a ≠ fst b) as Hne by (intros ->; rewrite Hfresh in Ha; done).
  assert (is_alloc st' (a, a + s)) as Hother.
  { exists r, s. split; [|done]. rewrite Hal. cbn [fst].
    by rewrite lookup_insert_ne. }
  pose proof (aligned_nonempty _ _ (proj1 (wf_tiling _ Hwf') _ (or_intror Hb))).
  pose proof (aligned_nonempty _ _ (proj1 (wf_tiling _ Hwf') _ (or_intror Hother)))
    as Hne'. cbn [fst snd] in Hne'.
  destruct (not_overlap_apart (a, a + s) b) as [?|?]; cbn [fst snd]; auto.
  intros Hov. apply Hne.
  pose proof (proj1 (proj2 (wf_tiling _ Hwf')) _ _ (or_intror Hother)
                (or_intror Hb) Hov) as Heq.
  by rewrite <- Heq.
Qed.

Lemma allocate_grants_fresh_memory_witness :
  pow2 1024 ∧ reachable 1024 (__init__ 1024) ∧ 1 ≤ 100 ∧
  allocate (__init__ 1024) 100
  = Returns (Some (0, 128))
      (grant (split_at (split_at (split_at (__init__ 1024) 1024 (0, 1024) [])
                          512 (0, 512) [(512, 1024)])
                256 (0, 256) [(256, 512)])
         100 128 (0, 128) [(128, 256)]) ∧
  0 ≤ fst (0, 128) ∧ snd (0, 128) ≤ 1024 ∧
  100 ≤ snd (0, 128) - fst (0, 128) ∧ snd (0, 128) - fst (0, 128) < 2 * 100 ∧
  allocated (__init__ 1024) !! fst (0, 128) = None ∧
  ∀ a r s, allocated (__init__ 1024) !! a = Some (r, s) →
           a + s ≤ fst (0, 128) ∨ snd (0, 128) ≤ a.
Proof.
  assert (pow2 1024) as Hpow by (exists 10%nat; reflexivity).
  assert (allocate (__init__ 1024) 100
          = Returns (Some (0, 128))
              (grant (split_at (split_at (split_at (__init__ 1024) 1024 (0, 1024) [])
                                  512 (0, 512) [(512, 1024)])
                        256 (0, 256) [(256, 512)])
                 100 128 (0, 128) [(128, 256)])) as Hrun
    by (vm_compute; reflexivity).
  split; [exact Hpow|]. split; [apply reachable_init|]. split; [lia|].
  split; [exact Hrun|].
  apply (allocate_grants_fresh_memory 1024 (__init__ 1024) 100 (0, 128) _
           Hpow (reachable_init 1024) ltac:(lia) Hrun).
Defined.

Lemma descends_chain size bs k st b st' :
  descends size bs k st b st' → 1 ≤ bs →
  ∀ (d : block) (rest : list block),
    memory st !! (bs * p2 k) = Some (d :: rest) →
    snd d = fst d + bs * p2 k →
    b = (fst d, fst d + bs) ∧
    cls st' (bs * p2 k) = rest ∧
    (∀ i : nat, (i < k)%nat →
       cls st' (bs * p2 i) = [(fst d + bs * p2 i, fst d + bs * p2 (S i))]) ∧
    (∀ s, (∀ i : nat, (i ≤ k)%nat → s ≠ bs * p2 i) → cls st' s = cls st s).
Proof.
  induction 1 as [st b rest0 Hm|k st d0 rest0 b st' Hlow Hd Hdesc IH];
    intros Hbs d rest Hdonor Hsz.
  - rewrite p2_0, (Z.mul_1_r bs) in Hdonor, Hsz |- *. rewrite Hm in Hdonor.
    injection Hdonor as <- <-. split; [destruct b; cbn in *; f_equal; lia|].
    split; [rewrite cls_grant; by rewrite decide_True|].
    split; [intros i ?; lia|].
    intros s Hs. rewrite cls_grant. rewrite decide_False; [done|].
    intros <-. apply (Hs 0%nat); [lia|]. by rewrite p2_0, Z.mul_1_r.
  - rewrite Hd in Hdonor. injection Hdonor as <- <-.
    destruct (split_at_classes st bs k d0 rest0 Hbs)
      as (_ & Hrest & Hhalves & Hother).
    assert ((fst d0 + snd d0) / 2 = fst d0 + bs * p2 k) as Hmid.
    { rewrite Hsz, p2_S.
      replace (fst d0 + (fst d0 + bs * (2 * p2 k)))
        with ((fst d0 + bs * p2 k) * 2) by lia.
      apply Z.div_mul. lia. }
    rewrite Hmid, (Hlow k) in Hhalves by lia. cbn [app] in Hhalves.
    destruct (cls_nonempty (split_at st (bs * p2 (S k)) d0 rest0) (bs * p2 k))
      as (lo & rest' & Hlo); [by rewrite Hhalves|].
    pose proof (get_list_Some _ _ _ Hlo) as Heq.
    fold (cls (split_at st (bs * p2 (S k)) d0 rest0) (bs * p2 k)) in Heq.
    rewrite Hhalves in Heq. injection Heq as <- <-.
    destruct (IH Hbs _ _ Hlo) as (Hb & Hk & Hbelow & Hrest1); [cbn; lia|].
    cbn [fst snd] in *. split; [done|]. split; [|split].
    + rewrite Hrest1; [done|]. intros i Hi Heq. apply chain_inj in Heq; lia.
    + intros i Hi. destruct (decide (i = k)) as [->|].
      * rewrite Hk, Hsz. done.
      * apply Hbelow. lia.
    + intros s Hs. rewrite Hrest1 by (intros i Hi; apply Hs; lia).
      apply Hother; apply Hs; lia.
Qed.

(** In every reachable state, a successful [allocate] takes the head [d] of
    the first non-empty class [bs * 2^k] at or above the rounded size [bs],
    grants the [bs] lowest addresses of [d], and leaves the rest of [d] as
    one free block in each of the [k] classes below, the block of the class
    [bs * 2^i] starting [bs * 2^i] above the start of [d]; no other class
    changes. *)
Theorem allocate_carves_donor total st n b st' :
  pow2 total → reachable total st →
  allocate st n = Returns (Some b) st' →
  ∃ bs (k : nat) d rest,
    _find_nearest_power_of_two n = Some bs ∧
    memory st !! (bs * p2 k) = Some (d :: rest) ∧
    (∀ i : nat, (i < k)%nat → cls st (bs * p2 i) = []) ∧
    b = (fst d, fst d + bs) ∧
    cls st' (bs * p2 k) = rest ∧
    (∀ i : nat, (i < k)%nat →
       cls st' (bs * p2 i) = [(fst d + bs * p2 i, fst d + bs * p2 (S i))]) ∧
    (∀ s, (∀ i : nat, (i ≤ k)%nat → s ≠ bs * p2 i) → cls st' s = cls st s).
Proof.
  intros Hpow Hreach Hrun.
  destruct (reachable_inv total st Hpow Hreach) as [[Hwf _] _].
  destruct (allocate_cases st n)
    as (j & Hfind & _ & _ & [[Hnone _]|(k & b0 & st0 & _ & Hlow & Hne & Hsome & Hdesc)]).
  { rewrite Hnone in Hrun. done. }
  rewrite Hsome in Hrun. injection Hrun as <- <-.
  destruct (cls_nonempty _ _ Hne) as (d & rest & Hd).
  assert (d ∈ cls st (p2 j * p2 k)) as Hin.
  { unfold cls. rewrite (get_list_Some _ _ _ Hd). left. }
  pose proof (wf_key _ Hwf _ _ Hin) as Hkey.
  destruct (descends_chain _ _ _ _ _ _ Hdesc (p2_ge_1 j) d rest Hd Hkey)
    as (Hb & Hk & Hbelow & Hother).
  exists (p2 j), k, d, rest. done.
Qed.

Lemma allocate_carves_donor_witness :
  pow2 1024 ∧ reachable 1024 (__init__ 1024) ∧
  allocate (__init__ 1024) 100
  = Returns (Some (0, 128))
      (grant (split_at (split_at (split_at (__init__ 1024) 1024 (0, 1024) [])
                          512 (0, 512) [(512, 1024)])
                256 (0, 256) [(256, 512)])
         100 128 (0, 128) [(128, 256)]) ∧
  ∃ bs (k : nat) d rest,
    _find_nearest_power_of_two 100 = Some bs ∧
    memory (__init__ 1024) !! (bs * p2 k) = Some (d :: rest) ∧
    (∀ i : nat, (i < k)%nat → cls (__init__ 1024) (bs * p2 i) = []) ∧
    (0, 128) = (fst d, fst d + bs) ∧
    cls (grant (split_at (split_at (split_at (__init__ 1024) 1024 (0, 1024) [])
                            512 (0, 512) [(512, 1024)])
                  256 (0, 256) [(256, 512)])
           100 128 (0, 128) [(128, 256)]) (bs * p2 k) = rest ∧
    (∀ i : nat, (i < k)%nat →
       cls (grant (split_at (split_at (split_at (__init__ 1024) 1024 (0, 1024) [])
                               512 (0, 512) [(512, 1024)])
                     256 (0, 256) [(256, 512)])
              100 128 (0, 128) [(128, 256)]) (bs * p2 i)
       = [(fst d + bs * p2 i, fst d + bs * p2 (S i))]) ∧
    (∀ s, (∀ i : nat, (i ≤ k)%nat → s ≠ bs * p2 i) →
       cls (grant (split_at (split_at (split_at (__init__ 1024) 1024 (0, 1024) [])
                               512 (0, 512) [(512, 1024)])
                     256 (0, 256) [(256, 512)])
              100 128 (0, 128) [(128, 256)]) s
       = cls (__init__ 1024) s).
Proof.
  assert (pow2 1024) as Hpow by (exists 10%nat; reflexivity).
  assert (allocate (__init__ 1024) 100
          = Returns (Some (0, 128))
              (grant (split_at (split_at (split_at (__init__ 1024) 1024 (0, 1024) [])
                                  512 (0, 512) [(512, 1024)])
                        256 (0, 256) [(256, 512)])
                 100 128 (0, 128) [(128, 256)])) as Hrun
    by (vm_compute; reflexivity).
  split; [exact Hpow|]. split; [apply reachable_init|]. split; [exact Hrun|].
  apply (allocate_carves_donor 1024 (__init__ 1024) 100 (0, 128) _
           Hpow (reachable_init 1024) Hrun).
Defined.

(** ** Coalescing is immediate *)

(** In every reachable state no free block has its buddy free: between two
    operations the free lists never hold two blocks that could be merged. *)
Theorem no_free_buddies total st s l b :
  pow2 total → reachable total st →
  memory st !! s = Some l → b ∈ l →
  (Z.lxor (fst b) s, Z.lxor (fst b) s + s) ∉ l.
Proof.
  intros Hpow Hreach Hl Hb Hbud.
  destruct (reachable_inv total st Hpow Hreach) as [[Hwf Hco] _].
  assert (cls st s = l) as Hcls by (by apply get_list_Some).
  rewrite <- Hcls in Hb, Hbud.
  pose proof (wf_key _ Hwf _ _ Hb) as Hkey.
  apply (Hco b); [by exists s|]. exists s.
  unfold buddy, buddy_of. by replace (snd b - fst b) with s by lia.
Qed.

Lemma no_free_buddies_witness :
  pow2 1024 ∧ reachable 1024 (__init__ 1024) ∧
  memory (__init__ 1024) !! 1024 = Some [(0, 1024)] ∧
  (0, 1024) ∈ [(0, 1024)] ∧
  (Z.lxor (fst (0, 1024)) 1024, Z.lxor (fst (0, 1024)) 1024 + 1024)
    ∉ [(0, 1024)].
Proof.
  assert (pow2 1024) as Hpow by (exists 10%nat; reflexivity).
  assert ((0, 1024) ∈ [(0, 1024)]) as Hin by left.
  split; [exact Hpow|]. split; [apply reachable_init|].
  split; [reflexivity|]. split; [exact Hin|].
  apply (no_free_buddies 1024 (__init__ 1024) 1024 [(0, 1024)] (0, 1024)
           Hpow (reachable_init 1024) eq_refl Hin).
Defined.

(** ** Deallocation *)

(** In every reachable state, the deallocation of an allocated address
    succeeds (the [ValueError] handler is not reached), removes that entry of
    [allocated] and no other, and leaves every address of the block in a free
    block. *)
Theorem deallocate_block_frees total st a r s :
  pow2 total → reachable total st →
  allocated st !! a = Some (r, s) →
  ∃ st', deallocate_block st a = Returns Success st' ∧
    allocated st' = delete a (allocated st) ∧
    total_memory st' = total ∧
    ∀ x, a ≤ x < a + s → ∃ fb, is_free st' fb ∧ inside x fb.
Proof.
  intros Hpow Hreach Ha.
  destruct (reachable_inv total st Hpow Hreach) as [Hinv HT].
  destruct (deallocate_block_inv st a r s Hinv Ha)
    as (st' & Hrun & [Hwf' _] & Hal & HT').
  exists st'. split; [done|]. split; [done|]. split; [lia|].
  intros x Hx. destruct Hinv as [Hwf _].
  assert (is_alloc st (a, a + s)) as Hblock by (exists r, s; done).
  destruct (proj1 (wf_tiling _ Hwf) _ (or_intror Hblock)) as (_ & _ & _ & H0 & H1).
  cbn [fst snd] in *.
  destruct (proj2 (proj2 (wf_tiling _ Hwf')) x ltac:(lia)) as (c & [Hc|Hc] & Hin).
  { exists c. done. }
  exfalso. destruct Hc as (r' & s' & Hl & Hsz).
  rewrite Hal, lookup_delete in Hl. case_decide as Hne; [done|].
  assert (is_alloc st c) as Hc by (exists r', s'; done).
  assert (c = (a, a + s)) as ->.
  { apply (wf_tiling _ Hwf); [by right|by right|]. exists x. done. }
  done.
Qed.

Lemma deallocate_block_frees_witness :
  pow2 16 ∧ reachable 16 (grant (__init__ 16) 16 16 (0, 16) []) ∧
  allocated (grant (__init__ 16) 16 16 (0, 16) []) !! 0 = Some (16, 16) ∧
  ∃ st', deallocate_block (grant (__init__ 16) 16 16 (0, 16) []) 0
         = Returns Success st' ∧
    allocated st' = delete 0 (allocated (grant (__init__ 16) 16 16 (0, 16) [])) ∧
    total_memory st' = 16 ∧
    ∀ x, 0 ≤ x < 0 + 16 → ∃ fb, is_free st' fb ∧ inside x fb.
Proof.
  assert (pow2 16) as Hpow by (exists 4%nat; reflexivity).
  assert (reachable 16 (grant (__init__ 16) 16 16 (0, 16) [])) as Hreach.
  { apply (reachable_allocate 16 (__init__ 16) 16 (Some (0, 16)));
      [apply reachable_init|vm_compute; reflexivity]. }
  split; [exact Hpow|]. split; [exact Hreach|]. split; [reflexivity|].
  apply (deallocate_block_frees 16 _ 0 16 16 Hpow Hreach). reflexivity.
Defined.

Lemma merge_buddies_allocated fuel : ∀ st s b,
  match _merge_buddies fuel st s b with
  | Returns _ st' | Raises _ st' =>
      allocated st' = allocated st ∧ total_memory st' = total_memory st
  | OutOfFuel => True
  end.
Proof.
  induction fuel as [|fuel IH]; intros st s b; cbn [_merge_buddies]; [done|].
  destruct (decide (buddy_of s b ∈ get_list (memory st) s)); [|done].
  destruct (list_remove (buddy_of s b) (get_list (memory st) s)) as [l1|]; [|done].
  destruct (list_remove b l1) as [l2|]; [|done].
  apply (IH (merge_at st s b (buddy_of s b) l1 l2)).
Qed.

(** In every state [deallocate] ends, by a return or by the [ValueError] of
    [list.remove]; either way it has changed [allocated] only by deleting
    the key that is the start of the block, and it has not changed
    [total_memory]. *)
Theorem deallocate_forgets_one_key st b :
  ∃ st', (deallocate st b = Returns tt st' ∨
          deallocate st b = Raises ValueError st') ∧
    allocated st' = delete (fst b) (allocated st) ∧
    total_memory st' = total_memory st.
Proof.
  unfold deallocate.
  pose proof (merge_buddies_allocated (S (free_count (release st b)))
                (release st b) (snd b - fst b) b) as Hmerge.
  pose proof (merge_buddies_terminates (S (free_count (release st b)))
                (release st b) (snd b - fst b) b (Nat.lt_succ_diag_r _)) as Hend.
  assert (allocated (release st b) = delete (fst b) (allocated st)) as Hrel.
  { unfold release. cbn [allocated]. case_decide as Hsome; [done|].
    symmetry. apply delete_id. by apply eq_None_not_Some. }
  destruct (_merge_buddies _ _ _ _) as [[] st'|[] st'|]; [| |done];
    destruct Hmerge as [Hal HT]; exists st'; rewrite Hal, HT; auto.
Qed.

Lemma lxor_fixed a s : Z.lxor a s = a → s = 0.
Proof.
  intros Heq.
  assert (Z.lxor a (Z.lxor a s) = Z.lxor a a) as H by (by rewrite Heq).
  by rewrite <- Z.lxor_assoc, Z.lxor_nilpotent, Z.lxor_0_l in H.
Qed.

Lemma list_remove_other x y l l' :
  list_remove x l = Some l' → y ∈ l → y ≠ x → y ∈ l'.
Proof.
  revert l'. induction l as [|z l IH]; intros l'; cbn; [done|].
  destruct (decide (x = z)) as [->|Hxz].
  - intros [= <-] [?|?]%elem_of_cons ?; done.
  - destruct (list_remove x l) as [l0|]; [|done]. cbn. intros [= <-] Hin Hne.
    apply elem_of_cons in Hin as [->|Hin]; [left|right; by apply IH].
Qed.

Lemma merge_buddies_never_raises fuel : ∀ st s b e st',
  s ≠ 0 → b ∈ get_list (memory st) s →
  _merge_buddies fuel st s b ≠ Raises e st'.
Proof.
  induction fuel as [|fuel IH]; intros st s b e st' Hs Hb; cbn [_merge_buddies];
    [done|].
  destruct (decide (buddy_of s b ∈ get_list (memory st) s)) as [Hbud|]; [|done].
  destruct (list_remove_elem _ _ Hbud) as [l1 Hl1]. rewrite Hl1.
  assert (b ≠ buddy_of s b) as Hne.
  { intros Heq. apply Hs, (lxor_fixed (fst b)). rewrite Heq at 2. done. }
  pose proof (list_remove_other _ _ _ _ Hl1 Hb Hne) as Hb1.
  destruct (list_remove_elem _ _ Hb1) as [l2 Hl2]. rewrite Hl2.
  apply IH; [lia|]. unfold merge_at. cbn [memory with_memory].
  rewrite get_list_append_at, decide_True by done. apply elem_of_app. right. left.
Qed.

(** A block whose two ends differ never makes [deallocate] raise: in every
    state the call returns.  The [ValueError] of [list.remove] needs an
    empty block. *)
Theorem deallocate_never_raises st b :
  fst b ≠ snd b → ∃ st', deallocate st b = Returns tt st'.
Proof.
  intros Hne. unfold deallocate.
  pose proof (merge_buddies_terminates (S (free_count (release st b)))
                (release st b) (snd b - fst b) b (Nat.lt_succ_diag_r _)) as Hend.
  destruct (_merge_buddies _ _ _ _) as [[] st'|e st'|] eqn:Hrun; [by exists st'| |done].
  exfalso. revert Hrun. apply merge_buddies_never_raises; [lia|].
  unfold release. cbn [memory]. rewrite get_list_append_at, decide_True by done.
  apply elem_of_app. right. left.
Qed.

Lemma deallocate_never_raises_witness :
  fst (0, 512) ≠ snd (0, 512) ∧
  ∃ st', deallocate (__init__ 1024) (0, 512) = Returns tt st'.
Proof.
  assert (fst (0, 512) ≠ snd (0, 512)) as Hne by (cbn; lia).
  split; [exact Hne|].
  apply (deallocate_never_raises (__init__ 1024) (0, 512) Hne).
Defined.

Lemma list_remove_absent x l : x ∉ l → list_remove x l = None.
Proof.
  induction l as [|y l IH]; [done|]. intros Hnotin. cbn.
  apply not_elem_of_cons in Hnotin as [Hne Hnotin].
  rewrite decide_False by done. by rewrite IH.
Qed.

Lemma list_remove_last x l : x ∉ l → list_remove x (l ++ [x]) = Some l.
Proof.
  induction l as [|y l IH]; intros Hnotin; cbn.
  - by rewrite decide_True.
  - apply not_elem_of_cons in Hnotin as [Hne Hnotin].
    rewrite decide_False by done. by rewrite IH.
Qed.

(** An empty block [(a, a)] that is not in the free list of size 0 makes
    [deallocate] raise [ValueError]: the block is its own buddy, so that
    after the removal of the buddy the block is no longer there to be
    removed.  The key [a] has by then been deleted from [allocated], and the
    free lists hold what they held.  When the block comes from an entry of
    [allocated] of block size 0, [deallocate_block] catches the exception and
    shows its error box. *)
Theorem deallocate_empty_block_raises st a :
  (a, a) ∉ cls st 0 →
  ∃ st', deallocate st (a, a) = Raises ValueError st' ∧
    (∀ s, cls st' s = cls st s) ∧
    allocated st' = delete a (allocated st) ∧
    (∀ r, allocated st !! a = Some (r, 0) →
          deallocate_block st a = Returns Error st').
Proof.
  intros Hnotin.
  assert (buddy_of 0 (a, a) = (a, a)) as Hbud.
  { unfold buddy_of. cbn [fst]. by rewrite Z.lxor_0_r, Z.add_0_r. }
  assert (deallocate st (a, a) =
          Raises ValueError
            (with_memory (release st (a, a))
               (<[0 := cls st 0]> (memory (release st (a, a)))))) as Hrun.
  { unfold deallocate. rewrite merge_buddies_S. cbn [fst snd].
    rewrite Z.sub_diag, Hbud.
    assert (get_list (memory (release st (a, a))) 0
            = cls st 0 ++ @cons block (a, a) []) as ->.
    { unfold release. cbn [memory fst snd]. rewrite Z.sub_diag.
      rewrite get_list_append_at. by rewrite decide_True. }
    rewrite decide_True by (apply elem_of_app; right; left).
    rewrite (list_remove_last _ _ Hnotin), (list_remove_absent _ _ Hnotin).
    done. }
  eexists. split; [exact Hrun|]. split; [|split].
  - intros s. unfold cls at 1. cbn [memory with_memory].
    rewrite get_list_insert. case_decide as Hs; [by subst|].
    unfold release. cbn [memory fst snd]. rewrite Z.sub_diag.
    rewrite get_list_append_at. by rewrite decide_False.
  - cbn [allocated with_memory release fst]. case_decide as Hsome; [done|].
    symmetry. apply delete_id. by apply eq_None_not_Some.
  - intros r Ha. unfold deallocate_block. rewrite Ha, Z.add_0_r, Hrun. done.
Qed.

Lemma deallocate_empty_block_raises_witness :
  ((5, 5) ∉ cls (__init__ 16) 0) ∧
  ∃ st', deallocate (__init__ 16) (5, 5) = Raises ValueError st' ∧
    (∀ s, cls st' s = cls (__init__ 16) s) ∧
    allocated st' = delete 5 (allocated (__init__ 16)) ∧
    (∀ r, allocated (__init__ 16) !! 5 = Some (r, 0) →
          deallocate_block (__init__ 16) 5 = Returns Error st').
Proof.
  assert ((5, 5) ∉ cls (__init__ 16) 0) as Hnotin
    by (rewrite cls_init; apply not_elem_of_nil).
  split; [exact Hnotin|].
  apply (deallocate_empty_block_raises (__init__ 16) 5 Hnotin).
Defined.

(** ** [_ensure_memory_keys] *)

Lemma lookup_ensure_key (m : gmap Z (list block)) size s :
  ensure_key m size !! s =
  match m !! s with
  | Some l => Some l
  | None => if decide (s = size) then Some [] else None
  end.
Proof.
  unfold ensure_key. destruct (m !! size) as [l0|] eqn:Hsize.
  - destruct (m !! s) as [l|] eqn:Hs; [done|].
    case_decide; [|done]. subst. by rewrite Hs in Hsize.
  - rewrite lookup_insert. case_decide as Heq.
    + subst. rewrite Hsize. by rewrite decide_True.
    + destruct (m !! s); [done|]. by rewrite decide_False.
Qed.

Lemma lookup_ensure_keys sizes : ∀ (m : gmap Z (list block)) s,
  foldl ensure_key m sizes !! s =
  match m !! s with
  | Some l => Some l
  | None => if decide (s ∈ sizes) then Some [] else None
  end.
Proof.
  induction sizes as [|size sizes IH]; intros m s; cbn [foldl].
  - destruct (m !! s); [done|]. rewrite decide_False; [done|apply not_elem_of_nil].
  - rewrite IH, lookup_ensure_key. destruct (m !! s) as [l|]; [done|].
    destruct (decide (s = size)) as [->|Hne].
    + rewrite decide_True; [done|left].
    + destruct (decide (s ∈ sizes)) as [Hin|Hnotin].
      * rewrite decide_True; [done|by right].
      * rewrite decide_False; [done|].
        intros [?|?]%elem_of_cons; done.
Qed.

Lemma bit_length_sizes total s :
  0 < total →
  s ∈ p2 <$> seq 0 (Z.to_nat (bit_length total)) ↔
  ∃ i : nat, s = p2 i ∧ s ≤ total.
Proof.
  intros Hpos. unfold bit_length.
  destruct (Z.eqb_spec total 0) as [|_]; [lia|].
  rewrite Z.abs_eq by lia.
  pose proof (Z.log2_nonneg total) as Hnn.
  destruct (Z.log2_spec total Hpos) as [Hlow Hhigh].
  rewrite list_elem_of_fmap. split.
  - intros (i & -> & Hi). apply elem_of_seq in Hi. exists i. split; [done|].
    assert (p2 i ≤ 2 ^ Z.log2 total); [|lia].
    unfold p2. apply Z.pow_le_mono_r; lia.
  - intros (i & -> & Hle). exists i. split; [done|]. apply elem_of_seq.
    assert (Z.of_nat i < Z.succ (Z.log2 total)); [|lia].
    apply (Z.pow_lt_mono_r_iff 2); [lia|lia|]. unfold p2 in Hle. lia.
Qed.

(** [_ensure_memory_keys] keeps [allocated], [total_memory] and every list of
    [memory]; the keys it adds are bound to the empty list, so that no free
    list changes; and for a positive total the keys it adds are the powers of
    two up to the total that were missing, all of which are keys
    afterwards. *)
Theorem ensure_memory_keys_spec st :
  allocated (_ensure_memory_keys st) = allocated st ∧
  total_memory (_ensure_memory_keys st) = total_memory st ∧
  (∀ s, cls (_ensure_memory_keys st) s = cls st s) ∧
  (∀ s l, memory st !! s = Some l →
          memory (_ensure_memory_keys st) !! s = Some l) ∧
  (∀ s l, memory st !! s = None →
          memory (_ensure_memory_keys st) !! s = Some l → l = []) ∧
  (0 < total_memory st →
   ∀ s, is_Some (memory (_ensure_memory_keys st) !! s) ↔
        is_Some (memory st !! s) ∨ ∃ i : nat, s = p2 i ∧ s ≤ total_memory st).
Proof.
  unfold _ensure_memory_keys. cbn [allocated total_memory memory with_memory].
  split; [done|]. split; [done|]. split; [|split; [|split]].
  - intros s. unfold cls, get_list. cbn [memory with_memory].
    rewrite lookup_ensure_keys. destruct (memory st !! s); [done|].
    case_decide; done.
  - intros s l Hl. by rewrite lookup_ensure_keys, Hl.
  - intros s l Hnone. rewrite lookup_ensure_keys, Hnone.
    case_decide; [|done]. by intros [= <-].
  - intros Hpos s. rewrite lookup_ensure_keys.
    rewrite <- (bit_length_sizes _ _ Hpos).
    destruct (memory st !! s) as [l|]; [split; eauto|].
    case_decide as Hin.
    + split; [by right|eauto].
    + split; [by intros [? ?]|]. by intros [[? ?]|?].
Qed.

(** Calling [_ensure_memory_keys] twice is calling it once. *)
Theorem ensure_memory_keys_idempotent st :
  _ensure_memory_keys (_ensure_memory_keys st) = _ensure_memory_keys st.
Proof.
  unfold _ensure_memory_keys at 1 3. cbn [total_memory memory with_memory].
  unfold _ensure_memory_keys. cbn [allocated total_memory memory with_memory].
  unfold with_memory. cbn [allocated total_memory]. f_equal.
  apply map_eq. intros s. rewrite !lookup_ensure_keys.
  destruct (memory st !! s) as [l|]; [done|]. case_decide; done.
Qed.

(** ** Allocators that differ by keys bound to the empty list *)

Lemma similar_ensure st : similar (_ensure_memory_keys st) st.
Proof.
  unfold _ensure_memory_keys. split; [done|]. split; [done|].
  intros s. unfold cls, get_list. cbn [memory with_memory].
  rewrite lookup_ensure_keys. destruct (memory st !! s); [done|].
  case_decide; done.
Qed.

Lemma similar_trans st1 st2 st3 : similar st1 st2 → similar st2 st3 → similar st1 st3.
Proof.
  intros (? & ? & H12) (? & ? & H23). split; [lia|]. split; [congruence|].
  intros s. by rewrite H12.
Qed.

(** The code cannot tell an absent key of [memory] from a key bound to the
    empty list: on two allocators with the same total, the same [allocated]
    and the same free list at every size, [allocate] and [deallocate_block]
    both return, with the same result, and leave two such allocators again;
    and [_ensure_memory_keys] leaves an allocator of that kind. *)
Theorem empty_classes_unobservable st1 st2 :
  similar st1 st2 →
  (∀ n, ∃ r st1' st2',
     allocate st1 n = Returns r st1' ∧ allocate st2 n = Returns r st2' ∧
     similar st1' st2') ∧
  (∀ a, ∃ m st1' st2',
     deallocate_block st1 a = Returns m st1' ∧
     deallocate_block st2 a = Returns m st2' ∧
     similar st1' st2') ∧
  similar (_ensure_memory_keys st1) st2.
Proof.
  intros Hsim. split; [|split].
  - intros n. destruct (allocate_returns st1 n) as (r & st1' & Hrun).
    destruct (similar_outcome_returns _ _ _ _ (similar_allocate _ _ n Hsim) Hrun)
      as (st2' & Hrun2 & Hsim').
    exists r, st1', st2'. done.
  - intros a. destruct (deallocate_block_returns st1 a) as (m & st1' & Hrun).
    destruct (similar_outcome_returns _ _ _ _
                (similar_deallocate_block _ _ a Hsim) Hrun)
      as (st2' & Hrun2 & Hsim').
    exists m, st1', st2'. done.
  - eapply similar_trans; [apply similar_ensure|done].
Qed.

Lemma empty_classes_unobservable_witness :
  similar (start 16) (__init__ 16) ∧
  (∀ n, ∃ r st1' st2',
     allocate (start 16) n = Returns r st1' ∧
     allocate (__init__ 16) n = Returns r st2' ∧
     similar st1' st2') ∧
  (∀ a, ∃ m st1' st2',
     deallocate_block (start 16) a = Returns m st1' ∧
     deallocate_block (__init__ 16) a = Returns m st2' ∧
     similar st1' st2') ∧
  similar (_ensure_memory_keys (start 16)) (__init__ 16).
Proof.
  assert (similar (start 16) (__init__ 16)) as Hsim by apply similar_ensure.
  split; [exact Hsim|].
  apply (empty_classes_unobservable (start 16) (__init__ 16) Hsim).
Defined.

Lemma inv_similar st1 st2 : similar st1 st2 → inv st1 → inv st2.
Proof.
  intros (HT & Hal & Hcls) [Hwf Hco].
  assert (∀ b, is_free st2 b ↔ is_free st1 b) as Hfree.
  { intros b. unfold is_free. split; intros [s Hs]; exists s; by rewrite ?Hcls in *. }
  assert (∀ b, is_alloc st2 b ↔ is_alloc st1 b) as Halloc.
  { intros b. unfold is_alloc. by rewrite Hal. }
  split; [split|].
  - rewrite <- HT. apply (wf_total _ Hwf).
  - intros s b. rewrite <- Hcls. apply (wf_key _ Hwf).
  - intros s. rewrite <- Hcls. apply (wf_nodup _ Hwf).
  - intros b Hb%Hfree Ha%Halloc. by apply (wf_excl _ Hwf b).
  - rewrite <- HT. apply (tiling_iff _ (is_block st1)); [|apply (wf_tiling _ Hwf)].
    intros b. unfold is_block. by rewrite Hfree, Halloc.
  - intros b Hb%Hfree Hbud%Hfree. by apply (Hco b).
Qed.

Lemma similar_sym st1 st2 : similar st1 st2 → similar st2 st1.
Proof. intros (? & ? & H). split; [done|]. split; [done|]. intros s. by rewrite H. Qed.

Lemma similar_run rs : ∀ st1 st2,
  similar st1 st2 →
  match run st1 rs, run st2 rs with
  | Some s1, Some s2 => similar s1 s2
  | None, None => True
  | _, _ => False
  end.
Proof.
  induction rs as [|r rs IH]; intros st1 st2 Hsim; cbn [run]; [done|].
  assert (match step st1 r, step st2 r with
          | Some s1, Some s2 => similar s1 s2
          | None, None => True
          | _, _ => False
          end) as Hstep.
  { destruct r as [n|a]; cbn [step].
    - pose proof (similar_allocate st1 st2 n Hsim) as H.
      destruct (allocate st1 n) as [? ?|? ?|], (allocate st2 n) as [? ?|? ?|];
        try done. by destruct H.
    - pose proof (similar_deallocate_block st1 st2 a Hsim) as H.
      destruct (deallocate_block st1 a) as [? ?|? ?|],
        (deallocate_block st2 a) as [? ?|? ?|]; try done. by destruct H. }
  destruct (step st1 r) as [s1|], (step st2 r) as [s2|]; try done.
  by apply IH.
Qed.

(** ** The program's start state *)

(** The program calls [_ensure_memory_keys] on its fresh allocator before
    any request.  From that state too, for a power-of-two total, every
    sequence of requests runs to completion and leaves a partition of
    [0, total); the state reached has the same [allocated] and the same free
    lists as the one reached by the same requests without the call. *)
Theorem partition_from_start total rs :
  pow2 total →
  ∃ st st0,
    run (start total) rs = Some st ∧ run (__init__ total) rs = Some st0 ∧
    similar st st0 ∧ total_memory st = total ∧ partitions st.
Proof.
  intros Hpow.
  assert (inv (start total)) as Hinv.
  { apply (inv_similar (__init__ total));
      [apply similar_sym, similar_ensure|by apply inv_init]. }
  destruct (run_inv rs (start total) Hinv) as (st & Hrun & [Hwf _] & HT).
  destruct (run_inv rs (__init__ total) (inv_init total Hpow)) as (st0 & Hrun0 & _).
  pose proof (similar_run rs (start total) (__init__ total) (similar_ensure _)) as Hsim.
  rewrite Hrun, Hrun0 in Hsim.
  exists st, st0. split; [done|]. split; [done|]. split; [done|].
  split; [done|]. by apply wf_partitions.
Qed.

Lemma partition_from_start_witness :
  pow2 1024 ∧
  ∃ st st0,
    run (start 1024) [Allocate 100; Allocate 512; Deallocate 0] = Some st ∧
    run (__init__ 1024) [Allocate 100; Allocate 512; Deallocate 0] = Some st0 ∧
    similar st st0 ∧ total_memory st = 1024 ∧ partitions st.
Proof.
  assert (pow2 1024) as Hpow by (exists 10%nat; reflexivity).
  split; [exact Hpow|].
  apply (partition_from_start 1024 [Allocate 100; Allocate 512; Deallocate 0] Hpow).
Defined.

(** ** The keys of [memory] *)

Lemma is_Some_insert_present (m : gmap Z (list block)) k l s :
  is_Some (m !! k) → is_Some (<[k := l]> m !! s) ↔ is_Some (m !! s).
Proof.
  intros Hk. rewrite lookup_insert. case_decide; [|done]. subst.
  split; eauto.
Qed.

Lemma is_Some_append_at_present (m : gmap Z (list block)) k b s :
  is_Some (m !! k) → is_Some (append_at k b m !! s) ↔ is_Some (m !! s).
Proof. apply is_Some_insert_present. Qed.

Lemma seeded_key st (i : nat) :
  seeded st → p2 i ≤ total_memory st → is_Some (memory st !! p2 i).
Proof. intros Hseed Hle. apply Hseed. eauto. Qed.

Lemma seeded_grant st size bs b rest :
  seeded st → memory st !! bs = Some (b :: rest) →
  seeded (grant st size bs b rest).
Proof.
  intros Hseed Hm s. unfold grant. cbn [memory total_memory].
  rewrite is_Some_insert_present by (rewrite Hm; eauto). apply Hseed.
Qed.

Lemma seeded_split_at st L d rest :
  seeded st → memory st !! L = Some (d :: rest) → 2 ≤ L →
  seeded (split_at st L d rest).
Proof.
  intros Hseed Hm HL s. unfold split_at. cbn [memory total_memory with_memory].
  assert (is_Some (memory st !! L)) as HLkey by (rewrite Hm; eauto).
  assert (is_Some (memory st !! (L / 2))) as Hhalf.
  { apply Hseed in HLkey as (i & -> & Hle).
    destruct i as [|i]; [rewrite p2_0 in HL; lia|].
    pose proof (p2_pos i). rewrite p2_S in *.
    replace (2 * p2 i) with (p2 i * 2) by lia. rewrite Z.div_mul by lia.
    apply seeded_key; [done|lia]. }
  assert (∀ x, is_Some (<[L := rest]> (memory st) !! x) ↔ is_Some (memory st !! x))
    as H1 by (intros x; by apply is_Some_insert_present).
  assert (∀ x, is_Some (append_at (L / 2) (fst d, (fst d + snd d) / 2)
                          (<[L := rest]> (memory st)) !! x)
               ↔ is_Some (memory st !! x)) as H2.
  { intros x. rewrite is_Some_append_at_present; [apply H1|by apply H1]. }
  rewrite is_Some_append_at_present; [|by apply H2].
  rewrite H2. apply Hseed.
Qed.

Lemma aligned_size_key st b :
  seeded st → aligned (total_memory st) b →
  is_Some (memory st !! (snd b - fst b)).
Proof.
  intros Hseed (j & Hsz & _ & H0 & H1).
  replace (snd b - fst b) with (p2 j) by lia. apply seeded_key; [done|lia].
Qed.

Lemma seeded_release st a r s :
  wf st → seeded st → allocated st !! a = Some (r, s) →
  seeded (release st (a, a + s)).
Proof.
  intros Hwf Hseed Ha x. unfold release. cbn [memory total_memory].
  rewrite is_Some_append_at_present; [apply Hseed|].
  apply (aligned_size_key st (a, a + s) Hseed).
  apply (wf_tiling _ Hwf). right. exists r, s. done.
Qed.

Lemma seeded_merge_at st s b l1 l2 :
  wf st → seeded st → b ∈ cls st s → buddy_of s b ∈ cls st s →
  list_remove (buddy_of s b) (cls st s) = Some l1 →
  list_remove b l1 = Some l2 →
  seeded (merge_at st s b (buddy_of s b) l1 l2).
Proof.
  intros Hwf Hseed Hb Hbud Hl1 Hl2 x.
  pose proof (wf_merge_at st s b l1 l2 Hwf Hb Hbud Hl1 Hl2) as Hwf'.
  destruct (merge_blocks st s b l1 l2 Hwf Hb Hbud Hl1 Hl2)
    as (_ & Hne & _ & Hkeyp & _).
  assert (merged_of b (buddy_of s b)
          ∈ cls (merge_at st s b (buddy_of s b) l1 l2) (s * 2)) as Hp.
  { rewrite cls_merge_at by done. case_decide; [lia|].
    case_decide; [|done]. apply elem_of_app. right. left. }
  destruct (wf_free_aligned _ _ _ Hwf' Hp) as [Halp _].
  assert (is_Some (memory st !! s)) as Hs.
  { destruct (cls_nonempty st s) as (? & ? & ->); [|eauto].
    intros Hnil. rewrite Hnil in Hb. by apply elem_of_nil in Hb. }
  assert (is_Some (memory st !! (s * 2))) as Hs2.
  { replace (s * 2) with (snd (merged_of b (buddy_of s b))
                          - fst (merged_of b (buddy_of s b))) by lia.
    by apply aligned_size_key. }
  unfold merge_at. cbn [memory total_memory with_memory].
  assert (∀ y, is_Some (<[s := l1]> (memory st) !! y) ↔ is_Some (memory st !! y))
    as H1 by (intros y; by apply is_Some_insert_present).
  assert (∀ y, is_Some (<[s := l2]> (<[s := l1]> (memory st)) !! y)
               ↔ is_Some (memory st !! y)) as H2.
  { intros y. rewrite is_Some_insert_present; [apply H1|by apply H1]. }
  rewrite is_Some_append_at_present; [|by apply H2].
  rewrite H2. apply Hseed.
Qed.

Lemma descends_seeded size bs k st b st' :
  descends size bs k st b st' → 1 ≤ bs → seeded st → seeded st'.
Proof.
  induction 1 as [st b rest Hm|k st d rest b st' Hlow Hd Hdesc IH];
    intros Hbs Hseed.
  - by apply seeded_grant.
  - apply IH; [done|]. apply seeded_split_at; [done|done|].
    pose proof (p2_ge_1 k). rewrite p2_S. nia.
Qed.

Lemma merge_buddies_seeded fuel : ∀ st s b u st',
  wf st → seeded st → b ∈ cls st s →
  _merge_buddies fuel st s b = Returns u st' → seeded st'.
Proof.
  induction fuel as [|fuel IH]; intros st s b u st' Hwf Hseed Hb; [done|].
  rewrite merge_buddies_S. fold (cls st s).
  destruct (decide (buddy_of s b ∈ cls st s)) as [Hbud|]; [|by intros [= _ <-]].
  destruct (list_remove (buddy_of s b) (cls st s)) as [l1|] eqn:Hl1; [|done].
  destruct (list_remove b l1) as [l2|] eqn:Hl2; [|done].
  destruct (merge_blocks st s b l1 l2 Hwf Hb Hbud Hl1 Hl2) as (_ & Hne & _).
  apply IH.
  - by apply wf_merge_at.
  - by apply seeded_merge_at.
  - rewrite cls_merge_at by done. case_decide; [lia|].
    case_decide; [|done]. apply elem_of_app. right. left.
Qed.

Lemma allocate_seeded st n r st' :
  seeded st → allocate st n = Returns r st' → seeded st'.
Proof.
  intros Hseed Hrun.
  destruct (allocate_cases st n)
    as (j & _ & _ & _ & [[Hnone _]|(k & b & st1 & _ & _ & _ & Hsome & Hdesc)]).
  - rewrite Hnone in Hrun. by injection Hrun as _ <-.
  - rewrite Hsome in Hrun. injection Hrun as _ <-.
    eapply descends_seeded; [done|apply p2_ge_1|done].
Qed.

Lemma deallocate_block_seeded st a st' :
  inv st → seeded st → deallocate_block st a = Returns Success st' → seeded st'.
Proof.
  intros [Hwf _] Hseed. unfold deallocate_block, deallocate.
  destruct (allocated st !! a) as [[r s]|] eqn:Ha; [|done].
  destruct (_merge_buddies _ _ _ _) as [u s1|[] s1|] eqn:Hrun; try done.
  intros [= <-]. cbn [fst snd] in Hrun.
  eapply (merge_buddies_seeded _ _ _ _ _ _ (wf_release st a r s Hwf Ha)
            (seeded_release st a r s Hwf Hseed Ha)); [|exact Hrun].
  rewrite cls_release. cbn [fst snd]. rewrite decide_True by done.
  apply elem_of_app. right. left.
Qed.

Lemma allocate_all_seeded sizes : ∀ st blocks st1,
  inv st → seeded st → allocate_all st sizes = Some (blocks, st1) → seeded st1.
Proof.
  induction sizes as [|n sizes IH]; intros st blocks st1 Hinv Hseed Hall;
    cbn [allocate_all] in Hall.
  - by injection Hall as _ <-.
  - destruct (allocate st n) as [[b|] st'| |] eqn:Hrun; try done.
    destruct (allocate_all st' sizes) as [[bs st'']|] eqn:Hrest; [|done].
    injection Hall as _ <-.
    destruct (allocate_inv _ _ _ _ Hinv Hrun) as (Hinv' & _).
    eapply IH; [exact Hinv'| |exact Hrest]. by eapply allocate_seeded.
Qed.

Lemma deallocate_all_seeded addresses : ∀ st st',
  inv st → seeded st → deallocate_all st addresses = Some st' → seeded st'.
Proof.
  induction addresses as [|a addresses IH]; intros st st' Hinv Hseed Hall;
    cbn [deallocate_all] in Hall.
  - by injection Hall as <-.
  - destruct (deallocate_block st a) as [[| |] s1| |] eqn:Hrun; try done.
    pose proof (deallocate_block_seeded _ _ _ Hinv Hseed Hrun) as Hseed1.
    assert (inv s1) as Hinv1.
    { unfold deallocate_block in Hrun.
      destruct (allocated st !! a) as [[r s]|] eqn:Ha; [|done].
      destruct (deallocate_block_inv st a r s Hinv Ha) as (s1' & Hrun' & ? & _).
      unfold deallocate_block in Hrun'. rewrite Ha in Hrun'.
      rewrite Hrun' in Hrun. by injection Hrun as <-. }
    by eapply IH.
Qed.

Lemma seeded_start total : pow2 total → seeded (start total).
Proof.
  intros [n ->] s. pose proof (p2_pos n) as Hpos.
  destruct (ensure_memory_keys_spec (__init__ (p2 n))) as (_ & _ & _ & _ & _ & Hkeys).
  unfold start. rewrite (Hkeys Hpos). cbn [total_memory __init__ memory].
  rewrite lookup_singleton. split; [|auto].
  intros [Hinit|?]; [|done]. case_decide; [|by destruct Hinit].
  subst. exists n. done.
Qed.

Lemma all_free_is_start st :
  inv st → seeded st → allocated st = ∅ → st = start (total_memory st).
Proof.
  intros Hinv Hseed Hempty.
  destruct (all_free_single st Hinv Hempty) as [Hwhole Hrest].
  assert (pow2 (total_memory st)) as Hpow by apply (wf_total _ (proj1 Hinv)).
  pose proof (seeded_start _ Hpow) as Hseed0.
  assert (∀ s, cls (start (total_memory st)) s
               = if decide (total_memory st = s) then [(0, total_memory st)] else [])
    as Hcls0.
  { intros s. destruct (similar_ensure (__init__ (total_memory st))) as (_ & _ & H).
    unfold start. rewrite H. apply cls_init. }
  assert (memory st = memory (start (total_memory st))) as Hmem.
  { apply map_eq. intros s.
    destruct (memory st !! s) as [l|] eqn:Hl.
    - assert (is_Some (memory (start (total_memory st)) !! s)) as [l0 Hl0].
      { apply Hseed0. cbn. apply Hseed. rewrite Hl. eauto. }
      rewrite Hl0. f_equal.
      pose proof (get_list_Some _ _ _ Hl) as Hg. fold (cls st s) in Hg.
      pose proof (get_list_Some _ _ _ Hl0) as Hg0.
      fold (cls (start (total_memory st)) s) in Hg0.
      rewrite <- Hg, <- Hg0, Hcls0. case_decide as Hs.
      + subst s. unfold cls. by rewrite (get_list_Some _ _ _ Hwhole).
      + apply Hrest. done.
    - destruct (memory (start (total_memory st)) !! s) as [l0|] eqn:Hl0; [|done].
      exfalso. assert (is_Some (memory st !! s)) as [? Hsome].
      { apply Hseed. apply Hseed0. rewrite Hl0. eauto. }
      by rewrite Hl in Hsome. }
  destruct st as [T m al]. cbn in *. subst al. rewrite Hmem. reflexivity.
Qed.

(** From the program's start state, with a power-of-two total, allocating a
    sequence of blocks with success and then deallocating them all, in any
    order, gives back the start state itself: the same dictionary [memory],
    key for key, and the empty [allocated]. *)
Theorem roundtrip_from_start total sizes blocks st1 order :
  pow2 total →
  allocate_all (start total) sizes = Some (blocks, st1) →
  order ≡ₚ blocks →
  deallocate_all st1 (fst <$> order) = Some (start total).
Proof.
  intros Hpow Hall Hperm.
  assert (inv (start total)) as Hinv0.
  { apply (inv_similar (__init__ total));
      [apply similar_sym, similar_ensure|by apply inv_init]. }
  pose proof (seeded_start total Hpow) as Hseed0.
  destruct (allocate_all_inv sizes (start total) blocks st1 Hinv0 Hall)
    as (Hinv1 & HT1 & Hnd & _ & Hdom).
  pose proof (allocate_all_seeded _ _ _ _ Hinv0 Hseed0 Hall) as Hseed1.
  assert (fst <$> order ≡ₚ fst <$> blocks) as Hperm' by (by rewrite Hperm).
  destruct (deallocate_all_inv (fst <$> order) st1 Hinv1)
    as (st2 & Hrun & Hinv2 & Hempty & HT2).
  - by rewrite Hperm'.
  - intros a. rewrite Hdom, Hperm'. cbn [allocated start _ensure_memory_keys
                                           with_memory __init__].
    rewrite lookup_empty. split; [intros [[? ?]|?]; done|auto].
  - rewrite Hrun. f_equal.
    pose proof (deallocate_all_seeded _ _ _ Hinv1 Hseed1 Hrun) as Hseed2.
    rewrite (all_free_is_start st2 Hinv2 Hseed2 Hempty).
    f_equal. rewrite HT2, HT1. reflexivity.
Qed.

Lemma roundtrip_from_start_witness :
  pow2 16 ∧
  allocate_all (start 16) [8; 8]
  = Some ([(0, 8); (8, 16)],
          grant (grant (split_at (start 16) 16 (0, 16) [])
                   8 8 (0, 8) [(8, 16)])
            8 8 (8, 16) []) ∧
  [(8, 16); (0, 8)] ≡ₚ [(0, 8); (8, 16)] ∧
  deallocate_all
    (grant (grant (split_at (start 16) 16 (0, 16) []) 8 8 (0, 8) [(8, 16)])
       8 8 (8, 16) [])
    (fst <$> [(8, 16); (0, 8)]) = Some (start 16).
Proof.
  assert (pow2 16) as Hpow by (exists 4%nat; reflexivity).
  assert (allocate_all (start 16) [8; 8]
          = Some ([(0, 8); (8, 16)],
                  grant (grant (split_at (start 16) 16 (0, 16) [])
                           8 8 (0, 8) [(8, 16)])
                    8 8 (8, 16) [])) as Hall
    by (vm_compute; reflexivity).
  assert ([(8, 16); (0, 8)] ≡ₚ [(0, 8); (8, 16)]) as Hperm by apply perm_swap.
  split; [exact Hpow|]. split; [exact Hall|]. split; [exact Hperm|].
  apply (roundtrip_from_start 16 [8; 8] _ _ _ Hpow Hall Hperm).
Defined.

(** ** The free lists are determined by the allocated blocks *)

(** In a coalesced tiling, an aligned region in which every block is free
    and stays within the region is a single free block. *)
Lemma region_whole st c :
  inv st → aligned (total_memory st) c →
  (∀ b, is_block st b → overlap b c →
        is_free st b ∧ fst c ≤ fst b ∧ snd b ≤ snd c) →
  is_free st c.
Proof.
  intros [Hwf Hco] Halc Hin.
  destruct Halc as (n & Hcsz & [qc Hqc] & Hc0 & Hc1).
  assert (aligned (total_memory st) c) as Halc by (exists n; repeat split; eauto; by exists qc).
  assert (∀ (j : nat) b, is_free st b → overlap b c →
                         snd b = fst b + p2 j → b = c) as Hwhole.
  { induction j as [j IH] using lt_wf_ind. intros b Hb Hov Hsz.
    assert (aligned (total_memory st) b) as Hal
      by (apply (wf_tiling _ Hwf); by left).
    destruct (Hin b (or_introl Hb) Hov) as (_ & Hlo & Hhi).
    destruct (decide (p2 n ≤ p2 j)) as [Hbig|Hsmall].
    { destruct b, c. cbn in *. f_equal; lia. }
    exfalso. assert (j < n)%nat as Hjn by (apply p2_lt_inv; lia).
    destruct (aligned_buddy _ b Hal) as [p Hh0].
    assert (∃ lo hi, halves p lo hi ∧
              (lo = b ∧ hi = buddy b ∨ lo = buddy b ∧ hi = b))
      as (lo & hi & Hh & Hcase) by (destruct Hh0; eauto 6).
    assert (inside (fst b) p) as Hbp.
    { pose proof (aligned_nonempty _ _ Hal).
      apply (halves_inside _ _ _ _ Hh).
      destruct Hcase as [[-> _]|[_ ->]]; [left|right]; unfold inside; lia. }
    assert (fst c ≤ fst p ∧ snd p ≤ snd c ∧ aligned (total_memory st) p
            ∧ snd p = fst p + p2 (S j)) as (Hplo & Hphi & Halp & Hpsz).
    { destruct Hh as (j' & a0 & [q Hq] & Hp & Hlo' & Hhi').
      assert (snd lo = fst lo + p2 j) as Hlosz.
      { destruct Hcase as [[-> _]|[-> _]]; [done|].
        unfold buddy, buddy_of. cbn. lia. }
      assert (j' = j) as -> by (subst lo; cbn in Hlosz; apply p2_inj; lia).
      destruct (p2_divide (S j) n ltac:(lia)) as [t Ht].
      pose proof (p2_pos j) as Hpj. pose proof (p2_pos (S j)) as HpSj.
      pose proof (aligned_nonempty _ _ Hal) as Hbne.
      subst p. unfold inside in Hbp. cbn [fst snd] in *.
      rewrite Ht in Hcsz. subst a0. rewrite Hqc, Ht in Hlo.
      assert (qc * t ≤ q) by nia.
      assert (q + 1 ≤ qc * t + t) by nia.
      assert (fst c ≤ q * p2 (S j)) by nia.
      assert (q * p2 (S j) + p2 (S j) ≤ snd c) by nia.
      split; [done|]. split; [done|]. split; [|done].
      exists (S j). cbn [fst snd]. repeat split; try lia. by exists q. }
    pose proof (proj1 (halves_aligned _ _ _ _ Hh) Halp) as [Hallo Halhi].
    assert (aligned (total_memory st) (buddy b)) as Halbud
      by (destruct Hcase as [[_ <-]|[<- _]]; done).
    assert (snd (buddy b) = fst (buddy b) + p2 j) as Hbudsz.
    { unfold buddy, buddy_of. cbn. lia. }
    pose proof (aligned_nonempty _ _ Halbud) as Hbudne.
    assert (inside (fst (buddy b)) p) as Hxp.
    { apply (halves_inside _ _ _ _ Hh).
      destruct Hcase as [[_ ->]|[-> _]]; [right|left]; unfold inside; lia. }
    assert (0 ≤ fst (buddy b) < total_memory st) as Hx.
    { destruct Halbud as (_ & _ & _ & ? & ?). lia. }
    destruct (proj2 (proj2 (wf_tiling _ Hwf)) _ Hx) as (c' & Hc' & Hinc').
    assert (overlap c' c) as Hovc.
    { exists (fst (buddy b)). split; [done|]. unfold inside in *. lia. }
    destruct (Hin c' Hc' Hovc) as (Hfree' & _ & _).
    assert (aligned (total_memory st) c') as Halc' by (by apply (wf_tiling _ Hwf)).
    assert (overlap c' (buddy b)) as Hov'.
    { exists (fst (buddy b)). split; [done|]. unfold inside. lia. }
    destruct Halc' as (i & Hci & Hresti).
    assert (aligned (total_memory st) c') as Halc' by (exists i; done).
    destruct (Nat.lt_trichotomy i j) as [Hlt|[->|Hgt]].
    - pose proof (IH i Hlt c' Hfree' Hovc Hci) as ->.
      apply p2_lt_mono in Hlt. lia.
    - assert (c' = buddy b) as -> by (eapply aligned_same_size; eauto; lia).
      apply (Hco b); done.
    - assert (overlap p c') as Hpc.
      { exists (fst (buddy b)). done. }
      assert (snd p - fst p ≤ snd c' - fst c') as Hsize.
      { apply p2_le_mono in Hgt. rewrite p2_S in *. lia. }
      destruct (aligned_nested _ p c' Halp Halc' Hpc Hsize) as [Hlow' Hhigh'].
      assert (overlap b c') as Hbc.
      { exists (fst b). pose proof (aligned_nonempty _ _ Hal).
        unfold inside in *. lia. }
      assert (b = c') as <-.
      { apply (wf_tiling _ Hwf); [by left|by left|done]. }
      apply p2_lt_mono in Hgt. lia. }
  pose proof (p2_pos n) as Hpn.
  destruct (proj2 (proj2 (wf_tiling _ Hwf)) (fst c) ltac:(lia)) as (b & Hb & Hinb).
  assert (overlap b c) as Hov.
  { exists (fst c). split; [done|]. unfold inside. lia. }
  destruct (Hin b Hb Hov) as (Hfree & _).
  destruct (proj1 (wf_tiling _ Hwf) b Hb) as (j & Hj & _).
  by rewrite <- (Hwhole j b Hfree Hov Hj).
Qed.

Lemma aligned_nested_cases total b c :
  aligned total b → aligned total c → overlap b c →
  (fst c ≤ fst b ∧ snd b ≤ snd c) ∨ (fst b ≤ fst c ∧ snd c ≤ snd b).
Proof.
  intros Hb Hc Hov.
  destruct (decide (snd b - fst b ≤ snd c - fst c)).
  - left. by eapply aligned_nested.
  - right. eapply aligned_nested; eauto; [by apply overlap_sym|lia].
Qed.

Lemma free_determined st1 st2 :
  inv st1 → inv st2 → total_memory st1 = total_memory st2 →
  allocated st1 = allocated st2 →
  ∀ b, is_free st1 b → is_free st2 b.
Proof.
  intros Hinv1 Hinv2 HT Hal b Hb.
  pose proof Hinv1 as [Hwf1 _]. pose proof Hinv2 as [Hwf2 _].
  assert (∀ x, is_alloc st1 x ↔ is_alloc st2 x) as Halloc
    by (intros x; unfold is_alloc; by rewrite Hal).
  assert (aligned (total_memory st1) b) as Halb
    by (apply (wf_tiling _ Hwf1); by left).
  pose proof (aligned_nonempty _ _ Halb) as Hbne.
  (* no allocated block of either state overlaps a free block of the other *)
  assert (∀ f x, is_free st1 f → is_alloc st2 x → overlap x f → False) as Hno1.
  { intros f x Hf Hx%Halloc Hov.
    assert (x = f) as -> by (apply (wf_tiling _ Hwf1); [by right|by left|done]).
    by apply (wf_excl _ Hwf1 f). }
  assert (∀ f x, is_free st2 f → is_alloc st1 x → overlap x f → False) as Hno2.
  { intros f x Hf Hx%Halloc Hov.
    assert (x = f) as -> by (apply (wf_tiling _ Hwf2); [by right|by left|done]).
    by apply (wf_excl _ Hwf2 f). }
  assert (0 ≤ fst b < total_memory st2) as Hx.
  { destruct Halb as (_ & _ & _ & ? & ?). lia. }
  destruct (proj2 (proj2 (wf_tiling _ Hwf2)) _ Hx) as (c & [Hc|Hc] & Hinc).
  2:{ exfalso. apply (Hno1 b c Hb Hc). exists (fst b). split; [done|].
      unfold inside. lia. }
  assert (aligned (total_memory st2) c) as Halc
    by (apply (wf_tiling _ Hwf2); by left).
  assert (overlap b c) as Hbc.
  { exists (fst b). split; [unfold inside; lia|done]. }
  rewrite HT in Halb.
  destruct (decide (b = c)) as [->|Hne]; [done|].
  destruct (aligned_nested_cases _ b c Halb Halc Hbc) as [[Hlo Hhi]|[Hlo Hhi]].
  - (* b lies within c: the region c is all free in st1 *)
    exfalso. apply Hne.
    assert (is_free st1 c) as Hc1.
    { apply region_whole; [done|by rewrite HT|].
      intros x [Hx1|Hx1] Hov; [|exfalso; by apply (Hno2 c x)].
      split; [done|].
      assert (aligned (total_memory st2) x) as Halx
        by (rewrite <- HT; apply (wf_tiling _ Hwf1); by left).
      destruct (aligned_nested_cases _ x c Halx Halc Hov) as [?|[Hxl Hxh]]; [done|].
      assert (x = b) as ->; [|lia].
      apply (wf_tiling _ Hwf1); [by left|by left|].
      exists (fst b). unfold inside in *. lia. }
    apply (wf_tiling _ Hwf1); [by left|by left|done].
  - (* c lies within b: the region b is all free in st2 *)
    apply region_whole; [done|done|].
    intros x [Hx2|Hx2] Hov; [|exfalso; by apply (Hno1 b x)].
    split; [done|].
    assert (aligned (total_memory st2) x) as Halx
      by (apply (wf_tiling _ Hwf2); by left).
    destruct (aligned_nested_cases _ x b Halx Halb Hov) as [?|[Hxl Hxh]]; [done|].
    assert (x = c) as ->; [|lia].
    apply (wf_tiling _ Hwf2); [by left|by left|].
    pose proof (aligned_nonempty _ _ Halc).
    exists (fst c). unfold inside in *. lia.
Qed.

Lemma free_lists_determined st1 st2 :
  inv st1 → inv st2 → total_memory st1 = total_memory st2 →
  allocated st1 = allocated st2 →
  ∀ s, cls st1 s ≡ₚ cls st2 s.
Proof.
  intros Hinv1 Hinv2 HT Hal s.
  pose proof Hinv1 as [Hwf1 _]. pose proof Hinv2 as [Hwf2 _].
  apply NoDup_Permutation; [apply (wf_nodup _ Hwf1)|apply (wf_nodup _ Hwf2)|].
  intros b. split; intros Hb.
  - destruct (free_determined st1 st2 Hinv1 Hinv2 HT Hal b) as [s' Hs'];
      [by exists s|].
    pose proof (wf_key _ Hwf1 _ _ Hb). pose proof (wf_key _ Hwf2 _ _ Hs').
    by replace s with s' by lia.
  - destruct (free_determined st2 st1 Hinv2 Hinv1 (eq_sym HT) (eq_sym Hal) b)
      as [s' Hs']; [by exists s|].
    pose proof (wf_key _ Hwf2 _ _ Hb). pose proof (wf_key _ Hwf1 _ _ Hs').
    by replace s with s' by lia.
Qed.

(** The free lists do not depend on the history: two states reached from
    allocators of the same power-of-two total, by whatever requests, that
    have the same [allocated] have, at every size, the same free blocks, up
    to their order in the list. *)
Theorem free_lists_history_independent total st1 st2 :
  pow2 total → reachable total st1 → reachable total st2 →
  allocated st1 = allocated st2 →
  ∀ s, cls st1 s ≡ₚ cls st2 s.
Proof.
  intros Hpow Hr1 Hr2 Hal.
  destruct (reachable_inv total st1 Hpow Hr1) as [Hinv1 HT1].
  destruct (reachable_inv total st2 Hpow Hr2) as [Hinv2 HT2].
  apply free_lists_determined; [done|done|lia|done].
Qed.

(** In every reachable state, a successful [allocate] followed by the
    deallocation of the block it granted restores [allocated] and, at every
    size, the free blocks, up to their order in the list. *)
Theorem allocate_deallocate_roundtrip total st n b st' :
  pow2 total → reachable total st →
  allocate st n = Returns (Some b) st' →
  ∃ st'', deallocate_block st' (fst b) = Returns Success st'' ∧
    allocated st'' = allocated st ∧
    total_memory st'' = total_memory st ∧
    ∀ s, cls st'' s ≡ₚ cls st s.
Proof.
  intros Hpow Hreach Hrun.
  destruct (reachable_inv total st Hpow Hreach) as [Hinv HT].
  destruct (allocate_inv _ _ _ _ Hinv Hrun)
    as (Hinv' & HT' & j & _ & _ & Hfresh & Hal).
  assert (allocated st' !! fst b = Some (n, p2 j)) as Hb
    by (rewrite Hal; apply lookup_insert_eq).
  destruct (deallocate_block_inv st' (fst b) n (p2 j) Hinv' Hb)
    as (st'' & Hrun' & Hinv'' & Hal' & HT'').
  assert (allocated st'' = allocated st) as Hsame.
  { rewrite Hal', Hal, delete_insert_eq. by apply delete_id. }
  exists st''. split; [done|]. split; [done|]. split; [lia|].
  apply free_lists_determined; [done|done|lia|done].
Qed.

Lemma run_reachable total rs : ∀ st0 st,
  reachable total st0 → run st0 rs = Some st → reachable total st.
Proof.
  induction rs as [|r rs IH]; intros st0 st Hreach; cbn [run].
  - by intros [= <-].
  - destruct (step st0 r) as [st1|] eqn:Hstep; [|done].
    apply IH. destruct r as [n|a]; cbn [step] in Hstep.
    + destruct (allocate st0 n) as [res s1| |] eqn:Hrun; try done.
      injection Hstep as <-. by eapply reachable_allocate.
    + destruct (deallocate_block st0 a) as [m s1| |] eqn:Hrun; try done.
      injection Hstep as <-. by eapply reachable_deallocate.
Qed.

Lemma free_lists_history_independent_witness :
  pow2 16 ∧
  reachable 16
    (default (__init__ 16)
       (run (__init__ 16) [Allocate 8; Allocate 8; Deallocate 0])) ∧
  reachable 16
    (default (__init__ 16)
       (run (__init__ 16)
          [Allocate 3; Allocate 4; Allocate 8; Deallocate 4; Deallocate 0;
           Deallocate 8; Allocate 8; Allocate 8; Deallocate 0])) ∧
  allocated
    (default (__init__ 16)
       (run (__init__ 16) [Allocate 8; Allocate 8; Deallocate 0]))
  = allocated
      (default (__init__ 16)
         (run (__init__ 16)
            [Allocate 3; Allocate 4; Allocate 8; Deallocate 4; Deallocate 0;
             Deallocate 8; Allocate 8; Allocate 8; Deallocate 0])) ∧
  ∀ s,
    cls (default (__init__ 16)
           (run (__init__ 16) [Allocate 8; Allocate 8; Deallocate 0])) s
    ≡ₚ cls (default (__init__ 16)
              (run (__init__ 16)
                 [Allocate 3; Allocate 4; Allocate 8; Deallocate 4; Deallocate 0;
                  Deallocate 8; Allocate 8; Allocate 8; Deallocate 0])) s.
Proof.
  assert (pow2 16) as Hpow by (exists 4%nat; reflexivity).
  assert (reachable 16
            (default (__init__ 16)
               (run (__init__ 16) [Allocate 8; Allocate 8; Deallocate 0])))
    as Hr1.
  { apply (run_reachable 16 [Allocate 8; Allocate 8; Deallocate 0] (__init__ 16));
      [apply reachable_init|vm_compute; reflexivity]. }
  assert (reachable 16
            (default (__init__ 16)
               (run (__init__ 16)
                  [Allocate 3; Allocate 4; Allocate 8; Deallocate 4;
                   Deallocate 0; Deallocate 8; Allocate 8; Allocate 8;
                   Deallocate 0]))) as Hr2.
  { apply (run_reachable 16
             [Allocate 3; Allocate 4; Allocate 8; Deallocate 4; Deallocate 0;
              Deallocate 8; Allocate 8; Allocate 8; Deallocate 0] (__init__ 16));
      [apply reachable_init|vm_compute; reflexivity]. }
  assert (allocated
            (default (__init__ 16)
               (run (__init__ 16) [Allocate 8; Allocate 8; Deallocate 0]))
          = allocated
              (default (__init__ 16)
                 (run (__init__ 16)
                    [Allocate 3; Allocate 4; Allocate 8; Deallocate 4;
                     Deallocate 0; Deallocate 8; Allocate 8; Allocate 8;
                     Deallocate 0]))) as Hal by (vm_compute; reflexivity).
  split; [exact Hpow|]. split; [exact Hr1|]. split; [exact Hr2|].
  split; [exact Hal|].
  apply (free_lists_history_independent 16 _ _ Hpow Hr1 Hr2 Hal).
Defined.

Lemma allocate_deallocate_roundtrip_witness :
  pow2 1024 ∧ reachable 1024 (__init__ 1024) ∧
  allocate (__init__ 1024) 100
  = Returns (Some (0, 128))
      (grant (split_at (split_at (split_at (__init__ 1024) 1024 (0, 1024) [])
                          512 (0, 512) [(512, 1024)])
                256 (0, 256) [(256, 512)])
         100 128 (0, 128) [(128, 256)]) ∧
  ∃ st'',
    deallocate_block
      (grant (split_at (split_at (split_at (__init__ 1024) 1024 (0, 1024) [])
                          512 (0, 512) [(512, 1024)])
                256 (0, 256) [(256, 512)])
         100 128 (0, 128) [(128, 256)]) (fst (0, 128))
    = Returns Success st'' ∧
    allocated st'' = allocated (__init__ 1024) ∧
    total_memory st'' = total_memory (__init__ 1024) ∧
    ∀ s, cls st'' s ≡ₚ cls (__init__ 1024) s.
Proof.
  assert (pow2 1024) as Hpow by (exists 10%nat; reflexivity).
  assert (allocate (__init__ 1024) 100
          = Returns (Some (0, 128))
              (grant (split_at (split_at (split_at (__init__ 1024) 1024 (0, 1024) [])
                                  512 (0, 512) [(512, 1024)])
                        256 (0, 256) [(256, 512)])
                 100 128 (0, 128) [(128, 256)])) as Hrun
    by (vm_compute; reflexivity).
  split; [exact Hpow|]. split; [apply reachable_init|]. split; [exact Hrun|].
  apply (allocate_deallocate_roundtrip 1024 (__init__ 1024) 100 (0, 128) _
           Hpow (reachable_init 1024) Hrun).
Defined.
